(** * The expression type-checking pass of ponyc (src/pass/expr.c)

    A shallow embedding of [expr.c] and the properties of the pass.

    Conventions of the embedding.
    - An [ast_t] is a tree value: kind tag, source position, payload
      (interned string, integer value), the optional attached type and the
      ordered children.  Type nodes have the same shape.
    - A C pointer that may be [NULL] is an [option ast].
    - The pass mutates only the type slot of the visited node and pushes
      diagnostics: a component is a computation in the monad [M], whose
      state holds that slot and the diagnostic sink.
    - Dereferencing [NULL] through an AST primitive ([ast_id], [ast_type],
      [ast_sibling], [ast_add], [ast_error], ...) and a failing [assert]
      abort the computation: the result is [None].
    - What a node sees outside its own subtree (next sibling, parent,
      enclosing declarations) is its [context].
    - The subtype engine, the nominal constructors, the capability lattice
      and scope lookup are the collaborators of the pass; the pass is
      parametrised by them and they are handed every pointer as it is,
      [NULL] included.
    - Releasing memory ([ast_free], [ast_free_unattached]) has no effect on
      tree values and is left out, except where one node that is in no tree
      is released twice, at the end of [expr_fun]: that aborts the
      computation. *)

From Stdlib Require Import List String ZArith Bool Lia.
From Stdlib Require Import FunctionalExtensionality.
From Equations Require Import Equations.
Import ListNotations.

Set Implicit Arguments.
Set Warnings "-register-all".
Open Scope string_scope.

(** ** Tokens *)

Inductive token_id : Type :=
| TK_NONE | TK_ID | TK_INT | TK_FLOAT | TK_STRING
| TK_ERROR | TK_QUESTION
| TK_PACKAGE | TK_TYPE | TK_CLASS | TK_ACTOR | TK_TRAIT
| TK_FVAR | TK_FLET | TK_PARAM | TK_PARAMS | TK_TYPEPARAMS | TK_TYPEARGS
| TK_TYPES | TK_IDSEQ
| TK_NEW | TK_BE | TK_FUN
| TK_NOMINAL | TK_TUPLETYPE | TK_UNIONTYPE | TK_ISECTTYPE | TK_STRUCTURAL
| TK_ARROW
| TK_SEQ | TK_VAR | TK_LET | TK_CONTINUE | TK_BREAK | TK_RETURN
| TK_MULTIPLY | TK_DIVIDE | TK_MOD | TK_PLUS | TK_MINUS
| TK_LSHIFT | TK_RSHIFT
| TK_LT | TK_LE | TK_GE | TK_GT | TK_EQ | TK_NE | TK_IS | TK_ISNT
| TK_AND | TK_XOR | TK_OR | TK_NOT
| TK_ASSIGN | TK_CONSUME | TK_DOT | TK_QUALIFY | TK_CALL
| TK_IF | TK_WHILE | TK_REPEAT | TK_FOR | TK_TRY
| TK_TUPLE | TK_ARRAY | TK_OBJECT | TK_REFERENCE | TK_THIS
| TK_OTHER (n : nat).

Definition token_eq_dec (a b : token_id) : {a = b} + {a <> b}.
Proof. decide equality. apply Nat.eq_dec. Defined.

(** ** AST nodes *)

(** Modelled from the spec: the node structure of ast.h, which is not part
    of the sources.  A node has a kind tag, a source position (line,
    column), an interned string for identifiers, an integer value for
    integer literals, an optional attached type node and an ordered sequence
    of children; type nodes have the same shape. *)
Inductive ast : Type :=
  Node { ast_id : token_id;
         ast_line : nat;
         ast_pos : nat;
         ast_name : string;
         ast_int : Z;
         ast_type : option ast;
         ast_kids : list ast }.

(** Modelled from the spec: the traversal primitives of ast.c, first child,
    n-th child and last child; each is [NULL] when there is no such child.
    [ast_sibling] of a child is the next element of the parent's list. *)
Definition ast_child (a : ast) : option ast := hd_error (ast_kids a).

Definition ast_childidx (a : ast) (i : nat) : option ast :=
  nth_error (ast_kids a) i.

Definition ast_childlast (a : ast) : option ast :=
  last (map Some (ast_kids a)) None.

(** Modelled from the spec: [ast_from(ast, id)] of ast.c ([new_node(at,
    kind)]), a fresh childless node of kind [id] at the source position of
    [ast]. *)
Definition ast_from (a : ast) (id : token_id) : ast :=
  Node id (ast_line a) (ast_pos a) "" 0 None [].

(** Modelled from the spec: [ast_from_string(ast, name)] of ast.c
    ([new_string(at, s)]), a fresh identifier node. *)
Definition ast_from_string (a : ast) (name : string) : ast :=
  Node TK_ID (ast_line a) (ast_pos a) name 0 None [].

(** Modelled from the spec: [ast_add(parent, child)] of ast.c prepends the
    child. *)
Definition ast_add (parent child : ast) : ast :=
  Node (ast_id parent) (ast_line parent) (ast_pos parent) (ast_name parent)
       (ast_int parent) (ast_type parent) (child :: ast_kids parent).

(** Modelled from the spec: [ast_append(parent, child)] of ast.c appends the
    child. *)
Definition ast_append (parent child : ast) : ast :=
  Node (ast_id parent) (ast_line parent) (ast_pos parent) (ast_name parent)
       (ast_int parent) (ast_type parent) (ast_kids parent ++ [child]).

(** The node with its type slot replaced. *)
Definition with_type (a : ast) (t : option ast) : ast :=
  Node (ast_id a) (ast_line a) (ast_pos a) (ast_name a) (ast_int a) t
       (ast_kids a).

(** The conversion of [ast_int(right)] to the [int] parameter of
    [tuple_index]: 32 bits, two's complement. *)
Definition to_int (z : Z) : Z :=
  (z + 2147483648) mod 4294967296 - 2147483648.

(** ** What a node sees around it *)

(** Modelled from the spec: the answers of [ast_parent], [ast_sibling],
    [ast_enclosing_type], [ast_enclosing_loop] and
    [ast_enclosing_method_body] of ast.c at the visited node. *)
Record context : Type := Context {
  ctx_parent : option ast;
  ctx_sibling : option ast;
  ctx_enclosing_type : option ast;
  ctx_enclosing_loop : option ast;
  ctx_enclosing_method_body : option ast }.

(** The scope argument of a collaborator: the visited node in its context
    and the node the code passes (the visited node itself, one of its
    children, or a definition found by lookup). *)
Record scope : Type := Scope {
  scope_ctx : context;
  scope_visited : ast;
  scope_at : ast }.

Definition here (c : context) (a : ast) : scope := Scope c a a.

(** ** Collaborators of the pass *)

(** The functions of type/subtype.c, type/nominal.c, type/cap.c and the
    scope lookup of ast.c, none of them part of the sources, as parameters
    of the pass. *)
Record collaborators : Type := Collaborators {
  is_subtype : scope -> option ast -> option ast -> bool;
  is_eqtype : scope -> option ast -> option ast -> bool;
  nominal_builtin : scope -> string -> option ast;
  nominal_type : scope -> option string -> string -> option ast;
  cap_for_receiver : scope -> token_id;
  cap_for_fun : ast -> token_id;
  is_cap_sub_cap : token_id -> token_id -> bool;
  ast_get : scope -> string -> option ast }.

(** ** Diagnostics and the monad of the pass *)

Record diagnostic : Type := Diag {
  diag_line : nat;
  diag_pos : nat;
  diag_msg : string }.

Record pass_state : Type := PassState {
  slot : option ast;
  errors : list diagnostic }.

Definition M (A : Type) : Type := pass_state -> option (A * pass_state).

Definition ret {A} (x : A) : M A := fun s => Some (x, s).

Definition bind {A B} (m : M A) (k : A -> M B) : M B :=
  fun s => match m s with
           | Some (x, s') => k x s'
           | None => None
           end.

Definition crash {A} : M A := fun _ => None.

Declare Scope pass_scope.
Delimit Scope pass_scope with pass.
Notation "x <- m ;; k" := (bind m (fun x => k))
  (at level 100, m at next level, right associativity) : pass_scope.
Notation "m ;; k" := (bind m (fun _ => k))
  (at level 100, right associativity) : pass_scope.
Open Scope pass_scope.

(** Dereference of a pointer that the code does not test against [NULL]. *)
Definition deref {A} (p : option A) : M A :=
  match p with
  | Some x => ret x
  | None => crash
  end.

Definition assert (b : bool) : M unit :=
  if b then ret tt else crash.

(** Modelled from the spec: [ast_error(n, fmt, ...)] of ast.c emits a
    diagnostic located at [n]; the sink is push-only. *)
Definition ast_error (at_node : option ast) (msg : string) : M unit :=
  fun s => match at_node with
           | Some n => Some (tt, PassState (slot s)
                        (errors s ++ [Diag (ast_line n) (ast_pos n) msg]))
           | None => None
           end.

(** Modelled from the spec: [ast_settype(ast, type)] of ast.c, on the visited
    node. *)
Definition ast_settype (t : option ast) : M unit :=
  fun s => Some (tt, PassState t (errors s)).

Definition is_tk (a : ast) (id : token_id) : bool :=
  if token_eq_dec (ast_id a) id then true else false.

(** ** The pass *)

Inductive ast_result_t : Type := AST_OK | AST_FATAL.

(** Make sure the definition of something occurs before its use. *)
Definition def_before_use (def use : ast) (name : string) : M bool :=
  if (ast_line use <? ast_line def)%nat
     || ((ast_line def =? ast_line use)%nat
         && (ast_pos use <? ast_pos def)%nat)
  then
    ast_error (Some use) ("declaration of '" ++ name ++ "' appears after use") ;;
    ast_error (Some def) ("declaration of '" ++ name ++ "' appears here") ;;
    ret false
  else ret true.

(** Get the nth typedef out of a tuple definition: the [while] loop and the
    statements after it.  The outer [option] is the abort on a [NULL]
    dereference, the inner one the returned pointer. *)
Equations? tuple_index_walk (a : ast) (index : Z) : option (option ast)
  by wf (Z.to_nat index) lt :=
  tuple_index_walk a index with Z_lt_dec 1 index => {
    | left _ =>
        match ast_childidx a 1 with
        | Some rhs =>
            if is_tk rhs TK_TUPLETYPE
            then tuple_index_walk rhs (index - 1)
            else Some None
        | None => None
        end
    | right _ =>
        if (index =? 0)%Z then Some (ast_child a)
        else
          match ast_childidx a 1 with
          | Some a' =>
              if is_tk a' TK_TUPLETYPE then Some (ast_child a')
              else Some (Some a')
          | None => None
          end }.
Proof. lia. Qed.

Definition tuple_index (a : ast) (index : Z) : option (option ast) :=
  if is_tk a TK_TUPLETYPE then tuple_index_walk a index else None.

Section Pass.

Variable E : collaborators.

(** If the ast node is a subtype of the named type, return the ast for the
    type of the ast node. Otherwise, return NULL. *)
Definition type_builtin (c : context) (visited : ast) (node : option ast)
    (name : string) : M (option ast) :=
  n <- deref node ;;
  let type := ast_type n in
  let builtin := nominal_builtin E (Scope c visited n) name in
  let ok := is_subtype E (Scope c visited n) type builtin in
  if negb ok then ret None else ret type.

Definition type_bool c visited node := type_builtin c visited node "Bool".

Definition type_int c visited node := type_builtin c visited node "Integer".

Definition type_int_or_bool (c : context) (visited : ast)
    (node : option ast) : M (option ast) :=
  type <- type_bool c visited node ;;
  type <- match type with
          | None => type_int c visited node
          | Some _ => ret type
          end ;;
  match type with
  | None => ast_error node "expected Bool or an integer type" ;; ret None
  | Some _ => ret type
  end.

Definition type_arithmetic c visited node :=
  type_builtin c visited node "Arithmetic".

(** If one of the two types is a super type of the other, return it.
    Otherwise, return NULL. *)
Definition type_super (sc : scope) (l_type r_type : option ast)
    : option ast :=
  match l_type, r_type with
  | Some _, Some _ =>
      if is_subtype E sc l_type r_type then r_type
      else if is_subtype E sc r_type l_type then l_type
      else None
  | _, _ => None
  end.

(** Build a type that is the union of these two types. *)
Definition type_union (c : context) (a : ast) (l_type r_type : option ast)
    : M ast :=
  match type_super (here c a) l_type r_type with
  | Some super => ret super
  | None =>
      let type := ast_from a TK_UNIONTYPE in
      r <- deref r_type ;;
      let type := ast_add type r in
      l <- deref l_type ;;
      let type := ast_add type l in
      ret type
  end.

(** The [while(param != NULL)] loop of [type_for_fun]. *)
Fixpoint param_types (types : ast) (params : list ast) : M ast :=
  match params with
  | [] => ret types
  | param :: rest =>
      t <- deref (ast_childidx param 1) ;;
      param_types (ast_append types t) rest
  end.

Definition type_for_fun (a : ast) : M ast :=
  assert (is_tk a TK_NEW || is_tk a TK_BE || is_tk a TK_FUN) ;;
  match ast_kids a with
  | cap :: id :: typeparams :: params :: result :: throws :: _ =>
      let fn := ast_from a (ast_id a) in
      let fn := ast_add fn (ast_from a TK_NONE) in
      let fn := ast_add fn throws in
      let fn := ast_add fn result in
      fn <- match ast_id params with
            | TK_PARAMS =>
                types <- param_types (ast_from a TK_TYPES) (ast_kids params) ;;
                ret (ast_add fn types)
            | _ => ret (ast_add fn params)
            end ;;
      let fn := ast_add fn typeparams in
      let fn := ast_add fn id in
      let fn := ast_add fn cap in
      ret fn
  | _ => crash
  end.

Fixpoint is_lvalue (a : ast) : bool :=
  match a with
  | Node TK_REFERENCE _ _ _ _ _ _ => true
  | Node TK_DOT _ _ _ _ _ _ => true
  | Node TK_TUPLE _ _ _ _ _ kids =>
      (fix each (child : list ast) : bool :=
         match child with
         | [] => true
         | x :: rest => if negb (is_lvalue x) then false else each rest
         end) kids
  | _ => false
  end.

Definition expr_field (c : context) (a : ast) : M bool :=
  type <- deref (ast_childidx a 1) ;;
  init <- deref (ast_childidx a 2) ;;
  if is_tk type TK_NONE && is_tk init TK_NONE then
    ast_error (Some a) "field/param needs a type or an initialiser" ;;
    ret false
  else if is_tk type TK_NONE then
    ast_settype (ast_type init) ;;
    ret true
  else if negb (is_tk init TK_NONE)
          && negb (is_subtype E (here c a) (ast_type init) (Some type)) then
    ast_error (Some init)
      "field/param initialiser is not a subtype of the field/param type" ;;
    ret false
  else
    ast_settype (Some type) ;;
    ret true.

Definition expr_literal (c : context) (a : ast) (name : string) : M bool :=
  match nominal_builtin E (here c a) name with
  | None => ret false
  | Some type => ast_settype (Some type) ;; ret true
  end.

(** The [while(typeparam != NULL)] loop of [expr_this]. *)
Fixpoint this_typeargs (c : context) (a : ast) (typeargs : ast)
    (typeparams : list ast) : M ast :=
  match typeparams with
  | [] => ret typeargs
  | typeparam :: rest =>
      typeparam_id <- deref (ast_child typeparam) ;;
      typearg <- deref (nominal_type E (here c a) None (ast_name typeparam_id)) ;;
      this_typeargs c a (ast_append typeargs typearg) rest
  end.

(** [typeargs] is added to [nominal] before it is filled; the nominal sees
    the filled node, so here it is filled first. *)
Definition expr_this (c : context) (a : ast) : M bool :=
  def <- deref (ctx_enclosing_type c) ;;
  assert (negb (is_tk def TK_TYPE)) ;;
  id <- deref (ast_child def) ;;
  typeparams <- deref (ast_childidx def 1) ;;
  let name := ast_name id in
  let nominal := ast_from a TK_NOMINAL in
  let nominal := ast_add nominal (ast_from a TK_NONE) in
  let nominal := ast_add nominal (ast_from a (cap_for_receiver E (here c a))) in
  nominal <- (if is_tk typeparams TK_TYPEPARAMS then
                typeargs <- this_typeargs c a (ast_from a TK_TYPEARGS)
                              (ast_kids typeparams) ;;
                ret (ast_add nominal typeargs)
              else ret (ast_add nominal (ast_from a TK_NONE))) ;;
  let nominal := ast_add nominal (ast_from_string a name) in
  let nominal := ast_add nominal (ast_from a TK_NONE) in
  ast_settype (Some nominal) ;;
  ret true.

Definition expr_reference (c : context) (a : ast) : M bool :=
  id <- deref (ast_child a) ;;
  let name := ast_name id in
  match ast_get E (here c a) name with
  | None =>
      ast_error (Some a) ("can't find declaration of '" ++ name ++ "'") ;;
      ret false
  | Some def =>
      match ast_id def with
      | TK_PACKAGE =>
          parent <- deref (ctx_parent c) ;;
          if negb (is_tk parent TK_DOT) then
            ast_error (Some a)
              "a package can only appear as a prefix to a type" ;;
            ret false
          else ret true
      | TK_TYPE | TK_CLASS | TK_ACTOR =>
          id <- deref (ast_child def) ;;
          let name := ast_name id in
          ast_settype (nominal_type E (here c a) None name) ;;
          ret true
      | TK_FVAR | TK_FLET | TK_PARAM =>
          ok <- def_before_use def a name ;;
          if negb ok then ret false
          else ast_settype (ast_type def) ;; ret true
      | TK_NEW | TK_BE | TK_FUN =>
          fn <- type_for_fun def ;;
          ast_settype (Some fn) ;;
          ret true
      | TK_IDSEQ =>
          ok <- def_before_use def a name ;;
          if negb ok then ret false
          else ast_error (Some a) "not implemented (reference local)" ;;
               ret false
      | _ => crash
      end
  end.

Definition expr_dot (c : context) (a : ast) : M bool :=
  lhs <- deref (ast_child a) ;;
  rhs <- deref (ast_childidx a 1) ;;
  let type := ast_type lhs in
  match ast_id rhs with
  | TK_ID =>
      match type with
      | None =>
          match ast_get E (Scope c a lhs) (ast_name lhs) with
          | None => ret false
          | Some package =>
              assert (is_tk package TK_PACKAGE) ;;
              let package_name := ast_name lhs in
              let type_name := ast_name rhs in
              match ast_get E (Scope c a package) type_name with
              | None =>
                  ast_error (Some rhs)
                    ("can't find type '" ++ type_name ++ "' in package '"
                       ++ package_name ++ "'") ;;
                  ret false
              | Some _ =>
                  ast_settype
                    (nominal_type E (here c a) (Some package_name) type_name) ;;
                  ret true
              end
          end
      | Some _ =>
          ast_error (Some a) "not implemented (dot)" ;;
          ret false
      end
  | TK_INT =>
      match type with
      | Some t =>
          if negb (is_tk t TK_TUPLETYPE) then
            ast_error (Some rhs)
              "member by position can only be used on a tuple" ;;
            ret false
          else
            type <- deref (tuple_index t (to_int (ast_int rhs))) ;;
            match type with
            | None =>
                ast_error (Some rhs) "tuple index is out of bounds" ;;
                ret false
            | Some _ => ast_settype type ;; ret true
            end
      | None =>
          ast_error (Some rhs)
            "member by position can only be used on a tuple" ;;
          ret false
      end
  | _ => crash
  end.

Definition expr_qualify (c : context) (a : ast) : M bool :=
  ast_error (Some a) "not implemented (qualify)" ;;
  ret false.

Definition expr_identity (c : context) (a : ast) : M bool :=
  lhs <- deref (ast_child a) ;;
  rhs <- deref (ast_childidx a 1) ;;
  let l_type := ast_type lhs in
  let r_type := ast_type rhs in
  match type_super (here c a) l_type r_type with
  | None =>
      ast_error (Some a) "left and right side must have related types" ;;
      ret false
  | Some _ => expr_literal c a "Bool"
  end.

Definition expr_compare (c : context) (a : ast) : M bool :=
  lhs <- deref (ast_child a) ;;
  let rhs := ast_childidx a 1 in
  l_type <- type_arithmetic c a (Some lhs) ;;
  r_type <- type_arithmetic c a rhs ;;
  let type := type_super (here c a) l_type r_type in
  rhs <- deref rhs ;;
  match type with
  | None =>
      let l_type := ast_type lhs in
      let r_type := ast_type rhs in
      if negb (is_subtype E (here c a) r_type l_type) then
        ast_error (Some a) "right side must be a subtype of left side" ;;
        ret false
      else
        ast_settype (nominal_builtin E (here c a) "Bool") ;;
        ret true
  | Some _ =>
      ast_settype (nominal_builtin E (here c a) "Bool") ;;
      ret true
  end.

Definition expr_order (c : context) (a : ast) : M bool :=
  lhs <- deref (ast_child a) ;;
  let rhs := ast_childidx a 1 in
  l_type <- type_arithmetic c a (Some lhs) ;;
  r_type <- type_arithmetic c a rhs ;;
  let type := type_super (here c a) l_type r_type in
  rhs <- deref rhs ;;
  match type with
  | None =>
      let l_type := ast_type lhs in
      let r_type := ast_type rhs in
      if negb (is_subtype E (here c a) r_type l_type) then
        ast_error (Some a) "right side must be a subtype of left side" ;;
        ret false
      else
        ast_settype (nominal_builtin E (here c a) "Bool") ;;
        ret true
  | Some _ =>
      ast_settype (nominal_builtin E (here c a) "Bool") ;;
      ret true
  end.

Definition expr_arithmetic (c : context) (a : ast) : M bool :=
  lhs <- deref (ast_child a) ;;
  let rhs := ast_childidx a 1 in
  l_type <- type_arithmetic c a (Some lhs) ;;
  r_type <- type_arithmetic c a rhs ;;
  let type := type_super (here c a) l_type r_type in
  match type with
  | None =>
      ast_error (Some a)
        "left and right side must have related arithmetic types" ;;
      ret false
  | Some _ => ast_settype type ;; ret true
  end.

Definition expr_minus (c : context) (a : ast) : M bool :=
  lhs <- deref (ast_child a) ;;
  let rhs := ast_childidx a 1 in
  l_type <- type_arithmetic c a (Some lhs) ;;
  type <- match rhs with
          | Some _ =>
              r_type <- type_arithmetic c a rhs ;;
              let type := type_super (here c a) l_type r_type in
              match type with
              | None =>
                  ast_error (Some a)
                    "left and right side must have related arithmetic types" ;;
                  ret type
              | Some _ => ret type
              end
          | None =>
              let type := l_type in
              match type with
              | None =>
                  ast_error (Some a) "must have an arithmetic type" ;;
                  ret type
              | Some _ => ret type
              end
          end ;;
  match type with
  | Some _ => ast_settype type ;; ret true
  | None => ret false
  end.

Definition expr_shift (c : context) (a : ast) : M bool :=
  lhs <- deref (ast_child a) ;;
  let rhs := ast_childidx a 1 in
  l_type <- type_int c a (Some lhs) ;;
  r_type <- type_int c a rhs ;;
  match l_type, r_type with
  | Some _, Some _ => ast_settype l_type ;; ret true
  | _, _ =>
      ast_error (Some a) "left and right side must have integer types" ;;
      ret false
  end.

Definition expr_logical (c : context) (a : ast) : M bool :=
  lhs <- deref (ast_child a) ;;
  let rhs := ast_childidx a 1 in
  l_type <- type_int_or_bool c a (Some lhs) ;;
  r_type <- type_int_or_bool c a rhs ;;
  let type := type_super (here c a) l_type r_type in
  match type with
  | None =>
      ast_error (Some a)
        "left and right side must have related integer or boolean types" ;;
      ret false
  | Some _ => ast_settype type ;; ret true
  end.

Definition expr_not (c : context) (a : ast) : M bool :=
  let child := ast_child a in
  type <- type_int_or_bool c a child ;;
  match type with
  | None => ret false
  | Some _ => ast_settype type ;; ret true
  end.

(** The element appended second to a [TK_TUPLETYPE] of [expr_tuple]: one
    more spine node per turn of the [while] loop, the bare type of the last
    child when the loop ends. *)
Fixpoint tuple_rest (a : ast) (child : ast) (siblings : list ast) : M ast :=
  match siblings with
  | [] => deref (ast_type child)
  | next_child :: siblings' =>
      let next := ast_from a TK_TUPLETYPE in
      t <- deref (ast_type child) ;;
      let next := ast_append next t in
      rest <- tuple_rest a next_child siblings' ;;
      ret (ast_append next rest)
  end.

Definition expr_tuple (c : context) (a : ast) : M bool :=
  match ast_kids a with
  | [] => crash
  | [child] => ast_settype (ast_type child) ;; ret true
  | child :: second :: siblings =>
      let tuple := ast_from a TK_TUPLETYPE in
      t <- deref (ast_type child) ;;
      let tuple := ast_append tuple t in
      rest <- tuple_rest a second siblings ;;
      ast_settype (Some (ast_append tuple rest)) ;;
      ret true
  end.

Definition expr_call (c : context) (a : ast) : M bool :=
  lhs <- deref (ast_child a) ;;
  type <- deref (ast_type lhs) ;;
  match ast_id type with
  | TK_NEW | TK_BE | TK_FUN =>
      let rcap := cap_for_receiver E (here c a) in
      let fcap := cap_for_fun E type in
      if negb (is_cap_sub_cap E rcap fcap) then
        ast_error (Some a)
          "receiver capability is not a subtype of method capability" ;;
        ret false
      else
        ast_settype (ast_childidx type 4) ;;
        ret true
  | TK_UNIONTYPE | TK_ISECTTYPE | TK_NOMINAL | TK_STRUCTURAL | TK_ARROW =>
      ast_error (Some a) "not implemented (apply sugar)" ;;
      ret false
  | TK_TUPLETYPE =>
      ast_error (Some a) "can't call a tuple type" ;;
      ret false
  | _ => crash
  end.

Definition expr_if (c : context) (a : ast) : M bool :=
  cond <- deref (ast_child a) ;;
  lhs <- deref (ast_childidx a 1) ;;
  let rhs := ast_childidx a 2 in
  b <- type_bool c a (Some cond) ;;
  match b with
  | None =>
      ast_error (Some cond) "condition must be a Bool" ;;
      ret false
  | Some _ =>
      let l_type := ast_type lhs in
      rhs <- deref rhs ;;
      let r_type := if is_tk rhs TK_NONE
                    then nominal_builtin E (here c a) "None"
                    else ast_type rhs in
      type <- type_union c a l_type r_type ;;
      ast_settype (Some type) ;;
      ret true
  end.

Definition expr_while (c : context) (a : ast) : M bool :=
  let cond := ast_child a in
  b <- type_bool c a cond ;;
  match b with
  | None =>
      ast_error cond "condition must be a Bool" ;;
      ret false
  | Some _ =>
      ast_settype (nominal_builtin E (here c a) "None") ;;
      ret true
  end.

Definition expr_repeat (c : context) (a : ast) : M bool :=
  body <- deref (ast_child a) ;;
  let cond := ast_childidx a 1 in
  b <- type_bool c a cond ;;
  match b with
  | None =>
      ast_error cond "condition must be a Bool" ;;
      ret false
  | Some _ =>
      ast_settype (nominal_builtin E (here c a) "None") ;;
      ret true
  end.

Definition expr_continue (c : context) (a : ast) : M bool :=
  match ctx_enclosing_loop c with
  | None =>
      ast_error (Some a) "must be in a loop" ;;
      ret false
  | Some _ =>
      match ctx_sibling c with
      | Some _ =>
          ast_error (Some a) "must be the last expression in a sequence" ;;
          ast_error (ctx_sibling c) "is followed with this expression" ;;
          ret false
      | None =>
          ast_settype (nominal_builtin E (here c a) "None") ;;
          ret true
      end
  end.

Definition expr_return (c : context) (a : ast) : M bool :=
  body <- deref (ast_child a) ;;
  let type := ast_type body in
  match ctx_enclosing_method_body c with
  | None =>
      ast_error (Some a)
        "return must occur in a function or a behaviour body" ;;
      ret false
  | Some fn =>
      ok <- match ctx_sibling c with
            | Some _ =>
                ast_error (Some a)
                  "must be the last expression in a sequence" ;;
                ast_error (ctx_sibling c) "is followed with this expression" ;;
                ret false
            | None => ret true
            end ;;
      match ast_id fn with
      | TK_NEW =>
          ast_error (Some a) "cannot return in a constructor" ;;
          ret false
      | TK_BE =>
          let none := nominal_builtin E (here c a) "None" in
          if negb (is_subtype E (here c a) type none) then
            ast_error (Some body)
              "body of a return in a behaviour must have type None" ;;
            ret false
          else ret ok
      | TK_FUN =>
          result <- deref (ast_childidx fn 4) ;;
          let result := if is_tk result TK_NONE
                        then nominal_builtin E (here c a) "None"
                        else Some result in
          if negb (is_subtype E (here c a) type result) then
            ast_error (Some body)
              "body of return doesn't match the function return type" ;;
            ret false
          else ret ok
      | _ => crash
      end
  end.

Definition expr_assign (c : context) (a : ast) : M bool :=
  lhs <- deref (ast_child a) ;;
  rhs <- deref (ast_childidx a 1) ;;
  let l_type := ast_type lhs in
  let r_type := ast_type rhs in
  if negb (is_lvalue lhs) then
    ast_error (Some a)
      "left side must be something that can be assigned to" ;;
    ret false
  else if negb (is_subtype E (here c a) r_type l_type) then
    ast_error (Some a) "right side must be a subtype of left side" ;;
    ret false
  else
    ast_settype l_type ;;
    ret true.

Definition expr_consume (c : context) (a : ast) : M bool :=
  ast_error (Some a) "not implemented (consume)" ;;
  ret false.

Definition expr_error (c : context) (a : ast) : M bool :=
  match ctx_sibling c with
  | Some _ =>
      ast_error (Some a) "error must be the last expression in a sequence" ;;
      ast_error (ctx_sibling c) "error is followed with this expression" ;;
      ret false
  | None =>
      ast_settype (Some (ast_from a TK_ERROR)) ;;
      ret true
  end.

(** The [while(child != NULL)] loop of [expr_seq], on the pair
    [(can_error, type)]. *)
Definition seq_scan (sc : scope) (error : ast) (children : list ast)
    : bool * option ast :=
  fold_left
    (fun acc child =>
       let type := ast_type child in
       (fst acc || is_subtype E sc (Some error) type, type))
    children (false, None).

Definition expr_seq (c : context) (a : ast) : M bool :=
  let child := ast_child a in
  assert (match child with Some _ => true | None => false end) ;;
  let error := ast_from a TK_ERROR in
  let '(can_error, type) := seq_scan (here c a) error (ast_kids a) in
  type <- (if can_error : bool
           then u <- type_union c a type (Some error) ;; ret (Some u)
           else ret type) ;;
  ast_settype type ;;
  ret true.

(** The two calls that end [expr_fun], [ast_free_unattached(error)] and
    [ast_free_unattached(type)].  The marker [error] made by [ast_from] is
    in no tree, so the first call releases it.  [type] is the declared
    result (in the tree of the method), a fresh union (which then holds the
    marker) or, when [type_union] was called and the declared result is a
    subtype of the marker, the marker itself: only then the second call
    releases what the first has released. *)
Definition released_twice (type_is_marker : bool) : M unit :=
  if type_is_marker then crash else ret tt.

Definition expr_fun (c : context) (a : ast) : M bool :=
  type <- deref (ast_childidx a 4) ;;
  can_error <- deref (ast_childidx a 5) ;;
  body <- deref (ast_childidx a 6) ;;
  if is_tk body TK_NONE then ret true
  else
    def <- deref (ctx_enclosing_type c) ;;
    let is_trait := is_tk def TK_TRAIT in
    body_type <- deref (ast_type body) ;;
    if is_tk body_type TK_ERROR then
      let last := ast_childlast body in
      ast_error (Some type) "function body always results in an error" ;;
      ast_error last "function body expression is here" ;;
      ret false
    else
      let error := ast_from a TK_ERROR in
      let ok := true in
      ok <- (if is_tk can_error TK_QUESTION then
               if negb is_trait
                  && negb (is_subtype E (here c a) (Some error) (Some body_type))
               then
                 ast_error (Some can_error)
                   "function body is not partial but the function is" ;;
                 ret false
               else ret ok
             else
               if is_subtype E (here c a) (Some error) (Some body_type) then
                 ast_error (Some can_error)
                   "function body is partial but the function is not" ;;
                 ret false
               else ret ok) ;;
      if negb (is_tk type TK_NONE) then
        let declared := type in
        type <- (if is_tk can_error TK_QUESTION
                 then type_union c a (Some type) (Some error)
                 else ret type) ;;
        ok <- (if negb (is_subtype E (here c a) (Some body_type) (Some type))
               then
                 let last := ast_childlast body in
                 ast_error (Some type)
                   "function body isn't a subtype of the result type" ;;
                 ast_error last "function body expression is here" ;;
                 ret false
               else ret ok) ;;
        ok <- (if negb is_trait
                  && negb (is_eqtype E (here c a) (Some body_type) (Some type))
               then
                 let last := ast_childlast body in
                 ast_error (Some type)
                   "function body is more specific than the result type" ;;
                 ast_error last "function body expression is here" ;;
                 ret false
               else ret ok) ;;
        released_twice (is_tk can_error TK_QUESTION
                        && is_subtype E (here c a) (Some declared)
                             (Some error)) ;;
        ret ok
      else ret ok.

Definition fatal_unless (m : M bool) : M ast_result_t :=
  ok <- m ;;
  if ok : bool then ret AST_OK else ret AST_FATAL.

Definition not_implemented (a : ast) (msg : string) : M ast_result_t :=
  ast_error (Some a) msg ;;
  ret AST_FATAL.

Definition type_expr (c : context) (a : ast) : M ast_result_t :=
  match ast_id a with
  | TK_FVAR | TK_FLET | TK_PARAM => fatal_unless (expr_field c a)
  | TK_NEW => fatal_unless (expr_fun c a)
  | TK_BE | TK_FUN => fatal_unless (expr_fun c a)
  | TK_SEQ => fatal_unless (expr_seq c a)
  | TK_VAR | TK_LET => not_implemented a "not implemented (local)"
  | TK_CONTINUE | TK_BREAK => fatal_unless (expr_continue c a)
  | TK_RETURN => fatal_unless (expr_return c a)
  | TK_MULTIPLY | TK_DIVIDE | TK_MOD | TK_PLUS =>
      fatal_unless (expr_arithmetic c a)
  | TK_MINUS => fatal_unless (expr_minus c a)
  | TK_LSHIFT | TK_RSHIFT => fatal_unless (expr_shift c a)
  | TK_LT | TK_LE | TK_GE | TK_GT => fatal_unless (expr_order c a)
  | TK_EQ | TK_NE => fatal_unless (expr_compare c a)
  | TK_IS | TK_ISNT => fatal_unless (expr_identity c a)
  | TK_AND | TK_XOR | TK_OR => fatal_unless (expr_logical c a)
  | TK_NOT => fatal_unless (expr_not c a)
  | TK_ASSIGN => fatal_unless (expr_assign c a)
  | TK_CONSUME => fatal_unless (expr_consume c a)
  | TK_DOT => fatal_unless (expr_dot c a)
  | TK_QUALIFY => fatal_unless (expr_qualify c a)
  | TK_CALL => fatal_unless (expr_call c a)
  | TK_IF => fatal_unless (expr_if c a)
  | TK_WHILE => fatal_unless (expr_while c a)
  | TK_REPEAT => fatal_unless (expr_repeat c a)
  | TK_FOR => not_implemented a "not implemented (for)"
  | TK_TRY => not_implemented a "not implemented (try)"
  | TK_TUPLE => fatal_unless (expr_tuple c a)
  | TK_ARRAY => not_implemented a "not implemented (array)"
  | TK_OBJECT => not_implemented a "not implemented (object)"
  | TK_REFERENCE => fatal_unless (expr_reference c a)
  | TK_THIS => fatal_unless (expr_this c a)
  | TK_INT => fatal_unless (expr_literal c a "IntLiteral")
  | TK_FLOAT => fatal_unless (expr_literal c a "FloatLiteral")
  | TK_STRING => fatal_unless (expr_literal c a "String")
  | TK_ERROR => fatal_unless (expr_error c a)
  | _ => ret AST_OK
  end.

End Pass.

(** ** A small instance of the collaborators

    Nominal types are compared by name, [IntLiteral] is below [Integer] and
    [Arithmetic], [FloatLiteral] below [Arithmetic], a type is below a union
    that lists it, and nothing is related to an absent type.  Source
    positions are ignored by the comparison. *)

Module Simple.

Definition token_eqb (a b : token_id) : bool :=
  if token_eq_dec a b then true else false.

Fixpoint same_type (a b : ast) : bool :=
  match a, b with
  | Node ia _ _ na _ _ ka, Node ib _ _ nb _ _ kb =>
      token_eqb ia ib && String.eqb na nb &&
      (fix all2 (xs ys : list ast) : bool :=
         match xs, ys with
         | [], [] => true
         | x :: xs', y :: ys' => same_type x y && all2 xs' ys'
         | _, _ => false
         end) ka kb
  end.

Definition nominal (at_node : ast) (name : string) : ast :=
  Node TK_NOMINAL (ast_line at_node) (ast_pos at_node) name 0 None [].

Definition name_below (sub super : string) : bool :=
  (String.eqb sub "IntLiteral"
     && (String.eqb super "Integer" || String.eqb super "Arithmetic"))
  || (String.eqb sub "FloatLiteral" && String.eqb super "Arithmetic").

Definition below (sub super : option ast) : bool :=
  match sub, super with
  | Some s, Some t =>
      same_type s t
      || (token_eqb (ast_id s) TK_NOMINAL && token_eqb (ast_id t) TK_NOMINAL
            && name_below (ast_name s) (ast_name t))
      || (token_eqb (ast_id t) TK_UNIONTYPE && existsb (same_type s) (ast_kids t))
  | _, _ => false
  end.

Definition engine : collaborators :=
  {| is_subtype := fun _ => below;
     is_eqtype := fun _ a b => below a b && below b a;
     nominal_builtin := fun sc name => Some (nominal (scope_at sc) name);
     nominal_type := fun sc _ name => Some (nominal (scope_at sc) name);
     cap_for_receiver := fun _ => TK_OTHER 0;
     cap_for_fun := fun _ => TK_OTHER 0;
     is_cap_sub_cap := token_eqb;
     ast_get := fun _ _ => None |}.

(** A node at line 1 with no payload and no type. *)
Definition node (id : token_id) (col : nat) (kids : list ast) : ast :=
  Node id 1 col "" 0 None kids.

Definition typed (a : ast) (t : ast) : ast := with_type a (Some t).

Definition top : context := Context None None None None None.

Definition start : pass_state := PassState None [].

End Simple.

(** ** Right-cons tuple spines *)

(** [spine_of t es]: [t] is the [TK_TUPLETYPE] spine [(e1, (e2, (... en)))]
    of the elements [es], [n >= 2]; the last element is the second child of
    the innermost node. *)
Inductive spine_of : ast -> list ast -> Prop :=
| spine_two t a b :
    ast_id t = TK_TUPLETYPE -> ast_kids t = [a; b] -> spine_of t [a; b]
| spine_cons t a t' es :
    ast_id t = TK_TUPLETYPE -> ast_kids t = [a; t'] -> spine_of t' es ->
    spine_of t (a :: es).

(** ** The walker

    Modelled from the spec: the traversal that calls [type_expr] once per
    node, children first, the enclosing-of-kind queries and the scope lookup
    are not part of expr.c.  The walker visits the nodes of the tree in
    post-order; the context of a node is read off the path to it; a name
    resolves, through the bindings left by name resolution, to a definition
    node of the tree as it is at the time of the lookup. *)

Module Walk.

(** Modelled from the spec: a node of the tree is named by the child indices
    that lead to it from the root. *)
Definition path : Type := list nat.

Fixpoint subtree (root : ast) (p : path) : option ast :=
  match p with
  | [] => Some root
  | i :: p' =>
      match nth_error (ast_kids root) i with
      | Some k => subtree k p'
      | None => None
      end
  end.

Fixpoint update_nth {A} (i : nat) (f : A -> A) (l : list A) : list A :=
  match l, i with
  | [], _ => []
  | x :: l', O => f x :: l'
  | x :: l', S j => x :: update_nth j f l'
  end.

Fixpoint set_slot_at (p : path) (t : option ast) (root : ast) : ast :=
  match p with
  | [] => with_type root t
  | i :: p' =>
      Node (ast_id root) (ast_line root) (ast_pos root) (ast_name root)
           (ast_int root) (ast_type root)
           (update_nth i (set_slot_at p' t) (ast_kids root))
  end.

(** Modelled from the spec: the order of the traversal, which is missing
    from the sources: children first, left to right, then the node. *)
Fixpoint postorder (a : ast) : list path :=
  match a with
  | Node _ _ _ _ _ _ kids =>
      ((fix each (i : nat) (ks : list ast) : list path :=
          match ks with
          | [] => []
          | k :: ks' => map (cons i) (postorder k) ++ each (S i) ks'
          end) 0 kids ++ [[]])%list
  end.

Definition is_type_decl (a : ast) : bool :=
  match ast_id a with
  | TK_TYPE | TK_CLASS | TK_ACTOR | TK_TRAIT => true
  | _ => false
  end.

Definition is_loop (a : ast) : bool :=
  match ast_id a with
  | TK_WHILE | TK_REPEAT | TK_FOR => true
  | _ => false
  end.

Definition is_method (a : ast) : bool :=
  match ast_id a with
  | TK_NEW | TK_BE | TK_FUN => true
  | _ => false
  end.

(** Modelled from the spec: parent, next sibling and the enclosing-of-kind
    queries (type declaration, loop, method body) of ast.c, read off the
    path from the root. *)
Fixpoint context_from (c : context) (a : ast) (p : path) : context :=
  match p with
  | [] => c
  | i :: p' =>
      match nth_error (ast_kids a) i with
      | Some k =>
          context_from
            (Context (Some a) (nth_error (ast_kids a) (S i))
               (if is_type_decl a then Some a else ctx_enclosing_type c)
               (if is_loop a then Some a else ctx_enclosing_loop c)
               (if is_method a then Some a
                else ctx_enclosing_method_body c))
            k p'
      | None => c
      end
  end.

(** Modelled from the spec: [ast_get] of ast.c, the scope lookup.  The name
    resolves to a node of the tree, the one the code then reads with
    [ast_type(def)]. *)
Definition engine_at (E : collaborators) (bindings : string -> option path)
    (root : ast) : collaborators :=
  {| is_subtype := is_subtype E;
     is_eqtype := is_eqtype E;
     nominal_builtin := nominal_builtin E;
     nominal_type := nominal_type E;
     cap_for_receiver := cap_for_receiver E;
     cap_for_fun := cap_for_fun E;
     is_cap_sub_cap := is_cap_sub_cap E;
     ast_get := fun _ name =>
                  match bindings name with
                  | Some p => subtree root p
                  | None => None
                  end |}.

(** Modelled from the spec: the per-node callback of the walker, which calls
    [type_expr] on the node as it is in the tree and stores the type slot
    back. *)
Definition visit (E : collaborators) (bindings : string -> option path)
    (top : context) (root : ast) (p : path)
    : option (ast * (ast_result_t * list diagnostic)) :=
  match subtree root p with
  | Some a =>
      match type_expr (engine_at E bindings root) (context_from top root p) a
              (PassState (ast_type a) []) with
      | Some (r, st) => Some (set_slot_at p (slot st) root, (r, errors st))
      | None => None
      end
  | None => None
  end.

(** Modelled from the spec: the walker, which is missing from the sources;
    it visits the given nodes in order and records what each visit returned
    and emitted. *)
Fixpoint walk (E : collaborators) (bindings : string -> option path)
    (top : context) (ps : list path) (root : ast)
    : option (ast * list (ast_result_t * list diagnostic)) :=
  match ps with
  | [] => Some (root, [])
  | p :: ps' =>
      match visit E bindings top root p with
      | Some (root', entry) =>
          match walk E bindings top ps' root' with
          | Some (root'', log) => Some (root'', entry :: log)
          | None => None
          end
      | None => None
      end
  end.

(** Modelled from the spec: one run of the pass over a tree. *)
Definition run (E : collaborators) (bindings : string -> option path)
    (top : context) (root : ast)
    : option (ast * list (ast_result_t * list diagnostic)) :=
  walk E bindings top (postorder root) root.

(** Every visit returned [AST_OK] and emitted nothing. *)
Definition accepted (log : list (ast_result_t * list diagnostic)) : bool :=
  forallb (fun entry =>
             match entry with
             | (AST_OK, []) => true
             | _ => false
             end) log.

Definition type_at (root : ast) (p : path) : option (option ast) :=
  option_map ast_type (subtree root p).

End Walk.


(** ** Concrete trees *)

Module Examples.

Import Simple.

Definition type_named (name : string) : ast :=
  Node TK_NOMINAL 1 1 name 0 None [].

(** A literal as the pass leaves it: typed with its builtin nominal. *)
Definition int_lit (col : nat) (v : Z) : ast :=
  let n := Node TK_INT 1 col "" v None [] in
  typed n (nominal n "IntLiteral").

Definition str_lit (col : nat) : ast :=
  let n := Node TK_STRING 1 col "" 0 None [] in
  typed n (nominal n "String").

Definition error_marker : ast := Node TK_ERROR 1 1 "" 0 None [].

(** [t.i] for [t : (IntLiteral, String)]. *)
Definition pair_type : ast :=
  Node TK_TUPLETYPE 1 1 "" 0 None
    [type_named "IntLiteral"; type_named "String"].

Definition pair_ref : ast :=
  typed (node TK_REFERENCE 1 [Node TK_ID 1 1 "t" 0 None []]) pair_type.

Definition dot_at (v : Z) : ast :=
  node TK_DOT 2 [pair_ref; int_lit 3 v].

(** [(1, "a", 2)]. *)
Definition triple : ast :=
  node TK_TUPLE 1 [int_lit 2 1; str_lit 5; int_lit 10 2].

(** ["a" == "b"]. *)
Definition string_eq : ast :=
  node TK_EQ 5 [str_lit 1; str_lit 8].

(** [if c then 1 else "x"] with [c : Bool]. *)
Definition bool_cond : ast :=
  typed (node TK_REFERENCE 4 [Node TK_ID 1 4 "c" 0 None []])
    (type_named "Bool").

Definition if_int_string : ast :=
  node TK_IF 1 [bool_cond; int_lit 11 1; str_lit 18].

(** [s = "x"] with [s : String]. *)
Definition string_ref : ast :=
  typed (node TK_REFERENCE 1 [Node TK_ID 1 1 "s" 0 None []])
    (type_named "String").

Definition assign_string : ast :=
  node TK_ASSIGN 3 [string_ref; str_lit 5].

(** The expression [error] as [expr_error] leaves it. *)
Definition error_expr (col : nat) : ast :=
  let n := Node TK_ERROR 1 col "" 0 None [] in
  typed n (ast_from n TK_ERROR).

(** [if c then 1 else error], typed [IntLiteral | ERROR] as [expr_if]
    leaves it. *)
Definition if_int_error : ast :=
  node TK_IF 1 [bool_cond; int_lit 11 1; error_expr 18].

Definition may_error_type : ast :=
  Node TK_UNIONTYPE 1 1 "" 0 None
    [nominal (int_lit 11 1) "IntLiteral"; Node TK_ERROR 1 18 "" 0 None []].

Definition may_error_child : ast := typed if_int_error may_error_type.

Definition seq_may_error_then_int : ast :=
  node TK_SEQ 1 [may_error_child; int_lit 20 1].

Definition seq_may_error_last : ast :=
  node TK_SEQ 1 [may_error_child].

Definition seq_int_then_error : ast :=
  node TK_SEQ 1 [int_lit 1 1; error_expr 4].

(** [fun f(): IntLiteral => 1] in a class. *)
Definition class_decl : ast :=
  node TK_CLASS 1 [Node TK_ID 1 7 "C" 0 None []; node TK_NONE 8 []].

Definition in_class : context :=
  Context None None (Some class_decl) None None.

Definition fun_body : ast :=
  typed (node TK_SEQ 30 [int_lit 30 1]) (nominal (int_lit 30 1) "IntLiteral").

Definition fun_decl : ast :=
  node TK_FUN 3
    [node TK_NONE 3 []; Node TK_ID 1 7 "f" 0 None []; node TK_NONE 8 [];
     node TK_NONE 9 []; type_named "IntLiteral"; node TK_NONE 25 [];
     fun_body].

(** [1 + "a"]. *)
Definition plus_int_string : ast :=
  node TK_PLUS 3 [int_lit 1 1; str_lit 5].

Definition plus_int_string_rejected : pass_state :=
  PassState None
    [Diag 1 3 "left and right side must have related arithmetic types"].

(** [return x] with [x : None], last in the body of a behaviour. *)
Definition none_ref : ast :=
  typed (node TK_REFERENCE 8 [Node TK_ID 1 8 "x" 0 None []])
    (type_named "None").

Definition return_none : ast := node TK_RETURN 1 [none_ref].

Definition in_behaviour : context :=
  Context None None (Some class_decl) None
    (Some (node TK_BE 1 [])).

(** [p.T]: the reference to the package [p] on the left of a dot. *)
Definition package_decl : ast := Node TK_PACKAGE 1 1 "p" 0 None [].

Definition package_ref : ast :=
  node TK_REFERENCE 1 [Node TK_ID 1 1 "p" 0 None []].

Definition under_dot : context :=
  Context
    (Some (node TK_DOT 2 [package_ref; Node TK_ID 1 3 "T" 0 None []]))
    (Some (Node TK_ID 1 3 "T" 0 None [])) None None None.

Definition engine_with_package : collaborators :=
  {| is_subtype := is_subtype engine;
     is_eqtype := is_eqtype engine;
     nominal_builtin := nominal_builtin engine;
     nominal_type := nominal_type engine;
     cap_for_receiver := cap_for_receiver engine;
     cap_for_fun := cap_for_fun engine;
     is_cap_sub_cap := is_cap_sub_cap engine;
     ast_get := fun _ name =>
                  if String.eqb name "p" then Some package_decl else None |}.

(** [var x = while 1 == 1 do x end]: a field whose initialiser mentions the
    field itself.  The name [x] is bound to the field, the root of the
    tree. *)
Definition self_reference : ast :=
  node TK_FVAR 1
    [Node TK_ID 1 5 "x" 0 None [];
     node TK_NONE 6 [];
     node TK_WHILE 9
       [node TK_EQ 17
          [Node TK_INT 1 15 "" 1 None []; Node TK_INT 1 20 "" 1 None []];
        node TK_REFERENCE 25 [Node TK_ID 1 25 "x" 0 None []]]].

Definition bindings (name : string) : option Walk.path :=
  if String.eqb name "x" then Some [] else None.

Definition reference_path : Walk.path := [2; 1].

(** The tree after one run of the walker and after two. *)
Definition run_of (root : ast) : ast :=
  match Walk.run engine bindings top root with
  | Some (root', _) => root'
  | None => root
  end.

Definition once : ast := Eval vm_compute in run_of self_reference.

Definition twice : ast := Eval vm_compute in run_of once.

Definition all_accepted (n : nat) : list (ast_result_t * list diagnostic) :=
  repeat (AST_OK, []) n.


(** The small engine with [name] bound to [def] in every scope. *)
Definition engine_with (name : string) (def : ast) : collaborators :=
  {| is_subtype := is_subtype engine;
     is_eqtype := is_eqtype engine;
     nominal_builtin := nominal_builtin engine;
     nominal_type := nominal_type engine;
     cap_for_receiver := cap_for_receiver engine;
     cap_for_fun := cap_for_fun engine;
     is_cap_sub_cap := is_cap_sub_cap engine;
     ast_get := fun _ n => if String.eqb n name then Some def else None |}.

(** The small engine without builtin types. *)
Definition engine_without_builtins : collaborators :=
  {| is_subtype := is_subtype engine;
     is_eqtype := is_eqtype engine;
     nominal_builtin := fun _ _ => None;
     nominal_type := nominal_type engine;
     cap_for_receiver := cap_for_receiver engine;
     cap_for_fun := cap_for_fun engine;
     is_cap_sub_cap := is_cap_sub_cap engine;
     ast_get := ast_get engine |}.

(** [(1, t)] with [t : (IntLiteral, String)]. *)
Definition nested_tuple : ast :=
  node TK_TUPLE 1 [int_lit 2 1; pair_ref].

(** [var x: String = "a"] as the pass leaves it, and a later use of [x]. *)
Definition field_decl : ast :=
  typed (node TK_FVAR 1
           [Node TK_ID 1 5 "x" 0 None []; type_named "String"; str_lit 20])
    (type_named "String").

Definition field_ref : ast :=
  node TK_REFERENCE 30 [Node TK_ID 1 30 "x" 0 None []].

(** [fun g(x: String): IntLiteral], without a body, a reference to it and
    a call of a node typed [fn]. *)
Definition method_decl : ast :=
  node TK_FUN 3
    [node TK_NONE 3 []; Node TK_ID 1 7 "g" 0 None []; node TK_NONE 8 [];
     node TK_PARAMS 9
       [node TK_PARAM 10
          [Node TK_ID 1 10 "x" 0 None []; type_named "String";
           node TK_NONE 19 []]];
     type_named "IntLiteral"; node TK_NONE 33 []; node TK_NONE 34 []].

Definition method_ref : ast :=
  node TK_REFERENCE 1 [Node TK_ID 1 1 "g" 0 None []].

Definition call_of (fn : ast) : ast :=
  node TK_CALL 2 [typed method_ref fn].

(** A trait and a reference to it. *)
Definition trait_decl : ast :=
  node TK_TRAIT 1 [Node TK_ID 1 7 "T" 0 None []; node TK_NONE 8 []].

Definition trait_ref : ast :=
  node TK_REFERENCE 1 [Node TK_ID 1 1 "T" 0 None []].

(** [this] inside [class G[A]]. *)
Definition generic_class : ast :=
  node TK_CLASS 1
    [Node TK_ID 1 7 "G" 0 None [];
     node TK_TYPEPARAMS 8
       [node (TK_OTHER 1) 9 [Node TK_ID 1 9 "A" 0 None []]]].

Definition in_generic_class : context :=
  Context None None (Some generic_class) None None.

Definition this_expr : ast := node TK_THIS 20 [].

(** A reference to an unbound name. *)
Definition unbound_ref : ast :=
  node TK_REFERENCE 1 [Node TK_ID 1 1 "y" 0 None []].

(** [p.T], the left side named [p], with [p] a package that holds [T]. *)
Definition engine_with_type_in_package : collaborators :=
  {| is_subtype := is_subtype engine;
     is_eqtype := is_eqtype engine;
     nominal_builtin := nominal_builtin engine;
     nominal_type := nominal_type engine;
     cap_for_receiver := cap_for_receiver engine;
     cap_for_fun := cap_for_fun engine;
     is_cap_sub_cap := is_cap_sub_cap engine;
     ast_get := fun _ name =>
                  if String.eqb name "p" then Some package_decl
                  else if String.eqb name "T" then Some class_decl
                  else None |}.

Definition package_prefix : ast :=
  Node TK_REFERENCE 1 1 "p" 0 None [Node TK_ID 1 1 "p" 0 None []].

Definition dot_package_type : ast :=
  node TK_DOT 2 [package_prefix; Node TK_ID 1 3 "T" 0 None []].

(** [s.size] with [s : String]. *)
Definition dot_member : ast :=
  node TK_DOT 2 [string_ref; Node TK_ID 1 3 "size" 0 None []].

(** [1 + 2], [-1], [1 << 2], ["a" is "b"], [not c], [while c do 1 end]. *)
Definition plus_ints : ast := node TK_PLUS 3 [int_lit 1 1; int_lit 5 2].

Definition minus_int : ast := node TK_MINUS 1 [int_lit 2 1].

Definition shift_ints : ast := node TK_LSHIFT 3 [int_lit 1 1; int_lit 6 2].

Definition string_is : ast := node TK_IS 5 [str_lit 1; str_lit 8].

Definition not_bool : ast := node TK_NOT 1 [bool_cond].

Definition while_loop : ast := node TK_WHILE 1 [bool_cond; int_lit 12 1].

(** [continue], last in the body of a loop; [error] followed by [1]. *)
Definition in_loop : context :=
  Context None None None (Some while_loop) None.

Definition continue_expr : ast := node TK_CONTINUE 12 [].

Definition before_int : context :=
  Context None (Some (int_lit 10 1)) None None None.

(** [t()] with [t : (IntLiteral, String)]. *)
Definition call_tuple : ast := node TK_CALL 2 [pair_ref].

(** [1 and "a"]. *)
Definition and_int_string : ast := node TK_AND 3 [int_lit 1 1; str_lit 7].

(** [fun f(): T ? => 1] in a class, with the declared result below the
    marker. *)
Definition partial_fun_decl : ast :=
  node TK_FUN 3
    [node TK_NONE 3 []; Node TK_ID 1 7 "f" 0 None []; node TK_NONE 8 [];
     node TK_NONE 9 []; error_marker; node TK_QUESTION 25 [];
     fun_body].

(** [var x: String = "a"; x]: a field and, after it, a use of the field.
    The name [x] is bound to the field, the first child of the
    sequence. *)
Definition field_then_use : ast :=
  node TK_SEQ 1
    [node TK_FVAR 1
       [Node TK_ID 1 5 "x" 0 None []; type_named "String"; str_lit 20];
     field_ref].

Definition field_bindings (name : string) : option Walk.path :=
  if String.eqb name "x" then Some [0] else None.

(** The tree after one run of the walker. *)
Definition field_then_use_once : ast :=
  Eval vm_compute in
    match Walk.run engine field_bindings top field_then_use with
    | Some (root', _) => root'
    | None => field_then_use
    end.


End Examples.


(** ** Kinds the dispatcher sends to a component *)

Definition dispatched (id : token_id) : bool :=
  match id with
  | TK_FVAR | TK_FLET | TK_PARAM | TK_NEW | TK_BE | TK_FUN | TK_SEQ
  | TK_VAR | TK_LET | TK_CONTINUE | TK_BREAK | TK_RETURN
  | TK_MULTIPLY | TK_DIVIDE | TK_MOD | TK_PLUS | TK_MINUS
  | TK_LSHIFT | TK_RSHIFT | TK_LT | TK_LE | TK_GE | TK_GT | TK_EQ | TK_NE
  | TK_IS | TK_ISNT | TK_AND | TK_XOR | TK_OR | TK_NOT
  | TK_ASSIGN | TK_CONSUME | TK_DOT | TK_QUALIFY | TK_CALL
  | TK_IF | TK_WHILE | TK_REPEAT | TK_FOR | TK_TRY
  | TK_TUPLE | TK_ARRAY | TK_OBJECT | TK_REFERENCE | TK_THIS
  | TK_INT | TK_FLOAT | TK_STRING | TK_ERROR => true
  | _ => false
  end.

(** The pointers that the visit of the node attaches or looks up are
    present.  Which ones the visit uses depends on the kind of the node: a
    literal, a comparison, an identity test, a loop and a [continue] attach
    the one builtin they ask [nominal_builtin] for; a [TK_REFERENCE] to a
    type attaches [nominal_type] of the type's name and one to a field the
    field's type, and a reference does not resolve to a package; a [TK_DOT]
    with an identifier on the right and an untyped left side finds its
    package and attaches [nominal_type] of the two names; a field without a
    declared type, a [TK_SEQ], a one-element [TK_TUPLE], a [TK_ASSIGN] and a
    [TK_CALL] attach the type of a child, or of a child's type, which is
    there.  Nothing is asked of the collaborators on other names. *)
Definition inputs_present (E : collaborators) (c : context) (a : ast) : Prop :=
  match ast_id a with
  | TK_INT => nominal_builtin E (here c a) "IntLiteral" <> None
  | TK_FLOAT => nominal_builtin E (here c a) "FloatLiteral" <> None
  | TK_STRING => nominal_builtin E (here c a) "String" <> None
  | TK_EQ | TK_NE | TK_LT | TK_LE | TK_GE | TK_GT | TK_IS | TK_ISNT =>
      nominal_builtin E (here c a) "Bool" <> None
  | TK_WHILE | TK_REPEAT | TK_CONTINUE | TK_BREAK =>
      nominal_builtin E (here c a) "None" <> None
  | TK_FVAR | TK_FLET | TK_PARAM =>
      forall type init,
        ast_childidx a 1 = Some type -> ast_id type = TK_NONE ->
        ast_childidx a 2 = Some init -> ast_type init <> None
  | TK_SEQ =>
      forall child, ast_childlast a = Some child -> ast_type child <> None
  | TK_TUPLE =>
      forall child, ast_kids a = [child] -> ast_type child <> None
  | TK_ASSIGN =>
      forall lhs, ast_child a = Some lhs -> ast_type lhs <> None
  | TK_CALL =>
      forall lhs t,
        ast_child a = Some lhs -> ast_type lhs = Some t ->
        ast_childidx t 4 <> None
  | TK_REFERENCE =>
      forall id def,
        ast_child a = Some id ->
        ast_get E (here c a) (ast_name id) = Some def ->
        ast_id def <> TK_PACKAGE /\
        (In (ast_id def) [TK_FVAR; TK_FLET; TK_PARAM] ->
         ast_type def <> None) /\
        (In (ast_id def) [TK_TYPE; TK_CLASS; TK_ACTOR] ->
         forall def_id,
           ast_child def = Some def_id ->
           nominal_type E (here c a) None (ast_name def_id) <> None)
  | TK_DOT =>
      forall lhs rhs,
        ast_child a = Some lhs -> ast_childidx a 1 = Some rhs ->
        ast_id rhs = TK_ID -> ast_type lhs = None ->
        ast_get E (Scope c a lhs) (ast_name lhs) <> None /\
        nominal_type E (here c a) (Some (ast_name lhs)) (ast_name rhs)
          <> None
  | _ => True
  end.

(** The pointers that the visit of a node copies into the node's type slot,
    kind by kind: a child's type, a declared type, the type of the
    definition a name resolves to, a part of a child's type (the result of
    a method type, an element of a tuple type), or what a nominal
    constructor returns.  Every other type the pass attaches is a node it
    makes itself. *)
Definition type_sources (E : collaborators) (c : context) (a : ast) (t : ast)
    : Prop :=
  match ast_id a with
  | TK_FVAR | TK_FLET | TK_PARAM =>
      ast_childidx a 1 = Some t \/
      exists init, ast_childidx a 2 = Some init /\ ast_type init = Some t
  | TK_SEQ =>
      exists child, ast_childlast a = Some child /\ ast_type child = Some t
  | TK_TUPLE =>
      exists child, ast_kids a = [child] /\ ast_type child = Some t
  | TK_MULTIPLY | TK_DIVIDE | TK_MOD | TK_PLUS | TK_MINUS
  | TK_LSHIFT | TK_RSHIFT | TK_AND | TK_XOR | TK_OR | TK_NOT =>
      exists operand,
        In operand (firstn 2 (ast_kids a)) /\ ast_type operand = Some t
  | TK_ASSIGN =>
      exists lhs, ast_child a = Some lhs /\ ast_type lhs = Some t
  | TK_IF =>
      (exists branch,
          (ast_childidx a 1 = Some branch \/ ast_childidx a 2 = Some branch)
          /\ ast_type branch = Some t) \/
      nominal_builtin E (here c a) "None" = Some t
  | TK_WHILE | TK_REPEAT | TK_CONTINUE | TK_BREAK =>
      nominal_builtin E (here c a) "None" = Some t
  | TK_EQ | TK_NE | TK_LT | TK_LE | TK_GE | TK_GT | TK_IS | TK_ISNT =>
      nominal_builtin E (here c a) "Bool" = Some t
  | TK_INT => nominal_builtin E (here c a) "IntLiteral" = Some t
  | TK_FLOAT => nominal_builtin E (here c a) "FloatLiteral" = Some t
  | TK_STRING => nominal_builtin E (here c a) "String" = Some t
  | TK_REFERENCE =>
      exists id def,
        ast_child a = Some id /\
        ast_get E (here c a) (ast_name id) = Some def /\
        (ast_type def = Some t \/
         exists def_id,
           ast_child def = Some def_id /\
           nominal_type E (here c a) None (ast_name def_id) = Some t)
  | TK_DOT =>
      exists lhs rhs,
        ast_child a = Some lhs /\ ast_childidx a 1 = Some rhs /\
        (nominal_type E (here c a) (Some (ast_name lhs)) (ast_name rhs)
         = Some t \/
         exists tuple,
           ast_type lhs = Some tuple /\
           tuple_index tuple (to_int (ast_int rhs)) = Some (Some t))
  | TK_CALL =>
      exists lhs fn,
        ast_child a = Some lhs /\ ast_type lhs = Some fn /\
        ast_childidx fn 4 = Some t
  | _ => False
  end.

(** What a component leaves behind: accepted with a type and no diagnostic,
    or rejected with a diagnostic and the slot untouched. *)
Definition leaves_type_or_diagnostic (st : pass_state) (accepted : bool)
    (st' : pass_state) : Prop :=
  (accepted = true -> slot st' <> None /\ errors st' = errors st) /\
  (accepted = false ->
   List.length (errors st) < List.length (errors st') /\ slot st' = slot st).


(** ** Running the pass again *)

(** The node with every type slot in it emptied: the tree as the parser
    left it. *)
Fixpoint strip (a : ast) : ast :=
  match a with
  | Node id l p n i _ kids => Node id l p n i None (map strip kids)
  end.

Definition strip_ctx (c : context) : context :=
  Context (option_map strip (ctx_parent c)) (option_map strip (ctx_sibling c))
    (option_map strip (ctx_enclosing_type c))
    (option_map strip (ctx_enclosing_loop c))
    (option_map strip (ctx_enclosing_method_body c)).

Definition strip_scope (sc : scope) : scope :=
  Scope (strip_ctx (scope_ctx sc)) (strip (scope_visited sc))
    (strip (scope_at sc)).

(** The collaborators, shown only the parsed shape of the nodes and types
    they are handed. *)
Definition on_shapes (E : collaborators) : collaborators :=
  {| is_subtype := fun sc l r =>
       is_subtype E (strip_scope sc) (option_map strip l) (option_map strip r);
     is_eqtype := fun sc l r =>
       is_eqtype E (strip_scope sc) (option_map strip l) (option_map strip r);
     nominal_builtin := fun sc => nominal_builtin E (strip_scope sc);
     nominal_type := fun sc => nominal_type E (strip_scope sc);
     cap_for_receiver := fun sc => cap_for_receiver E (strip_scope sc);
     cap_for_fun := fun t => cap_for_fun E (strip t);
     is_cap_sub_cap := is_cap_sub_cap E;
     ast_get := ast_get E |}.

(** Collaborators whose answers do not depend on the type slots inside the
    nodes and types they are handed: a type is compared as the type
    expression it is, and a scope is used for the declarations and the
    source position it gives.  The scope lookup is not constrained: it is
    the one collaborator that hands out nodes of the tree, slots
    included. *)
Definition shape_blind (E : collaborators) : Prop :=
  (forall sc l r, is_subtype E sc l r = is_subtype (on_shapes E) sc l r) /\
  (forall sc l r, is_eqtype E sc l r = is_eqtype (on_shapes E) sc l r) /\
  (forall sc name,
      nominal_builtin E sc name = nominal_builtin (on_shapes E) sc name) /\
  (forall sc pkg name,
      nominal_type E sc pkg name = nominal_type (on_shapes E) sc pkg name) /\
  (forall sc, cap_for_receiver E sc = cap_for_receiver (on_shapes E) sc) /\
  (forall t, cap_for_fun E t = cap_for_fun (on_shapes E) t).

(** The collaborators with the scope lookup replaced by [g], and the lookup
    of the walker as such a [g]. *)
Definition with_lookup (E : collaborators) (g : string -> option ast)
    : collaborators :=
  {| is_subtype := is_subtype E;
     is_eqtype := is_eqtype E;
     nominal_builtin := nominal_builtin E;
     nominal_type := nominal_type E;
     cap_for_receiver := cap_for_receiver E;
     cap_for_fun := cap_for_fun E;
     is_cap_sub_cap := is_cap_sub_cap E;
     ast_get := fun _ name => g name |}.

Definition lookup_in (bindings : string -> option Walk.path) (root : ast)
    (name : string) : option ast :=
  match bindings name with
  | Some p => Walk.subtree root p
  | None => None
  end.

(** What a visit can depend on.  Of the visited node: everything but its
    own slot, with the slots of its children kept up to the slots inside
    them and everything below the children reduced to its shape.  Of a
    definition found by lookup: its shape, and for a field or parameter the
    type in its slot.  A [TK_REFERENCE] looks up the name of its first
    child and nothing else. *)
Definition canon_child (k : ast) : ast :=
  with_type (strip k) (option_map strip (ast_type k)).

Definition canon (a : ast) : ast :=
  Node (ast_id a) (ast_line a) (ast_pos a) (ast_name a) (ast_int a) None
    (map canon_child (ast_kids a)).

Definition is_field (def : ast) : bool :=
  match ast_id def with
  | TK_FVAR | TK_FLET | TK_PARAM => true
  | _ => false
  end.

Definition field_view (def : ast) : ast :=
  with_type (strip def)
    (if is_field def then option_map strip (ast_type def) else None).

Definition canon_lookup (a : ast) (g : string -> option ast)
    : string -> option ast :=
  fun name =>
    match ast_id a with
    | TK_REFERENCE =>
        match ast_child a with
        | Some id =>
            if String.eqb name (ast_name id)
            then option_map field_view (g name)
            else None
        | None => None
        end
    | _ => option_map strip (g name)
    end.

(** The outcome of a computation, with the type left in the slot taken up
    to the slots inside it. *)
Definition strip_slot {A} (r : option (A * pass_state))
    : option (A * pass_state) :=
  match r with
  | Some (x, s) => Some (x, PassState (option_map strip (slot s)) (errors s))
  | None => None
  end.

Arguments canon_child !k /.
Arguments canon !a /.
Arguments field_view !def /.
Arguments with_type !a t /.
Arguments strip_ctx !c /.
Arguments strip_scope !sc /.

(** The paths of the children of a node, in the order of the traversal:
    the inner loop of [Walk.postorder]. *)
Fixpoint each (i : nat) (ks : list ast) : list Walk.path :=
  match ks with
  | [] => []
  | k :: ks' => (map (cons i) (Walk.postorder k) ++ each (S i) ks')%list
  end.

Definition path_eqb (p q : Walk.path) : bool :=
  if list_eq_dec Nat.eq_dec p q then true else false.

(** [q] is met before [p] in the list. *)
Fixpoint before (ps : list Walk.path) (q p : Walk.path) : bool :=
  match ps with
  | [] => false
  | x :: ps' =>
      if path_eqb x p then false else path_eqb x q || before ps' q p
  end.

(** Every reference to a field or parameter is visited after the field or
    parameter it names: the definition is not the reference's ancestor and
    does not follow it in the tree. *)
Definition fields_first (bindings : string -> option Walk.path) (root : ast)
    : bool :=
  forallb
    (fun p =>
       match Walk.subtree root p with
       | Some a =>
           match ast_id a, ast_child a with
           | TK_REFERENCE, Some id =>
               match bindings (ast_name id) with
               | Some q =>
                   match Walk.subtree root q with
                   | Some def =>
                       negb (is_field def)
                       || before (Walk.postorder root) q p
                   | None => true
                   end
               | None => true
               end
           | _, _ => true
           end
       | None => true
       end)
    (Walk.postorder root).

(** The two trees hold the same type in the slot at [p], up to the type
    slots inside that type; or neither has a node at [p]. *)
Definition same_slot (t u : ast) (p : Walk.path) : Prop :=
  option_map (option_map strip) (Walk.type_at t p) =
  option_map (option_map strip) (Walk.type_at u p).

(** What a computation does to the type slot. *)
Inductive effect : Type :=
| Keep
| Attach (t : option ast).

Definition apply_effect (e : effect) (s : option ast) : option ast :=
  match e with
  | Keep => s
  | Attach t => t
  end.

(** A computation whose outcome does not depend on the state it starts
    from: it aborts, or it returns a fixed value, does a fixed thing to the
    slot and appends fixed diagnostics. *)
Definition uniform {A} (m : M A) : Prop :=
  (forall st, m st = None) \/
  (exists x e new,
      forall st,
        m st = Some (x, PassState (apply_effect e (slot st))
                          (errors st ++ new))).


(** * Properties of the pass *)

Lemma spine_of_id t es : spine_of t es -> is_tk t TK_TUPLETYPE = true.
Proof.
  intros H. unfold is_tk.
  destruct H as [t a b Hid _ | t a t' es Hid _ _]; rewrite Hid;
    destruct (token_eq_dec TK_TUPLETYPE TK_TUPLETYPE); congruence.
Qed.

Lemma spine_of_head t es : spine_of t es -> ast_child t = hd_error es.
Proof.
  intros H. unfold ast_child.
  destruct H as [t a b _ Hk | t a t' es _ Hk _]; rewrite Hk; reflexivity.
Qed.

Lemma is_tk_false a id : ast_id a <> id -> is_tk a id = false.
Proof.
  intros H. unfold is_tk. destruct (token_eq_dec (ast_id a) id); congruence.
Qed.

Lemma is_tk_true a id : ast_id a = id -> is_tk a id = true.
Proof.
  intros H. unfold is_tk. destruct (token_eq_dec (ast_id a) id); congruence.
Qed.

Lemma is_tk_iff a id : is_tk a id = true <-> ast_id a = id.
Proof.
  unfold is_tk. destruct (token_eq_dec (ast_id a) id); split; congruence.
Qed.

Lemma tuple_index_walk_spine t es :
  spine_of t es ->
  (forall d, ast_id (last es d) <> TK_TUPLETYPE) ->
  forall i, (0 <= i)%Z ->
  tuple_index_walk t i = Some (nth_error es (Z.to_nat i)).
Proof.
  induction 1 as [t a b Hid Hk | t a t' es Hid Hk Hsp IH]; intros Hlast i Hi.
  - pose proof (is_tk_false _ (Hlast b)) as Hb. cbn in Hb.
    simp tuple_index_walk.
    destruct (Z_lt_dec 1 i) as [Hlt | Hge]; cbn.
    + unfold ast_childidx. rewrite Hk. cbn.
      rewrite Hb.
      destruct (Z.to_nat i) as [|[|n]] eqn:E; try lia.
      destruct n; reflexivity.
    + destruct (Z.eqb_spec i 0) as [-> | Hne].
      * unfold ast_child. rewrite Hk. reflexivity.
      * assert (i = 1%Z) by lia. subst i.
        unfold ast_childidx. rewrite Hk. cbn.
        rewrite Hb. reflexivity.
  - assert (Hlast' : forall d, ast_id (last es d) <> TK_TUPLETYPE).
    { intros d. specialize (Hlast d). cbn in Hlast.
      destruct es; [inversion Hsp | exact Hlast]. }
    simp tuple_index_walk.
    destruct (Z_lt_dec 1 i) as [Hlt | Hge]; cbn.
    + unfold ast_childidx. rewrite Hk. cbn.
      rewrite (spine_of_id Hsp).
      rewrite (IH Hlast' (i - 1)%Z) by lia.
      replace (Z.to_nat i) with (S (Z.to_nat (i - 1))) by lia.
      reflexivity.
    + destruct (Z.eqb_spec i 0) as [-> | Hne].
      * unfold ast_child. rewrite Hk. reflexivity.
      * assert (i = 1%Z) by lia. subst i.
        unfold ast_childidx. rewrite Hk. cbn.
        rewrite (spine_of_id Hsp), (spine_of_head Hsp).
        destruct es; reflexivity.
Qed.

Lemma tuple_index_spine t es i :
  spine_of t es ->
  (forall d, ast_id (last es d) <> TK_TUPLETYPE) ->
  (0 <= i)%Z ->
  tuple_index t i = Some (nth_error es (Z.to_nat i)).
Proof.
  intros Hsp Hlast Hi. unfold tuple_index.
  rewrite (spine_of_id Hsp). now apply tuple_index_walk_spine.
Qed.

Section Components.

Variable E : collaborators.

(** C6.  A [TK_DOT] whose right child is an integer and whose left child has
    the two-element tuple type [(x, y)] gets [x] at index 0 and [y] at
    index 1, and fails with "tuple index is out of bounds" at index 2.  On a
    right-cons spine of the elements [es], [tuple_index] returns the [i]-th
    element for [i] in range and nothing once the spine has ended. *)
Theorem tuple_index_in_dot
    (c : context) (a lhs rhs t x y : ast) (rest : list ast) (st : pass_state) :
  ast_id a = TK_DOT ->
  ast_kids a = lhs :: rhs :: rest ->
  ast_id rhs = TK_INT ->
  ast_type lhs = Some t ->
  ast_id t = TK_TUPLETYPE ->
  ast_kids t = [x; y] ->
  ast_id y <> TK_TUPLETYPE ->
  (ast_int rhs = 0%Z ->
   type_expr E c a st = Some (AST_OK, PassState (Some x) (errors st))) /\
  (ast_int rhs = 1%Z ->
   type_expr E c a st = Some (AST_OK, PassState (Some y) (errors st))) /\
  (ast_int rhs = 2%Z ->
   type_expr E c a st =
     Some (AST_FATAL,
           PassState (slot st)
             (errors st ++ [Diag (ast_line rhs) (ast_pos rhs)
                              "tuple index is out of bounds"]))) /\
  (forall s es i,
      spine_of s es ->
      (forall d, ast_id (last es d) <> TK_TUPLETYPE) ->
      (0 <= i)%Z ->
      tuple_index s i = Some (nth_error es (Z.to_nat i))).
Proof.
  intros Ha Hk Hr Hl Ht Htk Hy.
  assert (Hsp : spine_of t [x; y]) by (now apply spine_two).
  assert (Hlast : forall d, ast_id (last [x; y] d) <> TK_TUPLETYPE)
    by (intros d; exact Hy).
  assert (Hrun : forall i, (0 <= i < 3)%Z -> ast_int rhs = i ->
            type_expr E c a st =
            match nth_error [x; y] (Z.to_nat i) with
            | Some e => Some (AST_OK, PassState (Some e) (errors st))
            | None =>
                Some (AST_FATAL,
                      PassState (slot st)
                        (errors st ++ [Diag (ast_line rhs) (ast_pos rhs)
                                         "tuple index is out of bounds"]))
            end).
  { intros i Hi Hint.
    unfold type_expr. rewrite Ha. unfold fatal_unless, expr_dot, bind.
    unfold ast_child, ast_childidx. rewrite Hk. cbn.
    rewrite Hr, Hl, (is_tk_true _ Ht). cbn.
    rewrite Hint.
    assert (Hto : to_int i = i).
    { unfold to_int. rewrite Z.mod_small by lia. lia. }
    rewrite Hto, (tuple_index_spine Hsp Hlast) by lia. cbn.
    destruct (nth_error [x; y] (Z.to_nat i)); reflexivity. }
  repeat split.
  - intros H0. now rewrite (Hrun 0%Z) by (lia || assumption).
  - intros H1. now rewrite (Hrun 1%Z) by (lia || assumption).
  - intros H2. now rewrite (Hrun 2%Z) by (lia || assumption).
  - intros s es i. apply tuple_index_spine.
Qed.

Lemma tuple_rest_spine (a child : ast) (siblings : list ast) :
  forall t ts st,
    map ast_type (child :: siblings) = map Some (t :: ts) ->
    exists r,
      tuple_rest a child siblings st = Some (r, st) /\
      match ts with
      | [] => r = t
      | _ :: _ => spine_of r (t :: ts)
      end.
Proof.
  revert child.
  induction siblings as [|next siblings IH]; intros child t ts st Hm.
  - cbn in Hm. destruct ts as [|? ?]; [|discriminate].
    injection Hm as Hc. exists t. cbn. rewrite Hc. split; reflexivity.
  - destruct ts as [|t' ts]; [discriminate|].
    cbn [map] in Hm. injection Hm as Hc Hn Hrest.
    assert (Hm' : map ast_type (next :: siblings) = map Some (t' :: ts))
      by (cbn [map]; congruence).
    destruct (IH next t' ts st Hm') as (r & Hr & Hshape).
    cbn [tuple_rest]. unfold bind at 1. rewrite Hc. cbn [deref ret].
    unfold bind. rewrite Hr. cbn [ret].
    eexists. split; [reflexivity|].
    destruct ts as [|t'' ts].
    + subst r. apply spine_two; reflexivity.
    + apply spine_cons with (t' := r); [reflexivity | reflexivity | exact Hshape].
Qed.

(** C5.  A [TK_TUPLE] with one typed child gets that child's type.  With two
    or more typed children it gets a right-cons [TK_TUPLETYPE] spine whose
    elements, left to right, are the children's types; the last child's type
    is the second child of the innermost spine node, not wrapped again. *)
Theorem tuple_type_is_spine
    (c : context) (a : ast) (ts : list ast) (st : pass_state) :
  ast_id a = TK_TUPLE ->
  map ast_type (ast_kids a) = map Some ts ->
  (forall t, ts = [t] ->
     type_expr E c a st = Some (AST_OK, PassState (Some t) (errors st))) /\
  (2 <= List.length ts ->
     exists ty,
       type_expr E c a st = Some (AST_OK, PassState (Some ty) (errors st)) /\
       spine_of ty ts).
Proof.
  intros Ha Hm. unfold type_expr. rewrite Ha. unfold fatal_unless, expr_tuple.
  split.
  - intros t ->. destruct (ast_kids a) as [|child [|? ?]]; try discriminate.
    injection Hm as Hc. unfold bind, ast_settype, ret. rewrite Hc. reflexivity.
  - intros Hlen.
    destruct ts as [|t [|t' ts]]; cbn in Hlen; try lia.
    destruct (ast_kids a) as [|child [|second siblings]]; try discriminate.
    cbn [map] in Hm. injection Hm as Hc Hn Hrest.
    assert (Hm' : map ast_type (second :: siblings) = map Some (t' :: ts))
      by (cbn [map]; congruence).
    destruct (@tuple_rest_spine a second siblings t' ts st Hm')
      as (r & Hr & Hshape).
    unfold bind at 1. unfold bind at 1. rewrite Hc. cbn [deref ret].
    unfold bind at 1. unfold bind at 1. rewrite Hr.
    unfold bind, ast_settype, ret. cbn.
    eexists. split; [reflexivity|].
    destruct ts as [|t'' ts].
    + subst r. apply spine_two; reflexivity.
    + apply spine_cons with (t' := r); [reflexivity | reflexivity | exact Hshape].
Qed.


Lemma is_lvalue_tuple l p n i ty kids :
  is_lvalue (Node TK_TUPLE l p n i ty kids) = true <->
  Forall (fun k => is_lvalue k = true) kids.
Proof.
  cbn. induction kids as [|k kids IH].
  - split; [constructor | reflexivity].
  - destruct (is_lvalue k) eqn:Hk; cbn.
    + rewrite IH. split.
      * intros H. constructor; assumption.
      * intros H. inversion H; assumption.
    + split; [discriminate|].
      intros H. inversion H; congruence.
Qed.

Lemma is_lvalue_spec (n : ast) :
  is_lvalue n = true <->
  ast_id n = TK_REFERENCE \/ ast_id n = TK_DOT \/
  (ast_id n = TK_TUPLE /\ Forall (fun k => is_lvalue k = true) (ast_kids n)).
Proof.
  destruct n as [id l p nm i ty kids].
  destruct (token_eq_dec id TK_TUPLE) as [-> | Hne].
  - rewrite is_lvalue_tuple. cbn. split.
    + intros H. right. right. split; [reflexivity | exact H].
    + intros [H | [H | [_ H]]]; [discriminate | discriminate | exact H].
  - cbn [ast_id ast_kids].
    destruct id; cbn; split; intros H; try discriminate; try congruence;
      try (left; reflexivity); try (right; left; reflexivity);
      try (destruct H as [H | [H | [H _]]]; congruence).
Qed.

(** C10.  A [TK_ASSIGN] with typed children fails with "left side must be
    something that can be assigned to" when the left side is not an l-value,
    fails with "right side must be a subtype of left side" when the right
    type is not a subtype of the left type, and otherwise gets the left
    side's type.  An l-value is a [TK_REFERENCE], a [TK_DOT], or a
    [TK_TUPLE] all of whose children are l-values (a childless one
    included). *)
Theorem assign_lvalue_then_subtype
    (c : context) (a lhs rhs lt rt : ast) (rest : list ast)
    (st : pass_state) :
  ast_id a = TK_ASSIGN ->
  ast_kids a = lhs :: rhs :: rest ->
  ast_type lhs = Some lt ->
  ast_type rhs = Some rt ->
  (forall n,
      is_lvalue n = true <->
      ast_id n = TK_REFERENCE \/ ast_id n = TK_DOT \/
      (ast_id n = TK_TUPLE /\
       Forall (fun k => is_lvalue k = true) (ast_kids n))) /\
  is_lvalue (Node TK_TUPLE 0 0 "" 0 None []) = true /\
  (is_lvalue lhs = false ->
   type_expr E c a st =
     Some (AST_FATAL,
           PassState (slot st)
             (errors st ++ [Diag (ast_line a) (ast_pos a)
                "left side must be something that can be assigned to"]))) /\
  (is_lvalue lhs = true ->
   is_subtype E (here c a) (Some rt) (Some lt) = false ->
   type_expr E c a st =
     Some (AST_FATAL,
           PassState (slot st)
             (errors st ++ [Diag (ast_line a) (ast_pos a)
                "right side must be a subtype of left side"]))) /\
  (is_lvalue lhs = true ->
   is_subtype E (here c a) (Some rt) (Some lt) = true ->
   type_expr E c a st = Some (AST_OK, PassState (Some lt) (errors st))).
Proof.
  intros Ha Hk Hl Hr.
  split; [exact is_lvalue_spec|].
  split; [reflexivity|].
  unfold type_expr. rewrite Ha.
  unfold fatal_unless, expr_assign, bind, ast_child, ast_childidx.
  rewrite Hk. cbn [hd_error nth_error deref ret]. rewrite Hl, Hr.
  repeat split.
  - intros Hlv. rewrite Hlv. reflexivity.
  - intros Hlv Hsub. rewrite Hlv, Hsub. reflexivity.
  - intros Hlv Hsub. rewrite Hlv, Hsub. reflexivity.
Qed.


Lemma type_builtin_run c visited n name st :
  type_builtin E c visited (Some n) name st =
  Some (if is_subtype E (Scope c visited n) (ast_type n)
             (nominal_builtin E (Scope c visited n) name)
        then ast_type n else None, st).
Proof.
  unfold type_builtin, bind, deref, ret.
  destruct (is_subtype E _ _ _); reflexivity.
Qed.

Ltac compare_cases lhs rhs :=
  repeat match goal with
         | |- context [is_subtype E ?s ?x ?y] =>
             destruct (is_subtype E s x y) eqn:?
         | |- context [match ast_type lhs with _ => _ end] =>
             destruct (ast_type lhs) eqn:?
         | |- context [match ast_type rhs with _ => _ end] =>
             destruct (ast_type rhs) eqn:?
         end.

Lemma expr_compare_run c a lhs rhs rest st :
  ast_kids a = lhs :: rhs :: rest ->
  let bool := nominal_builtin E (here c a) "Bool" in
  let no := Diag (ast_line a) (ast_pos a)
              "right side must be a subtype of left side" in
  (forall st', expr_compare E c a st = Some (true, st') ->
               st' = PassState bool (errors st)) /\
  (type_arithmetic E c a (Some lhs) st = Some (None, st) ->
   type_arithmetic E c a (Some rhs) st = Some (None, st) ->
   expr_compare E c a st =
     if is_subtype E (here c a) (ast_type rhs) (ast_type lhs)
     then Some (true, PassState bool (errors st))
     else Some (false, PassState (slot st) (errors st ++ [no]))).
Proof.
  intros Hk bool no. subst bool no. unfold type_arithmetic.
  rewrite !type_builtin_run.
  unfold expr_compare, type_arithmetic, bind, ast_child, ast_childidx.
  rewrite Hk. cbn [hd_error nth_error deref ret].
  rewrite !type_builtin_run. cbn [deref ret].
  unfold type_super, ast_settype, ast_error, ret. split.
  - intros st'. compare_cases lhs rhs; cbn; intros H; congruence.
  - intros Hl Hr. injection Hl as Hl. injection Hr as Hr.
    rewrite Hl. cbn. try rewrite Hr. cbn.
    destruct (is_subtype E (here c a) (ast_type rhs) (ast_type lhs));
      reflexivity.
Qed.

Lemma expr_order_run c a lhs rhs rest st :
  ast_kids a = lhs :: rhs :: rest ->
  let bool := nominal_builtin E (here c a) "Bool" in
  let no := Diag (ast_line a) (ast_pos a)
              "right side must be a subtype of left side" in
  (forall st', expr_order E c a st = Some (true, st') ->
               st' = PassState bool (errors st)) /\
  (type_arithmetic E c a (Some lhs) st = Some (None, st) ->
   type_arithmetic E c a (Some rhs) st = Some (None, st) ->
   expr_order E c a st =
     if is_subtype E (here c a) (ast_type rhs) (ast_type lhs)
     then Some (true, PassState bool (errors st))
     else Some (false, PassState (slot st) (errors st ++ [no]))).
Proof.
  intros Hk bool no. subst bool no. unfold type_arithmetic.
  rewrite !type_builtin_run.
  unfold expr_order, type_arithmetic, bind, ast_child, ast_childidx.
  rewrite Hk. cbn [hd_error nth_error deref ret].
  rewrite !type_builtin_run. cbn [deref ret].
  unfold type_super, ast_settype, ast_error, ret. split.
  - intros st'. compare_cases lhs rhs; cbn; intros H; congruence.
  - intros Hl Hr. injection Hl as Hl. injection Hr as Hr.
    rewrite Hl. cbn. try rewrite Hr. cbn.
    destruct (is_subtype E (here c a) (ast_type rhs) (ast_type lhs));
      reflexivity.
Qed.

Lemma fatal_unless_ok (m : M bool) st st' :
  fatal_unless m st = Some (AST_OK, st') <-> m st = Some (true, st').
Proof.
  unfold fatal_unless, bind, ret.
  destruct (m st) as [[[|] s]|]; split; intros H; congruence.
Qed.

Lemma fatal_unless_run (m : M bool) st b st' :
  m st = Some (b, st') ->
  fatal_unless m st = Some (if b then AST_OK else AST_FATAL, st').
Proof.
  unfold fatal_unless, bind, ret. intros ->. destruct b; reflexivity.
Qed.

(** C7.  A comparison ([==], [!=]) or order ([<], [<=], [>=], [>]) node that
    the pass accepts gets the [Bool] nominal.  When both operands fail the
    arithmetic-membership probe the node is accepted exactly when the right
    operand's type is a subtype of the left operand's type; otherwise the
    diagnostic "right side must be a subtype of left side" is emitted and
    the node is rejected. *)
Theorem compare_order_bool
    (c : context) (a lhs rhs : ast) (rest : list ast) (st : pass_state) :
  In (ast_id a) [TK_EQ; TK_NE; TK_LT; TK_LE; TK_GE; TK_GT] ->
  ast_kids a = lhs :: rhs :: rest ->
  (forall st',
      type_expr E c a st = Some (AST_OK, st') ->
      st' = PassState (nominal_builtin E (here c a) "Bool") (errors st)) /\
  (type_arithmetic E c a (Some lhs) st = Some (None, st) ->
   type_arithmetic E c a (Some rhs) st = Some (None, st) ->
   (is_subtype E (here c a) (ast_type rhs) (ast_type lhs) = true ->
    type_expr E c a st =
      Some (AST_OK,
            PassState (nominal_builtin E (here c a) "Bool") (errors st))) /\
   (is_subtype E (here c a) (ast_type rhs) (ast_type lhs) = false ->
    type_expr E c a st =
      Some (AST_FATAL,
            PassState (slot st)
              (errors st ++ [Diag (ast_line a) (ast_pos a)
                 "right side must be a subtype of left side"])))).
Proof.
  intros Hid Hk.
  destruct (expr_compare_run c a st Hk) as [Hc1 Hc2].
  destruct (expr_order_run c a st Hk) as [Ho1 Ho2].
  cbn in Hid.
  assert (Hd : type_expr E c a = fatal_unless (expr_compare E c a) \/
               type_expr E c a = fatal_unless (expr_order E c a)).
  { unfold type_expr.
    destruct Hid as [H|[H|[H|[H|[H|[H|[]]]]]]]; rewrite <- H; auto. }
  destruct Hd as [-> | ->]; (split; [intros st' H; apply fatal_unless_ok in H; auto |]);
    intros Hl Hr.
  - specialize (Hc2 Hl Hr). split; intros Hs; rewrite Hs in Hc2;
      rewrite (fatal_unless_run _ _ Hc2); reflexivity.
  - specialize (Ho2 Hl Hr). split; intros Hs; rewrite Hs in Ho2;
      rewrite (fatal_unless_run _ _ Ho2); reflexivity.
Qed.


Lemma type_union_run c a (L R : ast) st :
  type_union E c a (Some L) (Some R) st =
  Some (if is_subtype E (here c a) (Some L) (Some R) then R
        else if is_subtype E (here c a) (Some R) (Some L) then L
        else Node TK_UNIONTYPE (ast_line a) (ast_pos a) "" 0 None [L; R],
        st).
Proof.
  unfold type_union, type_super.
  destruct (is_subtype E (here c a) (Some L) (Some R)); [reflexivity|].
  destruct (is_subtype E (here c a) (Some R) (Some L)); reflexivity.
Qed.

(** C8.  A [TK_IF] whose condition passes bool-membership and whose branches
    are typed gets [type_union(thenType, elseType)], where [elseType] is the
    [None] nominal when the else branch is absent.  [type_union(scope, L, R)]
    returns the join when one side is a subtype of the other ([R] when
    [L <: R], else [L] when [R <: L]) and otherwise a fresh [TK_UNIONTYPE]
    whose children are [L] then [R]. *)
Theorem if_type_is_union
    (c : context) (a cond lhs rhs bt lt et : ast) (rest : list ast)
    (st : pass_state) :
  ast_id a = TK_IF ->
  ast_kids a = cond :: lhs :: rhs :: rest ->
  type_bool E c a (Some cond) st = Some (Some bt, st) ->
  ast_type lhs = Some lt ->
  (if is_tk rhs TK_NONE then nominal_builtin E (here c a) "None"
   else ast_type rhs) = Some et ->
  (exists ty,
      type_union E c a (Some lt) (Some et) st = Some (ty, st) /\
      type_expr E c a st = Some (AST_OK, PassState (Some ty) (errors st))) /\
  (forall L R s,
      (is_subtype E (here c a) (Some L) (Some R) = true ->
       type_union E c a (Some L) (Some R) s = Some (R, s)) /\
      (is_subtype E (here c a) (Some L) (Some R) = false ->
       is_subtype E (here c a) (Some R) (Some L) = true ->
       type_union E c a (Some L) (Some R) s = Some (L, s)) /\
      (is_subtype E (here c a) (Some L) (Some R) = false ->
       is_subtype E (here c a) (Some R) (Some L) = false ->
       exists u,
         type_union E c a (Some L) (Some R) s = Some (u, s) /\
         ast_id u = TK_UNIONTYPE /\ ast_kids u = [L; R] /\
         ast_type u = None)).
Proof.
  intros Ha Hk Hb Hl He. split.
  - eexists. split; [apply type_union_run|].
    unfold type_expr. rewrite Ha.
    unfold fatal_unless, expr_if, ast_child, ast_childidx. rewrite Hk.
    cbn [hd_error nth_error]. unfold bind, deref, ret. rewrite Hb.
    rewrite Hl, He. rewrite type_union_run.
    reflexivity.
  - intros L R s. rewrite type_union_run. repeat split.
    + intros ->. reflexivity.
    + intros -> ->. reflexivity.
    + intros -> ->. eexists. repeat split.
Qed.


Lemma last_cons_default (ts : list ast) :
  forall a d, last (a :: ts) d = last ts a.
Proof.
  induction ts as [|u ts IH]; intros a d; [reflexivity|].
  change (last (a :: u :: ts) d) with (last (u :: ts) d).
  rewrite (IH u d), (IH u a). reflexivity.
Qed.

Lemma seq_scan_run sc error (kids : list ast) :
  forall ts acc,
    map ast_type kids = map Some ts ->
    fold_left
      (fun acc child =>
         let type := ast_type child in
         (fst acc || is_subtype E sc (Some error) type, type))
      kids acc =
    (fst acc || existsb (fun t => is_subtype E sc (Some error) (Some t)) ts,
     match ts with
     | [] => snd acc
     | t :: ts' => Some (last ts' t)
     end).
Proof.
  induction kids as [|k kids IH]; intros ts acc Hm.
  - destruct ts; [|discriminate]. cbn. rewrite orb_false_r.
    destruct acc; reflexivity.
  - destruct ts as [|t ts]; [discriminate|].
    cbn [map] in Hm. injection Hm as Hk Hm.
    cbn [fold_left]. rewrite (IH ts _ Hm). cbn [fst snd existsb].
    rewrite Hk, orb_assoc. f_equal.
    destruct ts as [|u ts]; [reflexivity|].
    now rewrite last_cons_default.
Qed.

Lemma seq_scan_eq sc error (kids ts : list ast) :
  map ast_type kids = map Some ts ->
  seq_scan E sc error kids =
  (existsb (fun t => is_subtype E sc (Some error) (Some t)) ts,
   match ts with
   | [] => None
   | t :: ts' => Some (last ts' t)
   end).
Proof.
  intros Hm. unfold seq_scan.
  exact (@seq_scan_run sc error kids ts (false, None) Hm).
Qed.

Lemma last_snoc (front : list ast) (x d : ast) :
  match (front ++ [x])%list with
  | [] => d
  | t :: ts' => last ts' t
  end = x.
Proof.
  destruct front as [|t front]; [reflexivity|].
  cbn [app]. revert t.
  induction front as [|u front IH]; intros t; [reflexivity|].
  cbn [app]. rewrite last_cons_default. apply IH.
Qed.

Lemma expr_seq_run c a front lastT st :
  map ast_type (ast_kids a) = map Some (front ++ [lastT]) ->
  let error := ast_from a TK_ERROR in
  expr_seq E c a st =
  Some (true,
        PassState
          (Some
             (if existsb
                   (fun t => is_subtype E (here c a) (Some error) (Some t))
                   (front ++ [lastT])
              then
                if is_subtype E (here c a) (Some lastT) (Some error)
                then error
                else if is_subtype E (here c a) (Some error) (Some lastT)
                     then lastT
                     else Node TK_UNIONTYPE (ast_line a) (ast_pos a) "" 0
                            None [lastT; error]
              else lastT))
          (errors st)).
Proof.
  intros Hm error.
  assert (Hne : ast_child a <> None).
  { unfold ast_child. destruct (ast_kids a); [|discriminate].
    destruct front; discriminate. }
  assert (Hlast : match (front ++ [lastT])%list with
                  | [] => None
                  | t :: ts' => Some (last ts' t)
                  end = Some lastT).
  { pose proof (last_snoc front lastT lastT) as H.
    destruct (front ++ [lastT])%list eqn:Heq; [destruct front; discriminate|].
    now rewrite H. }
  unfold expr_seq, bind, assert.
  destruct (ast_child a) as [k|]; [|congruence].
  cbv zeta. cbn [ret].
  rewrite (@seq_scan_eq (here c a) (ast_from a TK_ERROR) (ast_kids a) _ Hm).
  rewrite Hlast. fold error.
  destruct (existsb _ (front ++ [lastT])).
  - rewrite type_union_run. reflexivity.
  - reflexivity.
Qed.

(** C3, as the code has it.  A non-empty [TK_SEQ] whose children are all
    typed gets its last child's type when the [TK_ERROR] marker is a subtype
    of no child's type.  Otherwise it gets [type_union(lastType, ERROR)]:
    the marker when [lastType <: ERROR], else [lastType] itself when
    [ERROR <: lastType], else the fresh [TK_UNIONTYPE] of [lastType] and the
    marker. *)
Theorem seq_type_is_last_or_union
    (c : context) (a lastT : ast) (front : list ast) (st : pass_state) :
  ast_id a = TK_SEQ ->
  map ast_type (ast_kids a) = map Some (front ++ [lastT]) ->
  let error := ast_from a TK_ERROR in
  let can_error :=
    existsb (fun t => is_subtype E (here c a) (Some error) (Some t))
      (front ++ [lastT]) in
  (can_error = false ->
   type_expr E c a st = Some (AST_OK, PassState (Some lastT) (errors st))) /\
  (can_error = true ->
   is_subtype E (here c a) (Some lastT) (Some error) = true ->
   type_expr E c a st = Some (AST_OK, PassState (Some error) (errors st))) /\
  (can_error = true ->
   is_subtype E (here c a) (Some lastT) (Some error) = false ->
   is_subtype E (here c a) (Some error) (Some lastT) = true ->
   type_expr E c a st = Some (AST_OK, PassState (Some lastT) (errors st))) /\
  (can_error = true ->
   is_subtype E (here c a) (Some lastT) (Some error) = false ->
   is_subtype E (here c a) (Some error) (Some lastT) = false ->
   type_expr E c a st =
     Some (AST_OK,
           PassState
             (Some (Node TK_UNIONTYPE (ast_line a) (ast_pos a) "" 0 None
                      [lastT; error]))
             (errors st))).
Proof.
  intros Ha Hm error can_error.
  pose proof (@expr_seq_run c a front lastT st Hm) as Hrun. cbv zeta in Hrun.
  fold error in Hrun. fold can_error in Hrun.
  unfold type_expr. rewrite Ha.
  rewrite (fatal_unless_run _ _ Hrun).
  repeat split.
  - intros ->. reflexivity.
  - intros -> ->. reflexivity.
  - intros -> -> ->. reflexivity.
  - intros -> -> ->. reflexivity.
Qed.


Lemma ast_childlast_some (body : ast) :
  ast_kids body <> [] -> exists k, ast_childlast body = Some k.
Proof.
  unfold ast_childlast. intros Hne.
  destruct (ast_kids body) as [|k kids]; [congruence|].
  clear Hne. revert k. induction kids as [|u kids IH]; intros k.
  - exists k. reflexivity.
  - destruct (IH u) as (x & Hx). exists x.
    cbn [map] in *. rewrite <- Hx. reflexivity.
Qed.

(** C2.  A [TK_FUN] with a body typed [B], a declared result [R], no [?]
    marker and an enclosing type that is not a trait is accepted if and only
    if [B] equals [R] under [is_eqtype] and the [TK_ERROR] marker is not a
    subtype of [B].  The subtype engine is taken to relate equal types
    ([is_eqtype] implies [is_subtype]), and a body type that is itself the
    bare marker is taken to have the marker below it or to differ from the
    declared result. *)
Theorem fun_accepts_iff_eqtype_and_total
    (c : context) (a R can_error body B def : ast) (st : pass_state) :
  ast_id a = TK_FUN ->
  ast_childidx a 4 = Some R ->
  ast_childidx a 5 = Some can_error ->
  ast_childidx a 6 = Some body ->
  ast_id R <> TK_NONE ->
  ast_id can_error <> TK_QUESTION ->
  ast_id body <> TK_NONE ->
  ast_kids body <> [] ->
  ast_type body = Some B ->
  ctx_enclosing_type c = Some def ->
  ast_id def <> TK_TRAIT ->
  (is_eqtype E (here c a) (Some B) (Some R) = true ->
   is_subtype E (here c a) (Some B) (Some R) = true) ->
  (ast_id B = TK_ERROR ->
   is_subtype E (here c a) (Some (ast_from a TK_ERROR)) (Some B) = true \/
   is_eqtype E (here c a) (Some B) (Some R) = false) ->
  exists r st',
    type_expr E c a st = Some (r, st') /\
    (r = AST_OK <->
     is_eqtype E (here c a) (Some B) (Some R) = true /\
     is_subtype E (here c a) (Some (ast_from a TK_ERROR)) (Some B) = false) /\
    (r = AST_OK -> st' = st).
Proof.
  intros Ha H4 H5 H6 HR Hq Hb Hkids HB Hdef Htrait Heq Herr.
  destruct (ast_childlast_some body Hkids) as (last & Hlast).
  unfold type_expr. rewrite Ha.
  unfold fatal_unless, expr_fun, bind. rewrite H4, H5, H6. cbn [deref ret].
  rewrite (is_tk_false _ Hb), Hdef, HB. cbn [deref ret].
  rewrite (is_tk_false _ Hq), (is_tk_false _ HR), (is_tk_false _ Htrait).
  unfold ast_error, ret. rewrite Hlast. cbn [negb andb].
  destruct (is_tk B TK_ERROR) eqn:HBe.
  - apply is_tk_iff in HBe. specialize (Herr HBe).
    eexists _, _. split; [reflexivity|].
    split; [split; [discriminate | intros [H1 H2]] | discriminate].
    destruct Herr as [Herr | Herr]; congruence.
  - clear Herr.
    destruct (is_subtype E (here c a) (Some (ast_from a TK_ERROR)) (Some B))
      eqn:Hse; cbn;
    destruct (is_subtype E (here c a) (Some B) (Some R)) eqn:Hsub; cbn;
    destruct (is_eqtype E (here c a) (Some B) (Some R)) eqn:Heqt; cbn;
    eexists _, _; (split; [reflexivity|]);
    (split; [split; [try discriminate; auto | intros [H1 H2]; try discriminate;
                      try (specialize (Heq eq_refl); discriminate); auto]
            | try discriminate]).
    intros _. destruct st; reflexivity.
Qed.


(** *** Helpers that leave the state alone *)

Ltac case_on H x := destruct x eqn:?; cbn beta iota in H; try discriminate H.

Lemma param_types_pure ps : forall types st r st',
  param_types types ps st = Some (r, st') -> st' = st.
Proof.
  induction ps as [|p ps IH]; intros types st r st' H;
    cbn [param_types] in H.
  - unfold ret in H. congruence.
  - unfold bind, deref, crash, ret in H.
    case_on H (ast_childidx p 1). eauto.
Qed.

Lemma type_for_fun_pure def st r st' :
  type_for_fun def st = Some (r, st') -> st' = st.
Proof.
  unfold type_for_fun, bind, assert, crash, ret. intros H.
  case_on H (is_tk def TK_NEW || is_tk def TK_BE || is_tk def TK_FUN).
  destruct (ast_kids def) as [|? [|? [|? [|params [|? [|? ?]]]]]];
    try discriminate.
  destruct (token_eq_dec (ast_id params) TK_PARAMS) as [Hp | Hp].
  - rewrite Hp in H.
    destruct (param_types _ _ st) as [[ty s]|] eqn:Hpt; [|discriminate].
    apply param_types_pure in Hpt. subst s. congruence.
  - destruct (ast_id params); congruence.
Qed.

Lemma this_typeargs_pure c a tps : forall typeargs st r st',
  this_typeargs E c a typeargs tps st = Some (r, st') -> st' = st.
Proof.
  induction tps as [|p tps IH]; intros typeargs st r st' H;
    cbn [this_typeargs] in H.
  - unfold ret in H. congruence.
  - unfold bind, deref, crash, ret in H.
    case_on H (ast_child p).
    case_on H (nominal_type E (here c a) None (ast_name a0)). eauto.
Qed.

Lemma tuple_rest_pure a siblings : forall child st r st',
  tuple_rest a child siblings st = Some (r, st') -> st' = st.
Proof.
  induction siblings as [|n siblings IH]; intros child st r st' H;
    cbn [tuple_rest] in H.
  - unfold deref, crash, ret in H. case_on H (ast_type child). congruence.
  - unfold bind, deref, crash, ret in H.
    case_on H (ast_type child).
    destruct (tuple_rest a n siblings st) as [[x s]|] eqn:Hr; [|discriminate].
    apply IH in Hr. subst s. congruence.
Qed.

Lemma type_union_pure c a l r st t st' :
  type_union E c a l r st = Some (t, st') -> st' = st.
Proof.
  unfold type_union, bind, deref, crash, ret. intros H.
  destruct (type_super _ _ _ _); [congruence|].
  case_on H r. case_on H l. congruence.
Qed.

Lemma def_before_use_run def use name st b st' :
  def_before_use def use name st = Some (b, st') ->
  (b = true /\ st' = st) \/
  (b = false /\ slot st' = slot st /\
   List.length (errors st) < List.length (errors st')).
Proof.
  unfold def_before_use, bind, ast_error, ret. intros H.
  destruct (_ || _).
  - injection H as <- <-. right. cbn. rewrite !length_app. cbn.
    repeat split. lia.
  - injection H as <- <-. left. split; reflexivity.
Qed.

(** *** Every component leaves a type or a diagnostic *)

Ltac inner x :=
  lazymatch x with
  | context [match ?y with _ => _ end] => inner y
  | _ => x
  end.

Ltac crunch H :=
  repeat (cbn beta iota in H;
          match type of H with
          | None = Some _ => discriminate H
          | context [match ?x with _ => _ end] =>
              let y := inner x in destruct y eqn:?
          end).

Ltac purify :=
  repeat match goal with
         | Hu : type_union _ _ _ _ _ _ = Some _ |- _ =>
             apply type_union_pure in Hu
         | Hu : type_for_fun _ _ = Some _ |- _ =>
             apply type_for_fun_pure in Hu
         | Hu : this_typeargs _ _ _ _ _ _ = Some _ |- _ =>
             apply this_typeargs_pure in Hu
         | Hu : tuple_rest _ _ _ _ = Some _ |- _ =>
             apply tuple_rest_pure in Hu
         end; subst.

Ltac open_pass H :=
  unfold type_int_or_bool, type_arithmetic, type_bool, type_int in H;
  unfold type_builtin, type_super, deref, assert, ast_error, ast_settype,
    released_twice in H;
  unfold bind, ret, crash in H.

Ltac finish H :=
  injection H as <- <-; purify; unfold leaves_type_or_diagnostic; cbn;
  split; intros ?; try discriminate;
  (split; [try congruence; try assumption;
           try (rewrite ?length_app; cbn; lia)
          | try congruence; try reflexivity]).

Lemma expr_arithmetic_outcome c a st b st' :
  expr_arithmetic E c a st = Some (b, st') -> leaves_type_or_diagnostic st b st'.
Proof.
  intros H. unfold expr_arithmetic in H. open_pass H. crunch H; finish H.
Qed.

Lemma expr_minus_outcome c a st b st' :
  expr_minus E c a st = Some (b, st') -> leaves_type_or_diagnostic st b st'.
Proof.
  intros H. unfold expr_minus in H. open_pass H. crunch H; finish H.
Qed.

Lemma expr_shift_outcome c a st b st' :
  expr_shift E c a st = Some (b, st') -> leaves_type_or_diagnostic st b st'.
Proof.
  intros H. unfold expr_shift in H. open_pass H. crunch H; finish H.
Qed.

Lemma expr_logical_outcome c a st b st' :
  expr_logical E c a st = Some (b, st') -> leaves_type_or_diagnostic st b st'.
Proof.
  intros H. unfold expr_logical in H. open_pass H. crunch H; finish H.
Qed.

Lemma expr_not_outcome c a st b st' :
  expr_not E c a st = Some (b, st') -> leaves_type_or_diagnostic st b st'.
Proof.
  intros H. unfold expr_not in H. open_pass H. crunch H; finish H.
Qed.


Lemma expr_literal_outcome c a name st b st' :
  nominal_builtin E (here c a) name <> None ->
  expr_literal E c a name st = Some (b, st') -> leaves_type_or_diagnostic st b st'.
Proof.
  intros Hlit H. unfold expr_literal in H. open_pass H.
  crunch H; try congruence; finish H.
Qed.

Lemma expr_identity_outcome c a st b st' :
  nominal_builtin E (here c a) "Bool" <> None ->
  expr_identity E c a st = Some (b, st') -> leaves_type_or_diagnostic st b st'.
Proof.
  intros Hlit H. unfold expr_identity, expr_literal in H. open_pass H.
  crunch H; try congruence; finish H.
Qed.

Lemma expr_compare_outcome c a st b st' :
  nominal_builtin E (here c a) "Bool" <> None ->
  expr_compare E c a st = Some (b, st') -> leaves_type_or_diagnostic st b st'.
Proof.
  intros Hlit H. unfold expr_compare in H. open_pass H.
  crunch H; finish H.
Qed.

Lemma expr_order_outcome c a st b st' :
  nominal_builtin E (here c a) "Bool" <> None ->
  expr_order E c a st = Some (b, st') -> leaves_type_or_diagnostic st b st'.
Proof.
  intros Hlit H. unfold expr_order in H. open_pass H.
  crunch H; finish H.
Qed.

Lemma expr_while_outcome c a st b st' :
  nominal_builtin E (here c a) "None" <> None ->
  expr_while E c a st = Some (b, st') -> leaves_type_or_diagnostic st b st'.
Proof.
  intros Hlit H. unfold expr_while in H. open_pass H.
  crunch H; finish H.
Qed.

Lemma expr_repeat_outcome c a st b st' :
  nominal_builtin E (here c a) "None" <> None ->
  expr_repeat E c a st = Some (b, st') -> leaves_type_or_diagnostic st b st'.
Proof.
  intros Hlit H. unfold expr_repeat in H. open_pass H.
  crunch H; finish H.
Qed.

Lemma expr_continue_outcome c a st b st' :
  nominal_builtin E (here c a) "None" <> None ->
  expr_continue E c a st = Some (b, st') -> leaves_type_or_diagnostic st b st'.
Proof.
  intros Hlit H. unfold expr_continue in H. open_pass H.
  crunch H; finish H.
Qed.

Lemma expr_if_outcome c a st b st' :
  expr_if E c a st = Some (b, st') -> leaves_type_or_diagnostic st b st'.
Proof.
  intros H. unfold expr_if in H. open_pass H.
  crunch H; finish H.
Qed.

Lemma expr_error_outcome c a st b st' :
  expr_error c a st = Some (b, st') -> leaves_type_or_diagnostic st b st'.
Proof.
  intros H. unfold expr_error in H. open_pass H.
  crunch H; finish H.
Qed.

Lemma expr_this_outcome c a st b st' :
  expr_this E c a st = Some (b, st') -> leaves_type_or_diagnostic st b st'.
Proof.
  intros H. unfold expr_this in H. open_pass H.
  crunch H; finish H.
Qed.

Lemma expr_consume_outcome c a st b st' :
  expr_consume c a st = Some (b, st') -> leaves_type_or_diagnostic st b st'.
Proof.
  intros H. unfold expr_consume in H. open_pass H. finish H.
Qed.

Lemma expr_qualify_outcome c a st b st' :
  expr_qualify c a st = Some (b, st') -> leaves_type_or_diagnostic st b st'.
Proof.
  intros H. unfold expr_qualify in H. open_pass H. finish H.
Qed.

Lemma expr_assign_outcome c a st b st' :
  (forall lhs, ast_child a = Some lhs -> ast_type lhs <> None) ->
  expr_assign E c a st = Some (b, st') -> leaves_type_or_diagnostic st b st'.
Proof.
  intros Hl H. unfold expr_assign in H. open_pass H.
  destruct (ast_child a) as [lhs|] eqn:Hc; [|discriminate].
  specialize (Hl lhs eq_refl).
  crunch H; finish H.
Qed.

Lemma expr_tuple_outcome c a st b st' :
  (forall child, ast_kids a = [child] -> ast_type child <> None) ->
  expr_tuple c a st = Some (b, st') -> leaves_type_or_diagnostic st b st'.
Proof.
  intros Hl H. unfold expr_tuple in H. open_pass H.
  destruct (ast_kids a) as [|child [|second siblings]]; [discriminate| |].
  - specialize (Hl child eq_refl). finish H.
  - crunch H; finish H.
Qed.

Lemma expr_call_outcome c a st b st' :
  (forall lhs t, ast_child a = Some lhs -> ast_type lhs = Some t ->
                 ast_childidx t 4 <> None) ->
  expr_call E c a st = Some (b, st') -> leaves_type_or_diagnostic st b st'.
Proof.
  intros Hl H. unfold expr_call in H. open_pass H.
  destruct (ast_child a) as [lhs|] eqn:Hc; [|discriminate].
  cbn beta iota in H.
  destruct (ast_type lhs) as [t|] eqn:Ht; [|discriminate].
  specialize (Hl lhs t eq_refl Ht).
  crunch H; finish H.
Qed.

Lemma expr_field_outcome c a st b st' :
  (forall type init,
      ast_childidx a 1 = Some type -> ast_id type = TK_NONE ->
      ast_childidx a 2 = Some init -> ast_type init <> None) ->
  expr_field E c a st = Some (b, st') -> leaves_type_or_diagnostic st b st'.
Proof.
  intros Hl H. unfold expr_field in H. open_pass H.
  destruct (ast_childidx a 1) as [type|] eqn:H1; [|discriminate].
  cbn beta iota in H.
  destruct (ast_childidx a 2) as [init|] eqn:H2; [|discriminate].
  cbn beta iota in H.
  destruct (is_tk type TK_NONE) eqn:Ht.
  - apply is_tk_iff in Ht. specialize (Hl type init eq_refl Ht eq_refl).
    crunch H; finish H.
  - crunch H; finish H.
Qed.

Lemma expr_seq_outcome c a st b st' :
  (forall child, ast_childlast a = Some child -> ast_type child <> None) ->
  expr_seq E c a st = Some (b, st') -> leaves_type_or_diagnostic st b st'.
Proof.
  intros Hl H. unfold expr_seq in H. open_pass H.
  destruct (ast_child a) as [first|] eqn:Hc; [|discriminate].
  cbn beta iota in H.
  destruct (seq_scan E (here c a) (ast_from a TK_ERROR) (ast_kids a))
    as [can_error type] eqn:Hscan.
  assert (Hty : type <> None).
  { unfold seq_scan in Hscan. unfold ast_childlast in Hl.
    set (f := fun (acc : bool * option ast) (child : ast) =>
                let type := ast_type child in
                (fst acc
                 || is_subtype E (here c a) (Some (ast_from a TK_ERROR)) type,
                 type)) in *.
    assert (Hgen : forall kids k acc,
               snd (fold_left f (k :: kids) acc) =
               match last (map Some (k :: kids)) None with
               | Some x => ast_type x
               | None => None
               end).
    { induction kids as [|k' kids IH]; intros k acc; [reflexivity|].
      change (fold_left f (k :: k' :: kids) acc)
        with (fold_left f (k' :: kids) (f acc k)).
      rewrite IH. reflexivity. }
    unfold ast_child in Hc.
    destruct (ast_kids a) as [|k kids]; [discriminate|].
    specialize (Hgen kids k (false, None)).
    rewrite Hscan in Hgen. cbn [snd] in Hgen. rewrite Hgen.
    destruct (last (map Some (k :: kids)) None) as [x|] eqn:Hk.
    - exact (Hl x eq_refl).
    - exfalso. clear - Hk. revert k Hk.
      induction kids as [|k' kids IH]; intros k Hk; [discriminate|].
      exact (IH k' Hk). }
  crunch H; finish H.
Qed.


Lemma expr_dot_outcome c a st b st' :
  (forall lhs rhs,
      ast_child a = Some lhs -> ast_childidx a 1 = Some rhs ->
      ast_id rhs = TK_ID -> ast_type lhs = None ->
      ast_get E (Scope c a lhs) (ast_name lhs) <> None /\
      nominal_type E (here c a) (Some (ast_name lhs)) (ast_name rhs)
        <> None) ->
  expr_dot E c a st = Some (b, st') -> leaves_type_or_diagnostic st b st'.
Proof.
  intros Hpkg H. unfold expr_dot in H. open_pass H.
  destruct (ast_child a) as [lhs|] eqn:Hc; [|discriminate].
  cbn beta iota in H.
  destruct (ast_childidx a 1) as [rhs|] eqn:Hr; [|discriminate].
  cbn beta iota in H.
  specialize (Hpkg lhs rhs eq_refl eq_refl).
  destruct (ast_type lhs) as [t|] eqn:Ht.
  - clear Hpkg. crunch H; finish H.
  - destruct (ast_id rhs) eqn:Hid; try discriminate H.
    + destruct (Hpkg eq_refl eq_refl) as [Hg Hn].
      destruct (ast_get E (Scope c a lhs) (ast_name lhs)) as [package|] eqn:Hg';
        [|congruence].
      crunch H; finish H.
    + clear Hpkg. crunch H; finish H.
Qed.

Lemma expr_reference_outcome c a st b st' :
  (forall id def,
      ast_child a = Some id ->
      ast_get E (here c a) (ast_name id) = Some def ->
      ast_id def <> TK_PACKAGE /\
      (In (ast_id def) [TK_FVAR; TK_FLET; TK_PARAM] ->
       ast_type def <> None) /\
      (In (ast_id def) [TK_TYPE; TK_CLASS; TK_ACTOR] ->
       forall def_id,
         ast_child def = Some def_id ->
         nominal_type E (here c a) None (ast_name def_id) <> None)) ->
  expr_reference E c a st = Some (b, st') -> leaves_type_or_diagnostic st b st'.
Proof.
  intros Href H. unfold expr_reference in H. open_pass H.
  destruct (ast_child a) as [id|] eqn:Hc; [|discriminate].
  cbn beta iota in H. specialize (Href id).
  destruct (ast_get E (here c a) (ast_name id)) as [def|] eqn:Hg.
  - destruct (Href def eq_refl eq_refl) as (Hnp & Hty & Hnom).
    destruct (ast_id def) eqn:Hid; try discriminate; try congruence;
      cbn [In] in Hty, Hnom.
    + (* TK_TYPE *)
      destruct (ast_child def) as [i|]; [|discriminate].
      assert (nominal_type E (here c a) None (ast_name i) <> None)
        by (apply Hnom; [tauto | reflexivity]).
      finish H.
    + destruct (ast_child def) as [i|]; [|discriminate].
      assert (nominal_type E (here c a) None (ast_name i) <> None)
        by (apply Hnom; [tauto | reflexivity]).
      finish H.
    + destruct (ast_child def) as [i|]; [|discriminate].
      assert (nominal_type E (here c a) None (ast_name i) <> None)
        by (apply Hnom; [tauto | reflexivity]).
      finish H.
    + (* TK_FVAR *)
      destruct (def_before_use def a (ast_name id) st) as [[ok s]|] eqn:Hd;
        [|discriminate].
      apply def_before_use_run in Hd.
      destruct Hd as [[-> ->] | (-> & Hs & He)]; cbn in H;
        injection H as <- <-; unfold leaves_type_or_diagnostic; cbn;
        (split; intros ?; try discriminate; split; auto).
    + destruct (def_before_use def a (ast_name id) st) as [[ok s]|] eqn:Hd;
        [|discriminate].
      apply def_before_use_run in Hd.
      destruct Hd as [[-> ->] | (-> & Hs & He)]; cbn in H;
        injection H as <- <-; unfold leaves_type_or_diagnostic; cbn;
        (split; intros ?; try discriminate; split; auto).
    + destruct (def_before_use def a (ast_name id) st) as [[ok s]|] eqn:Hd;
        [|discriminate].
      apply def_before_use_run in Hd.
      destruct Hd as [[-> ->] | (-> & Hs & He)]; cbn in H;
        injection H as <- <-; unfold leaves_type_or_diagnostic; cbn;
        (split; intros ?; try discriminate; split; auto).
    + (* TK_IDSEQ *)
      destruct (def_before_use def a (ast_name id) st) as [[ok s]|] eqn:Hd;
        [|discriminate].
      apply def_before_use_run in Hd.
      destruct Hd as [[-> ->] | (-> & Hs & He)]; cbn in H;
        injection H as <- <-; unfold leaves_type_or_diagnostic; cbn;
        (split; intros ?; try discriminate; split; auto);
        rewrite ?length_app; cbn; lia.
    + (* TK_NEW *) crunch H; finish H.
    + crunch H; finish H.
    + crunch H; finish H.
  - finish H.
Qed.


Lemma expr_fun_outcome c a st b st' :
  expr_fun E c a st = Some (b, st') ->
  slot st' = slot st /\
  (b = true -> errors st' = errors st) /\
  (b = false -> List.length (errors st) < List.length (errors st')).
Proof.
  intros H. unfold expr_fun in H. open_pass H.
  crunch H; purify; injection H as <- <-; cbn;
    (split; [reflexivity|]); (split; intros ?; try discriminate;
                                try reflexivity);
    rewrite ?length_app; cbn; lia.
Qed.

Lemma expr_return_outcome c a st b st' :
  expr_return E c a st = Some (b, st') ->
  slot st' = slot st /\
  (b = true -> errors st' = errors st) /\
  (b = false -> List.length (errors st) < List.length (errors st')).
Proof.
  intros H. unfold expr_return in H. open_pass H.
  crunch H; injection H as <- <-; cbn;
    (split; [reflexivity|]); (split; intros ?; try discriminate;
                                try reflexivity);
    rewrite ?length_app; cbn; lia.
Qed.

Lemma fatal_unless_outcome (m : M bool) st r st' :
  (forall b s, m st = Some (b, s) -> leaves_type_or_diagnostic st b s) ->
  fatal_unless m st = Some (r, st') ->
  (r = AST_OK -> slot st' <> None /\ errors st' = errors st) /\
  (r = AST_FATAL ->
   List.length (errors st) < List.length (errors st') /\ slot st' = slot st).
Proof.
  intros Hm H. unfold fatal_unless, bind, ret in H.
  destruct (m st) as [[b s]|] eqn:Hr; [|discriminate].
  destruct (Hm b s eq_refl) as [Hok Hno].
  destruct b; injection H as <- <-; split; intros ?; try discriminate; auto.
Qed.

Lemma not_implemented_outcome a msg st r st' :
  not_implemented a msg st = Some (r, st') ->
  (r = AST_OK -> slot st' <> None /\ errors st' = errors st) /\
  (r = AST_FATAL ->
   List.length (errors st) < List.length (errors st') /\ slot st' = slot st).
Proof.
  unfold not_implemented, bind, ast_error, ret. intros H.
  injection H as <- <-. split; intros ?; try discriminate.
  cbn. rewrite length_app. cbn. split; [lia | reflexivity].
Qed.

(** *** Where a bare marker comes from *)

Lemma seq_scan_last sc error (kids : list ast) :
  forall k acc,
    snd (fold_left
           (fun (acc : bool * option ast) child =>
              let type := ast_type child in
              (fst acc || is_subtype E sc (Some error) type, type))
           (k :: kids) acc) =
    match last (map Some (k :: kids)) None with
    | Some x => ast_type x
    | None => None
    end.
Proof.
  induction kids as [|k' kids IH]; intros k acc; [reflexivity|].
  set (f := fun (acc : bool * option ast) (child : ast) =>
              let type := ast_type child in
              (fst acc || is_subtype E sc (Some error) type, type)) in *.
  change (fold_left f (k :: k' :: kids) acc)
    with (fold_left f (k' :: kids) (f acc k)).
  rewrite IH. reflexivity.
Qed.

Lemma seq_last_type c a first can_error type :
  ast_child a = Some first ->
  seq_scan E (here c a) (ast_from a TK_ERROR) (ast_kids a) = (can_error, type) ->
  exists child, ast_childlast a = Some child /\ ast_type child = type.
Proof.
  unfold seq_scan, ast_child, ast_childlast. intros Hc Hscan.
  destruct (ast_kids a) as [|k kids]; [discriminate|].
  pose proof (seq_scan_last (here c a) (ast_from a TK_ERROR) kids k
                (false, None)) as Hl.
  cbv zeta in Hscan, Hl. rewrite Hscan in Hl. cbn [snd] in Hl.
  destruct (last (map Some (k :: kids)) None) as [x|] eqn:Hk.
  - exists x. split; [reflexivity | now symmetry].
  - exfalso. clear - Hk. revert k Hk.
    induction kids as [|k' kids IH]; intros k Hk; [discriminate|].
    exact (IH k' Hk).
Qed.

Lemma firstn2_hd (kids : list ast) x :
  hd_error kids = Some x -> In x (firstn 2 kids).
Proof. destruct kids; cbn; [discriminate | intros [= ->]; now left]. Qed.

Lemma firstn2_snd (kids : list ast) x :
  nth_error kids 1 = Some x -> In x (firstn 2 kids).
Proof.
  destruct kids as [|k [|k' kids]]; cbn; try discriminate.
  intros [= ->]. right. now left.
Qed.

Lemma type_for_fun_kind def st fn st' :
  type_for_fun def st = Some (fn, st') -> ast_id fn = ast_id def.
Proof.
  unfold type_for_fun, bind, assert, crash, ret. intros H.
  destruct (is_tk def TK_NEW || is_tk def TK_BE || is_tk def TK_FUN);
    [|discriminate].
  destruct (ast_kids def) as [|? [|? [|? [|params [|? [|? ?]]]]]];
    try discriminate.
  destruct (ast_id params);
    try (injection H as <- _; reflexivity);
    destruct (param_types _ _ st) as [[ty s]|]; try discriminate;
    injection H as <- _; reflexivity.
Qed.

Lemma bare_marker_origin c a st r st' t :
  type_expr E c a st = Some (r, st') ->
  slot st' = Some t ->
  ast_id t = TK_ERROR ->
  slot st' = slot st \/
  (ast_id a = TK_ERROR /\ t = ast_from a TK_ERROR) \/
  (ast_id a = TK_SEQ /\ t = ast_from a TK_ERROR /\
   exists child lastT,
     ast_childlast a = Some child /\ ast_type child = Some lastT /\
     is_subtype E (here c a) (Some lastT) (Some (ast_from a TK_ERROR))
     = true) \/
  type_sources E c a t.
Proof.
  intros H Hslot Ht. unfold type_sources. unfold type_expr in H.
  destruct (ast_id a) eqn:Hid;
    unfold fatal_unless, not_implemented in H.
  all: try (unfold expr_seq in H; open_pass H;
            destruct (ast_child a) as [first|] eqn:Hc; [|discriminate H];
            cbn beta iota in H;
            destruct (seq_scan E (here c a) (ast_from a TK_ERROR) (ast_kids a))
              as [can_error type] eqn:Hscan;
            destruct (seq_last_type c a Hc Hscan) as (child & Hlast & Hty)).
  all: unfold expr_field, expr_fun, expr_continue, expr_return,
      expr_arithmetic, expr_minus, expr_shift, expr_order, expr_compare,
      expr_identity, expr_logical, expr_not, expr_assign, expr_consume,
      expr_dot, expr_qualify, expr_call, expr_if, expr_while, expr_repeat,
      expr_tuple, expr_reference, expr_this, expr_literal, expr_error in H;
    unfold def_before_use, type_union in H;
    unfold ast_child, ast_childidx in *;
    open_pass H; crunch H;
    repeat match goal with
           | Hu : type_for_fun _ _ = Some _ |- _ =>
               pose proof (type_for_fun_kind _ _ Hu);
               apply type_for_fun_pure in Hu
           end;
    purify; injection H as <- <-; cbn [slot] in *;
    try (left; reflexivity).
  all: try (injection Hslot as <-).
  all: try discriminate Ht.
  all: try congruence.
  all: try (right; left; split; reflexivity).
  all: try (right; right; right;
            eauto 12 using firstn2_hd, firstn2_snd; fail).
  all: try (right; right; left; split; [reflexivity|];
            split; [reflexivity|]; eauto 8; fail).
Qed.

(** C4, as the code has it.  The pass makes a bare [TK_ERROR] marker in two
    places only: [expr_error] attaches one, and the marker that [expr_seq]
    makes becomes the type of the sequence when some child may error and
    the last child's type is a subtype of the marker.  Whatever the node,
    when the slot holds a bare marker after the visit, the marker is one of
    these two, or it was in the slot before the visit, or it is one of the
    pointers the visit copies ([type_sources]): the type of a child (the
    only child of a [TK_TUPLE], the last child of a [TK_SEQ], an operand, a
    branch of a [TK_IF], the left side of a [TK_ASSIGN], the initialiser of
    a field), a declared type, the type of the definition a name resolves
    to, the result of a method type, an element of a tuple type, or what a
    nominal constructor returns.  A [TK_SEQ] gets a bare marker only when
    its last child's type is a bare marker or a subtype of the marker, and
    it does get one when the last child's type is a bare marker that the
    engine relates to the marker (or when no child may error).  A field or
    parameter without a declared type gets its initialiser's type as it is,
    and a [TK_TUPLE] with one child that child's type as it is.  A method
    whose body type is the bare marker is rejected with "function body
    always results in an error". *)
Theorem bare_error_marker_sources (c : context) (st : pass_state) :
  (forall a,
      ast_id a = TK_ERROR -> ctx_sibling c = None ->
      type_expr E c a st =
        Some (AST_OK, PassState (Some (ast_from a TK_ERROR)) (errors st))) /\
  (forall a front lastT,
      ast_id a = TK_SEQ ->
      map ast_type (ast_kids a) = map Some (front ++ [lastT]) ->
      let error := ast_from a TK_ERROR in
      exists ty,
        type_expr E c a st =
          Some (AST_OK, PassState (Some ty) (errors st)) /\
        (ast_id ty = TK_ERROR ->
         ast_id lastT = TK_ERROR \/
         is_subtype E (here c a) (Some lastT) (Some error) = true) /\
        (ast_id lastT = TK_ERROR ->
         existsb (fun t => is_subtype E (here c a) (Some error) (Some t))
           (front ++ [lastT]) = false \/
         is_subtype E (here c a) (Some lastT) (Some error) = true \/
         is_subtype E (here c a) (Some error) (Some lastT) = true ->
         ast_id ty = TK_ERROR)) /\
  (forall a id type init rest it,
      In (ast_id a) [TK_FVAR; TK_FLET; TK_PARAM] ->
      ast_kids a = id :: type :: init :: rest ->
      ast_id type = TK_NONE ->
      ast_id init <> TK_NONE ->
      ast_type init = Some it ->
      type_expr E c a st = Some (AST_OK, PassState (Some it) (errors st))) /\
  (forall a type can_error body bt def last,
      In (ast_id a) [TK_NEW; TK_BE; TK_FUN] ->
      ast_childidx a 4 = Some type ->
      ast_childidx a 5 = Some can_error ->
      ast_childidx a 6 = Some body ->
      ast_id body <> TK_NONE ->
      ctx_enclosing_type c = Some def ->
      ast_type body = Some bt ->
      ast_id bt = TK_ERROR ->
      ast_childlast body = Some last ->
      type_expr E c a st =
        Some (AST_FATAL,
              PassState (slot st)
                (errors st ++
                 [Diag (ast_line type) (ast_pos type)
                    "function body always results in an error";
                  Diag (ast_line last) (ast_pos last)
                    "function body expression is here"]))) /\
  (forall a r st' t,
      type_expr E c a st = Some (r, st') ->
      slot st' = Some t ->
      ast_id t = TK_ERROR ->
      slot st' = slot st \/
      (ast_id a = TK_ERROR /\ t = ast_from a TK_ERROR) \/
      (ast_id a = TK_SEQ /\ t = ast_from a TK_ERROR /\
       exists child lastT,
         ast_childlast a = Some child /\ ast_type child = Some lastT /\
         is_subtype E (here c a) (Some lastT) (Some (ast_from a TK_ERROR))
         = true) \/
      type_sources E c a t) /\
  (forall a child,
      ast_id a = TK_TUPLE ->
      ast_kids a = [child] ->
      type_expr E c a st =
        Some (AST_OK, PassState (ast_type child) (errors st))).
Proof.
  repeat split.
  6: { intros a child Ha Hk. unfold type_expr. rewrite Ha.
       unfold fatal_unless, expr_tuple, bind, ast_settype, ret.
       rewrite Hk. reflexivity. }
  5: { intros a r st' t. apply bare_marker_origin. }
  - intros a Ha Hs. unfold type_expr. rewrite Ha.
    unfold fatal_unless, expr_error, bind. rewrite Hs. reflexivity.
  - intros a front lastT Ha Hm error.
    pose proof (@expr_seq_run c a front lastT st Hm) as Hrun.
    cbv zeta in Hrun. fold error in Hrun.
    unfold type_expr. rewrite Ha. rewrite (fatal_unless_run _ _ Hrun).
    eexists. split; [reflexivity|].
    destruct (existsb _ (front ++ [lastT])) eqn:Hce;
      destruct (is_subtype E (here c a) (Some lastT) (Some error)) eqn:Hle;
      destruct (is_subtype E (here c a) (Some error) (Some lastT)) eqn:Hel;
      cbn; split; auto;
      try (intros H; discriminate).
    intros _ [H | [H | H]]; discriminate.
  - intros a id type init rest it Ha Hk Ht Hi Hit.
    assert (Hd : type_expr E c a = fatal_unless (expr_field E c a)).
    { unfold type_expr. cbn in Ha.
      destruct Ha as [H|[H|[H|[]]]]; rewrite <- H; reflexivity. }
    rewrite Hd.
    unfold fatal_unless, expr_field, bind, ast_childidx. rewrite Hk.
    cbn [nth_error deref ret].
    rewrite (is_tk_true _ Ht), (is_tk_false _ Hi), Hit. reflexivity.
  - intros a type can_error body bt def last Ha H4 H5 H6 Hb Hdef Hbt He Hl.
    assert (Hd : type_expr E c a = fatal_unless (expr_fun E c a)).
    { unfold type_expr. cbn in Ha.
      destruct Ha as [H|[H|[H|[]]]]; rewrite <- H; reflexivity. }
    rewrite Hd.
    unfold fatal_unless, expr_fun, bind. rewrite H4, H5, H6.
    cbn [deref ret]. rewrite (is_tk_false _ Hb), Hdef, Hbt. cbn [deref ret].
    rewrite (is_tk_true _ He), Hl. unfold ast_error, ret. cbn.
    rewrite <- app_assoc. reflexivity.
Qed.



(** *** The outcome of a component does not depend on the starting state *)

Lemma uniform_ret {A} (x : A) : uniform (ret x).
Proof.
  right. exists x, Keep, []. intros [s e]. unfold ret. cbn.
  now rewrite app_nil_r.
Qed.

Lemma uniform_crash {A} : uniform (@crash A).
Proof. left. reflexivity. Qed.

Lemma uniform_deref {A} (p : option A) : uniform (deref p).
Proof. destruct p; [apply uniform_ret | apply uniform_crash]. Qed.

Lemma uniform_assert b : uniform (assert b).
Proof. destruct b; [apply uniform_ret | apply uniform_crash]. Qed.

Lemma uniform_error n msg : uniform (ast_error n msg).
Proof.
  destruct n as [n|]; [|left; reflexivity].
  right. exists tt, Keep, [Diag (ast_line n) (ast_pos n) msg].
  reflexivity.
Qed.

Lemma uniform_settype t : uniform (ast_settype t).
Proof. right. exists tt, (Attach t), []. intros [s e]. unfold ast_settype. cbn.
  now rewrite app_nil_r.
Qed.

Lemma uniform_bind {A B} (m : M A) (k : A -> M B) :
  uniform m -> (forall x, uniform (k x)) -> uniform (bind m k).
Proof.
  intros [Hm | (x & e & new & Hm)] Hk.
  - left. intros st. unfold bind. now rewrite Hm.
  - destruct (Hk x) as [Hx | (y & e' & new' & Hx)].
    + left. intros st. unfold bind. now rewrite Hm, Hx.
    + right.
      exists y, (match e' with Keep => e | Attach _ => e' end), (new ++ new')%list.
      intros st. unfold bind. rewrite Hm, Hx. cbn.
      rewrite app_assoc. destruct e'; reflexivity.
Qed.

Ltac uni_step :=
  first
    [ apply uniform_ret | apply uniform_crash | apply uniform_deref
    | apply uniform_assert | apply uniform_error | apply uniform_settype
    | apply uniform_bind; [|intros ?]
    | match goal with
      | |- uniform (match ?x with _ => _ end) => destruct x
      end ].

Ltac uni := repeat uni_step.

Lemma uniform_type_builtin c v n name : uniform (type_builtin E c v n name).
Proof. unfold type_builtin. uni. Qed.

Lemma uniform_type_int_or_bool c v n : uniform (type_int_or_bool E c v n).
Proof.
  unfold type_int_or_bool, type_bool, type_int.
  repeat first [apply uniform_type_builtin | uni_step].
Qed.

Lemma uniform_type_union c a l r : uniform (type_union E c a l r).
Proof. unfold type_union. uni. Qed.

Lemma uniform_param_types ps : forall types, uniform (param_types types ps).
Proof.
  induction ps as [|p ps IH]; intros types; cbn [param_types]; uni.
  apply IH.
Qed.

Lemma uniform_type_for_fun def : uniform (type_for_fun def).
Proof.
  unfold type_for_fun.
  repeat first [apply uniform_param_types | uni_step].
Qed.

Lemma uniform_this_typeargs c a tps :
  forall typeargs, uniform (this_typeargs E c a typeargs tps).
Proof.
  induction tps as [|p tps IH]; intros typeargs; cbn [this_typeargs]; uni.
  apply IH.
Qed.

Lemma uniform_tuple_rest a siblings :
  forall child, uniform (tuple_rest a child siblings).
Proof.
  induction siblings as [|n siblings IH]; intros child; cbn [tuple_rest]; uni.
  apply IH.
Qed.

Lemma uniform_def_before_use def use name :
  uniform (def_before_use def use name).
Proof. unfold def_before_use. uni. Qed.

Ltac uni_all :=
  repeat first
    [ apply uniform_type_builtin | apply uniform_type_int_or_bool
    | apply uniform_type_union | apply uniform_type_for_fun
    | apply uniform_this_typeargs | apply uniform_tuple_rest
    | apply uniform_def_before_use | uni_step ].

Lemma uniform_type_expr c a : uniform (type_expr E c a).
Proof.
  unfold type_expr.
  destruct (ast_id a);
    unfold fatal_unless, not_implemented,
      expr_field, expr_fun, expr_seq, expr_continue, expr_return,
      expr_arithmetic, expr_minus, expr_shift, expr_order, expr_compare,
      expr_identity, expr_logical, expr_not, expr_assign, expr_consume,
      expr_dot, expr_qualify, expr_call, expr_if, expr_while, expr_repeat,
      expr_tuple, expr_reference, expr_this, expr_literal, expr_error,
      type_arithmetic, type_bool, type_int, released_twice;
    uni_all.
Qed.


(** ** Further properties of the components *)

(** X1.  [def_before_use] compares source positions only.  It returns [true], and
    leaves the state alone, exactly when the definition is on an earlier
    line than the use, or on the same line at a column that is not after the
    use's; otherwise it returns [false] after two diagnostics, the first at
    the use and the second at the definition.  Of two nodes, at least one is
    before the other: a node counts as defined before itself. *)
Theorem def_before_use_positions
    (def use : ast) (name : string) (st : pass_state) :
  (def_before_use def use name st = Some (true, st) <->
   ast_line def < ast_line use \/
   (ast_line def = ast_line use /\ ast_pos def <= ast_pos use)) /\
  (def_before_use def use name st =
     Some (false,
           PassState (slot st)
             (errors st ++
                [Diag (ast_line use) (ast_pos use)
                   ("declaration of '" ++ name ++ "' appears after use");
                 Diag (ast_line def) (ast_pos def)
                   ("declaration of '" ++ name ++ "' appears here")])) <->
   ast_line use < ast_line def \/
   (ast_line def = ast_line use /\ ast_pos use < ast_pos def)) /\
  (def_before_use def use name st = Some (true, st) \/
   def_before_use use def name st = Some (true, st)).
Proof.
  unfold def_before_use, bind, ast_error, ret.
  destruct (Nat.ltb_spec (ast_line use) (ast_line def));
    destruct (Nat.eqb_spec (ast_line def) (ast_line use));
    destruct (Nat.ltb_spec (ast_pos use) (ast_pos def));
    destruct (Nat.ltb_spec (ast_line def) (ast_line use));
    destruct (Nat.eqb_spec (ast_line use) (ast_line def));
    destruct (Nat.ltb_spec (ast_pos def) (ast_pos use));
    cbn; rewrite <- ?app_assoc; cbn [app]; try lia;
    (repeat split; try (intros; discriminate); try (intros; lia);
     try (left; reflexivity); try (right; reflexivity); try tauto;
     try (intros _; reflexivity)).
Qed.

(** X2.  A negative index is read by [tuple_index] as index 1: the loop is
    skipped, the test against 0 fails, and what remains is the path taken
    for 1. *)
Theorem tuple_index_negative (a : ast) (index : Z) :
  (index < 0)%Z ->
  tuple_index a index = tuple_index a 1.
Proof.
  intros Hneg. unfold tuple_index.
  destruct (is_tk a TK_TUPLETYPE); [|reflexivity].
  simp tuple_index_walk.
  destruct (Z_lt_dec 1 index) as [Hlt | Hge]; [lia|].
  destruct (Z_lt_dec 1 1) as [Hlt | Hge']; [lia|].
  cbn. destruct (Z.eqb_spec index 0); [lia | reflexivity].
Qed.

Lemma expr_tuple_spine (c : context) (a : ast) (t t' : ast) (ts : list ast)
    (st : pass_state) :
  map ast_type (ast_kids a) = map Some (t :: t' :: ts) ->
  exists ty,
    expr_tuple c a st = Some (true, PassState (Some ty) (errors st)) /\
    spine_of ty (t :: t' :: ts).
Proof.
  intros Hm. unfold expr_tuple.
  destruct (ast_kids a) as [|child [|second siblings]]; try discriminate.
  cbn [map] in Hm. injection Hm as Hc Hn Hrest.
  assert (Hm' : map ast_type (second :: siblings) = map Some (t' :: ts))
    by (cbn [map]; congruence).
  destruct (@tuple_rest_spine a second siblings t' ts st Hm')
    as (r & Hr & Hshape).
  unfold bind, deref, ret, ast_settype. rewrite Hc, Hr. cbn.
  eexists. split; [reflexivity|].
  destruct ts as [|t'' ts].
  - subst r. apply spine_two; reflexivity.
  - apply spine_cons with (t' := r); [reflexivity | reflexivity | exact Hshape].
Qed.

Lemma nth_error_types (kids : list ast) :
  forall ts n,
    map ast_type kids = map Some ts ->
    match nth_error kids n with
    | Some k => ast_type k
    | None => None
    end = nth_error ts n.
Proof.
  induction kids as [|k kids IH]; intros [|t ts] n Hm; try discriminate.
  - destruct n; reflexivity.
  - cbn [map] in Hm. injection Hm as Hk Hrest.
    destruct n; cbn; [exact Hk | now apply IH].
Qed.

(** X3.  [expr_tuple] and [tuple_index] are inverse to each other.  On the type
    that the pass attaches to a [TK_TUPLE] with two or more typed children,
    the last of which is not itself of a tuple type, [tuple_index] at
    [i >= 0] returns the type of the [i]-th child, and nothing once [i]
    is past the last child. *)
Theorem tuple_index_after_expr_tuple
    (c : context) (a : ast) (ts : list ast) (st : pass_state) :
  ast_id a = TK_TUPLE ->
  map ast_type (ast_kids a) = map Some ts ->
  2 <= List.length ts ->
  (forall d, ast_id (last ts d) <> TK_TUPLETYPE) ->
  exists ty,
    type_expr E c a st = Some (AST_OK, PassState (Some ty) (errors st)) /\
    forall i,
      (0 <= i)%Z ->
      tuple_index ty i =
        Some match ast_childidx a (Z.to_nat i) with
             | Some child => ast_type child
             | None => None
             end.
Proof.
  intros Ha Hm Hlen Hlast.
  destruct ts as [|t [|t' ts]]; cbn in Hlen; try lia.
  destruct (expr_tuple_spine c a st Hm) as (ty & Hrun & Hsp).
  exists ty. split.
  - unfold type_expr. rewrite Ha. now rewrite (fatal_unless_run _ _ Hrun).
  - intros i Hi. rewrite (tuple_index_spine Hsp Hlast Hi).
    unfold ast_childidx. now rewrite (@nth_error_types _ _ (Z.to_nat i) Hm).
Qed.

Lemma spine_of_length t es : spine_of t es -> 2 <= List.length es.
Proof. induction 1; cbn in *; lia. Qed.

(** X4.  A tuple type in last position is not told apart from the rest of the
    spine.  When the last child of a [TK_TUPLE] has a [TK_TUPLETYPE] as its
    type, [tuple_index] at the position of that child returns the first
    element of the child's type, not the child's type. *)
Theorem tuple_index_flattens_last_tuple
    (c : context) (a : ast) (ts : list ast) (lastT : ast) (st : pass_state) :
  ast_id a = TK_TUPLE ->
  map ast_type (ast_kids a) = map Some (ts ++ [lastT])%list ->
  1 <= List.length ts ->
  ast_id lastT = TK_TUPLETYPE ->
  exists ty,
    type_expr E c a st = Some (AST_OK, PassState (Some ty) (errors st)) /\
    tuple_index ty (Z.of_nat (List.length ts)) = Some (ast_child lastT).
Proof.
  intros Ha Hm Hlen HT.
  destruct ts as [|t ts]; cbn in Hlen; try lia.
  assert (exists t' ts', (t :: ts ++ [lastT])%list = t :: t' :: ts')
    as (t' & ts' & Heq).
  { destruct ts as [|u ts]; cbn; eauto. }
  cbn [app] in Hm. rewrite Heq in Hm.
  destruct (expr_tuple_spine c a st Hm) as (ty & Hrun & Hsp).
  exists ty. split.
  - unfold type_expr. rewrite Ha. now rewrite (fatal_unless_run _ _ Hrun).
  - rewrite <- Heq in Hsp. clear - Hsp HT.
    unfold tuple_index. rewrite (spine_of_id Hsp).
    revert ty t Hsp. induction ts as [|u ts IH]; intros ty t Hsp.
    + cbn in *. inversion Hsp as [s x y Hid Hk | s x s' es Hid Hk Hs']; subst.
      * simp tuple_index_walk. cbn. unfold ast_childidx. rewrite Hk. cbn.
        now rewrite (is_tk_true _ HT).
      * apply spine_of_length in Hs'. cbn in Hs'. lia.
    + cbn [app List.length] in *.
      inversion Hsp as [s x y Hid Hk | s x s' es Hid Hk Hs']; subst.
      * destruct ts; discriminate.
      * rewrite Nat2Z.inj_succ.
        specialize (IH _ _ Hs').
        assert (Hn : (1 <= Z.of_nat (S (List.length ts)))%Z) by lia.
        revert IH Hn. generalize (Z.of_nat (S (List.length ts))).
        intros n IH Hn.
        simp tuple_index_walk.
        destruct (Z_lt_dec 1 (Z.succ n)); [|lia].
        cbn. unfold ast_childidx. rewrite Hk. cbn.
        rewrite (spine_of_id Hs').
        replace (Z.succ n - 1)%Z with n by lia.
        exact IH.
Qed.

Lemma param_types_run (params : list ast) :
  forall types tys st,
    map (fun p => ast_childidx p 1) params = map Some tys ->
    param_types types params st =
      Some (Node (ast_id types) (ast_line types) (ast_pos types)
              (ast_name types) (ast_int types) (ast_type types)
              (ast_kids types ++ tys), st).
Proof.
  induction params as [|p params IH]; intros types tys st Hm.
  - destruct tys; [|discriminate]. cbn. rewrite app_nil_r.
    destruct types; reflexivity.
  - destruct tys as [|t tys]; [discriminate|].
    cbn [map] in Hm. injection Hm as Hp Hrest.
    cbn [param_types]. unfold bind, deref, ret. rewrite Hp.
    rewrite (@IH _ tys st Hrest). cbn. now rewrite <- app_assoc.
Qed.

Lemma type_for_fun_run
    (def cap id typeparams params result throws : ast) (rest tys : list ast)
    (st : pass_state) :
  In (ast_id def) [TK_NEW; TK_BE; TK_FUN] ->
  ast_kids def =
    cap :: id :: typeparams :: params :: result :: throws :: rest ->
  (ast_id params = TK_PARAMS ->
   map (fun p => ast_childidx p 1) (ast_kids params) = map Some tys) ->
  type_for_fun def st =
    Some (Node (ast_id def) (ast_line def) (ast_pos def) "" 0 None
            [cap; id; typeparams;
             if is_tk params TK_PARAMS
             then Node TK_TYPES (ast_line def) (ast_pos def) "" 0 None tys
             else params;
             result; throws; ast_from def TK_NONE],
          st).
Proof.
  intros Hid Hk Hp. unfold type_for_fun, bind, assert, ret.
  assert (Hkind : is_tk def TK_NEW || is_tk def TK_BE || is_tk def TK_FUN
                  = true).
  { cbn in Hid. destruct Hid as [H | [H | [H | []]]];
      symmetry in H; rewrite (is_tk_true _ H);
      rewrite ?orb_true_r; reflexivity. }
  rewrite Hkind, Hk.
  destruct (token_eq_dec (ast_id params) TK_PARAMS) as [Hps | Hps].
  - rewrite Hps, (is_tk_true _ Hps).
    rewrite (@param_types_run _ _ _ st (Hp Hps)). reflexivity.
  - rewrite (is_tk_false _ Hps).
    destruct (ast_id params); try congruence; reflexivity.
Qed.

(** X5.  [type_for_fun] on a [TK_NEW], [TK_BE] or [TK_FUN] with its six leading
    children returns, without touching the state, an untyped node of the
    same kind with seven children: the capability, the name, the type
    parameters, the parameters, the result, the [?] marker, each the
    definition's own child, and a fresh [TK_NONE].  When the parameters are
    a [TK_PARAMS] node they are replaced by a fresh [TK_TYPES] node, at the
    position of the definition, whose children are the second children of
    the parameters, in order. *)
Theorem type_for_fun_shape
    (def cap id typeparams params result throws : ast) (rest tys : list ast)
    (st : pass_state) :
  In (ast_id def) [TK_NEW; TK_BE; TK_FUN] ->
  ast_kids def =
    cap :: id :: typeparams :: params :: result :: throws :: rest ->
  (ast_id params = TK_PARAMS ->
   map (fun p => ast_childidx p 1) (ast_kids params) = map Some tys) ->
  exists fn third,
    type_for_fun def st = Some (fn, st) /\
    ast_id fn = ast_id def /\
    ast_type fn = None /\
    ast_kids fn =
      [cap; id; typeparams; third; result; throws; ast_from def TK_NONE] /\
    (ast_id params <> TK_PARAMS -> third = params) /\
    (ast_id params = TK_PARAMS ->
     third = Node TK_TYPES (ast_line def) (ast_pos def) "" 0 None tys).
Proof.
  intros Hid Hk Hp.
  pose proof (@type_for_fun_run _ _ _ _ _ _ _ _ _ st Hid Hk Hp) as Hfn.
  do 2 eexists. split; [exact Hfn|]. cbn.
  repeat split.
  - intros Hps. now rewrite (is_tk_false _ Hps).
  - intros Hps. now rewrite (is_tk_true _ Hps).
Qed.

(** X6.  A call of a method reference gets the method's declared result.  A
    [TK_REFERENCE] that resolves to a method is accepted, and the type it
    gets is what [type_for_fun] returns on the definition: the node of the
    definition's kind with the capability, the name, the type parameters,
    the parameter types, the result, the [?] marker and a [TK_NONE].  A
    [TK_CALL] whose left child has that type gets the definition's result
    (its fifth child) as its type when the receiver capability is a
    sub-capability of the method's, and is rejected with one diagnostic at
    the call otherwise. *)
Theorem call_of_method_reference
    (c : context) (ref name def cap id typeparams params result throws : ast)
    (rest tys : list ast) (st : pass_state) :
  ast_id ref = TK_REFERENCE ->
  ast_child ref = Some name ->
  ast_get E (here c ref) (ast_name name) = Some def ->
  In (ast_id def) [TK_NEW; TK_BE; TK_FUN] ->
  ast_kids def =
    cap :: id :: typeparams :: params :: result :: throws :: rest ->
  (ast_id params = TK_PARAMS ->
   map (fun p => ast_childidx p 1) (ast_kids params) = map Some tys) ->
  let fn :=
    Node (ast_id def) (ast_line def) (ast_pos def) "" 0 None
      [cap; id; typeparams;
       if is_tk params TK_PARAMS
       then Node TK_TYPES (ast_line def) (ast_pos def) "" 0 None tys
       else params;
       result; throws; ast_from def TK_NONE] in
  type_for_fun def st = Some (fn, st) /\
  type_expr E c ref st = Some (AST_OK, PassState (Some fn) (errors st)) /\
  forall (c' : context) (call lhs : ast) (st' : pass_state),
    ast_id call = TK_CALL ->
    ast_child call = Some lhs ->
    ast_type lhs = Some fn ->
    type_expr E c' call st' =
      if is_cap_sub_cap E (cap_for_receiver E (here c' call))
           (cap_for_fun E fn)
      then Some (AST_OK, PassState (Some result) (errors st'))
      else Some (AST_FATAL,
                 PassState (slot st')
                   (errors st' ++
                      [Diag (ast_line call) (ast_pos call)
                         "receiver capability is not a subtype of method capability"])).
Proof.
  intros Href Hname Hget Hid Hk Hp fn.
  pose proof (@type_for_fun_run _ _ _ _ _ _ _ _ _ st Hid Hk Hp) as Hfn.
  fold fn in Hfn.
  split; [exact Hfn | split].
  - unfold type_expr. rewrite Href.
    unfold fatal_unless, expr_reference, bind, deref, ret, ast_settype.
    rewrite Hname, Hget.
    cbn in Hid. destruct Hid as [H | [H | [H | []]]]; rewrite <- H in *;
      rewrite Hfn; reflexivity.
  - intros c' call lhs st' Hcall Hlhs Hty.
    unfold type_expr. rewrite Hcall.
    unfold fatal_unless, expr_call, bind, deref, ret, ast_settype, ast_error.
    rewrite Hlhs, Hty. subst fn. cbn [ast_id].
    cbn in Hid. destruct Hid as [H | [H | [H | []]]]; rewrite <- H;
      destruct (is_cap_sub_cap E _ _); reflexivity.
Qed.

(** X7.  A field or parameter ([TK_FVAR], [TK_FLET], [TK_PARAM]) with neither a
    declared type nor an initialiser is rejected with a diagnostic at the
    node.  With an initialiser only, it is accepted with the initialiser's
    type slot as it is.  With a declared type, the declared type is what
    gets attached, never the initialiser's; it is accepted exactly when
    there is no initialiser or the initialiser's type is a subtype of the
    declared type, and the diagnostic of the rejection is at the
    initialiser. *)
Theorem field_type_declared_or_inferred
    (c : context) (a type init : ast) (st : pass_state) :
  In (ast_id a) [TK_FVAR; TK_FLET; TK_PARAM] ->
  ast_childidx a 1 = Some type ->
  ast_childidx a 2 = Some init ->
  (ast_id type = TK_NONE -> ast_id init = TK_NONE ->
   type_expr E c a st =
     Some (AST_FATAL,
           PassState (slot st)
             (errors st ++
                [Diag (ast_line a) (ast_pos a)
                   "field/param needs a type or an initialiser"]))) /\
  (ast_id type = TK_NONE -> ast_id init <> TK_NONE ->
   type_expr E c a st =
     Some (AST_OK, PassState (ast_type init) (errors st))) /\
  (ast_id type <> TK_NONE ->
   type_expr E c a st =
     if is_tk init TK_NONE
        || is_subtype E (here c a) (ast_type init) (Some type)
     then Some (AST_OK, PassState (Some type) (errors st))
     else Some (AST_FATAL,
                PassState (slot st)
                  (errors st ++
                     [Diag (ast_line init) (ast_pos init)
                        "field/param initialiser is not a subtype of the field/param type"]))).
Proof.
  intros Hid Ht Hi.
  assert (Hrun : type_expr E c a st = fatal_unless (expr_field E c a) st).
  { unfold type_expr. cbn in Hid.
    destruct Hid as [H | [H | [H | []]]]; rewrite <- H; reflexivity. }
  rewrite Hrun. unfold fatal_unless, expr_field, bind, deref, ret.
  rewrite Ht, Hi. unfold ast_error, ast_settype.
  repeat split.
  - intros HT HI. rewrite (is_tk_true _ HT), (is_tk_true _ HI). reflexivity.
  - intros HT HI. rewrite (is_tk_true _ HT), (is_tk_false _ HI). reflexivity.
  - intros HT. rewrite (is_tk_false _ HT). cbn.
    destruct (is_tk init TK_NONE); cbn; [reflexivity|].
    destruct (is_subtype E _ _ _); reflexivity.
Qed.

(** X8.  A [TK_INT], [TK_FLOAT] or [TK_STRING] literal gets
    [nominal_builtin] of [IntLiteral], [FloatLiteral] or [String].  When the
    builtin is not found the pass returns [AST_FATAL] and leaves the state
    as it was: no diagnostic is emitted. *)
Theorem literal_type_or_silent_failure
    (c : context) (a : ast) (st : pass_state) :
  In (ast_id a) [TK_INT; TK_FLOAT; TK_STRING] ->
  type_expr E c a st =
    match
      nominal_builtin E (here c a)
        match ast_id a with
        | TK_INT => "IntLiteral"
        | TK_FLOAT => "FloatLiteral"
        | _ => "String"
        end
    with
    | Some type => Some (AST_OK, PassState (Some type) (errors st))
    | None => Some (AST_FATAL, st)
    end.
Proof.
  intros Hid. unfold type_expr. cbn in Hid.
  destruct Hid as [H | [H | [H | []]]]; rewrite <- H;
    unfold fatal_unless, expr_literal, bind, ret, ast_settype;
    destruct (nominal_builtin E _ _); reflexivity.
Qed.

Lemma this_typeargs_run (c : context) (a : ast) (typeparams : list ast) :
  forall typeargs args st,
    map (fun tp =>
           match ast_child tp with
           | Some tp_id => nominal_type E (here c a) None (ast_name tp_id)
           | None => None
           end) typeparams = map Some args ->
    this_typeargs E c a typeargs typeparams st =
      Some (Node (ast_id typeargs) (ast_line typeargs) (ast_pos typeargs)
              (ast_name typeargs) (ast_int typeargs) (ast_type typeargs)
              (ast_kids typeargs ++ args), st).
Proof.
  induction typeparams as [|tp tps IH]; intros typeargs args st Hm.
  - destruct args; [|discriminate]. cbn. rewrite app_nil_r.
    destruct typeargs; reflexivity.
  - destruct args as [|x args]; [discriminate|].
    cbn [map] in Hm. injection Hm as Hp Hrest.
    cbn [this_typeargs]. unfold bind, deref, ret.
    destruct (ast_child tp) as [tp_id|]; [|discriminate].
    rewrite Hp. rewrite (@IH _ args st Hrest). cbn. now rewrite <- app_assoc.
Qed.

(** X9.  Inside a type declaration that is not a [TK_TYPE], [this] is
    accepted with no diagnostic.  Its type is a fresh
    [TK_NOMINAL] at the position of the node with five children: a
    [TK_NONE], the name of the enclosing type, the type arguments, the
    receiver capability and a [TK_NONE].  The type arguments are a
    [TK_TYPEARGS] node with [nominal_type] of each type parameter's name, in
    order, when the enclosing type has [TK_TYPEPARAMS], and a [TK_NONE]
    otherwise. *)
Theorem this_type_names_enclosing_type
    (c : context) (a def id typeparams : ast) (rest args : list ast)
    (st : pass_state) :
  ast_id a = TK_THIS ->
  ctx_enclosing_type c = Some def ->
  ast_id def <> TK_TYPE ->
  ast_kids def = id :: typeparams :: rest ->
  (ast_id typeparams = TK_TYPEPARAMS ->
   map (fun tp =>
          match ast_child tp with
          | Some tp_id => nominal_type E (here c a) None (ast_name tp_id)
          | None => None
          end) (ast_kids typeparams) = map Some args) ->
  type_expr E c a st =
    Some (AST_OK,
          PassState
            (Some (Node TK_NOMINAL (ast_line a) (ast_pos a) "" 0 None
                     [ast_from a TK_NONE;
                      ast_from_string a (ast_name id);
                      if is_tk typeparams TK_TYPEPARAMS
                      then Node TK_TYPEARGS (ast_line a) (ast_pos a) "" 0 None
                             args
                      else ast_from a TK_NONE;
                      ast_from a (cap_for_receiver E (here c a));
                      ast_from a TK_NONE]))
            (errors st)).
Proof.
  intros Ha Hdef Hkind Hk Hargs. unfold type_expr. rewrite Ha.
  unfold fatal_unless, expr_this, bind, deref, assert, ret, ast_settype.
  rewrite Hdef, (is_tk_false _ Hkind). unfold ast_child, ast_childidx.
  rewrite Hk. cbn.
  destruct (token_eq_dec (ast_id typeparams) TK_TYPEPARAMS) as [Htp | Htp].
  - rewrite (is_tk_true _ Htp).
    rewrite (@this_typeargs_run _ _ _ _ _ st (Hargs Htp)). reflexivity.
  - rewrite (is_tk_false _ Htp). reflexivity.
Qed.

(** X10.  Three ways a [TK_REFERENCE] is rejected, each leaving the type slot
    alone.  A name that scope lookup does not find: one diagnostic at the
    reference, which quotes the name.  A name bound to a local
    ([TK_IDSEQ]): never accepted, whatever the positions.  A name bound to a
    package when the parent of the reference is not a [TK_DOT]: one
    diagnostic at the reference. *)
Theorem reference_rejections
    (c : context) (ref name : ast) (st : pass_state) :
  ast_id ref = TK_REFERENCE ->
  ast_child ref = Some name ->
  (ast_get E (here c ref) (ast_name name) = None ->
   type_expr E c ref st =
     Some (AST_FATAL,
           PassState (slot st)
             (errors st ++
                [Diag (ast_line ref) (ast_pos ref)
                   ("can't find declaration of '" ++ ast_name name ++ "'")])))
  /\
  (forall def,
      ast_get E (here c ref) (ast_name name) = Some def ->
      ast_id def = TK_IDSEQ ->
      exists d new,
        type_expr E c ref st =
          Some (AST_FATAL, PassState (slot st) (errors st ++ d :: new)) /\
        diag_line d = ast_line ref /\ diag_pos d = ast_pos ref) /\
  (forall pkg parent,
      ast_get E (here c ref) (ast_name name) = Some pkg ->
      ast_id pkg = TK_PACKAGE ->
      ctx_parent c = Some parent ->
      ast_id parent <> TK_DOT ->
      type_expr E c ref st =
        Some (AST_FATAL,
              PassState (slot st)
                (errors st ++
                   [Diag (ast_line ref) (ast_pos ref)
                      "a package can only appear as a prefix to a type"]))).
Proof.
  intros Href Hname. unfold type_expr. rewrite Href.
  unfold fatal_unless, expr_reference, bind, deref, ret. rewrite Hname.
  repeat split.
  - intros ->. reflexivity.
  - intros def -> Hid. rewrite Hid.
    unfold def_before_use, bind, ast_error, ret.
    destruct (_ || _); cbn; rewrite <- ?app_assoc; cbn [app];
      do 2 eexists; (split; [reflexivity|]); split; reflexivity.
  - intros pkg parent -> Hid Hparent Hdot.
    rewrite Hid, Hparent, (is_tk_false _ Hdot). reflexivity.
Qed.

(** X11.  A [TK_REFERENCE] to a field or parameter whose definition is not
    positioned after the reference is accepted and gets the type slot of
    the definition as it is.  When the definition comes later it is
    rejected with the two diagnostics of [def_before_use], at the reference
    and at the definition. *)
Theorem reference_to_field_or_parameter
    (c : context) (ref name def : ast) (st : pass_state) :
  ast_id ref = TK_REFERENCE ->
  ast_child ref = Some name ->
  ast_get E (here c ref) (ast_name name) = Some def ->
  In (ast_id def) [TK_FVAR; TK_FLET; TK_PARAM] ->
  (ast_line def < ast_line ref \/
   (ast_line def = ast_line ref /\ ast_pos def <= ast_pos ref) ->
   type_expr E c ref st =
     Some (AST_OK, PassState (ast_type def) (errors st))) /\
  (ast_line ref < ast_line def \/
   (ast_line def = ast_line ref /\ ast_pos ref < ast_pos def) ->
   type_expr E c ref st =
     Some (AST_FATAL,
           PassState (slot st)
             (errors st ++
                [Diag (ast_line ref) (ast_pos ref)
                   ("declaration of '" ++ ast_name name
                      ++ "' appears after use");
                 Diag (ast_line def) (ast_pos def)
                   ("declaration of '" ++ ast_name name
                      ++ "' appears here")]))).
Proof.
  intros Href Hname Hget Hid.
  assert (Hrun : type_expr E c ref st =
            fatal_unless
              (ok <- def_before_use def ref (ast_name name) ;;
               if negb ok then ret false
               else ast_settype (ast_type def) ;; ret true) st).
  { unfold type_expr. rewrite Href.
    unfold fatal_unless, expr_reference. unfold bind at 1 2.
    rewrite Hname. cbn [deref ret]. rewrite Hget.
    cbn in Hid. destruct Hid as [H | [H | [H | []]]]; rewrite <- H;
      reflexivity. }
  rewrite Hrun. unfold fatal_unless, def_before_use, bind, ast_error, ret,
    ast_settype.
  split; intros Hpos.
  - destruct (Nat.ltb_spec (ast_line ref) (ast_line def));
      destruct (Nat.eqb_spec (ast_line def) (ast_line ref));
      destruct (Nat.ltb_spec (ast_pos ref) (ast_pos def));
      cbn; try lia; reflexivity.
  - destruct (Nat.ltb_spec (ast_line ref) (ast_line def));
      destruct (Nat.eqb_spec (ast_line def) (ast_line ref));
      destruct (Nat.ltb_spec (ast_pos ref) (ast_pos def));
      cbn; try lia; rewrite <- ?app_assoc; reflexivity.
Qed.

(** X12.  A [TK_REFERENCE] whose definition is of a kind the [switch] of
    [expr_reference] does not list (a [TK_TRAIT], for one) reaches
    [assert(0)]: the pass aborts. *)
Theorem reference_to_other_kind_aborts
    (c : context) (ref name def : ast) (st : pass_state) :
  ast_id ref = TK_REFERENCE ->
  ast_child ref = Some name ->
  ast_get E (here c ref) (ast_name name) = Some def ->
  ~ In (ast_id def)
      [TK_PACKAGE; TK_TYPE; TK_CLASS; TK_ACTOR; TK_FVAR; TK_FLET; TK_PARAM;
       TK_NEW; TK_BE; TK_FUN; TK_IDSEQ] ->
  type_expr E c ref st = None.
Proof.
  intros Href Hname Hget Hid. unfold type_expr. rewrite Href.
  unfold fatal_unless, expr_reference, bind, deref, ret.
  rewrite Hname, Hget. cbn in Hid.
  destruct (ast_id def); try reflexivity; exfalso; apply Hid; tauto.
Qed.

(** X13.  [p.T] with an untyped left side.  The package is looked up under the
    name of the left child itself.  When it is not found the pass returns
    [AST_FATAL] with no diagnostic and the state as it was.  When it is a
    package and [T] is found in it, the node gets
    [nominal_type(ast, p, T)]; when [T] is not found, it is rejected with
    one diagnostic at the right child that quotes both names.  When what is
    found is not a package the [assert] fails. *)
Theorem dot_resolves_type_in_package
    (c : context) (a lhs rhs pkg : ast) (rest : list ast) (st : pass_state) :
  ast_id a = TK_DOT ->
  ast_kids a = lhs :: rhs :: rest ->
  ast_id rhs = TK_ID ->
  ast_type lhs = None ->
  (ast_get E (Scope c a lhs) (ast_name lhs) = None ->
   type_expr E c a st = Some (AST_FATAL, st)) /\
  (ast_get E (Scope c a lhs) (ast_name lhs) = Some pkg ->
   ast_id pkg = TK_PACKAGE ->
   type_expr E c a st =
     match ast_get E (Scope c a pkg) (ast_name rhs) with
     | Some _ =>
         Some (AST_OK,
               PassState
                 (nominal_type E (here c a) (Some (ast_name lhs))
                    (ast_name rhs))
                 (errors st))
     | None =>
         Some (AST_FATAL,
               PassState (slot st)
                 (errors st ++
                    [Diag (ast_line rhs) (ast_pos rhs)
                       ("can't find type '" ++ ast_name rhs
                          ++ "' in package '" ++ ast_name lhs ++ "'")]))
     end) /\
  (ast_get E (Scope c a lhs) (ast_name lhs) = Some pkg ->
   ast_id pkg <> TK_PACKAGE ->
   type_expr E c a st = None).
Proof.
  intros Ha Hk Hr Hty. unfold type_expr. rewrite Ha.
  unfold fatal_unless, expr_dot, bind, deref, ret, assert, ast_error,
    ast_settype.
  unfold ast_child, ast_childidx. rewrite Hk. cbn. rewrite Hr, Hty.
  repeat split.
  - intros ->. reflexivity.
  - intros -> Hp. rewrite (is_tk_true _ Hp).
    destruct (ast_get E _ _); reflexivity.
  - intros -> Hp. rewrite (is_tk_false _ Hp). reflexivity.
Qed.

(** X14.  A [TK_DOT] with an identifier on the right and a typed left side is
    always rejected with "not implemented (dot)".  With an integer on the
    right and a left side that is untyped or not of a tuple type it is
    rejected with a diagnostic at the right child.  Any other kind of right
    child reaches [assert(0)]. *)
Theorem dot_member_access_rejected
    (c : context) (a lhs rhs : ast) (rest : list ast) (st : pass_state) :
  ast_id a = TK_DOT ->
  ast_kids a = lhs :: rhs :: rest ->
  (ast_id rhs = TK_ID -> ast_type lhs <> None ->
   type_expr E c a st =
     Some (AST_FATAL,
           PassState (slot st)
             (errors st ++
                [Diag (ast_line a) (ast_pos a) "not implemented (dot)"]))) /\
  (ast_id rhs = TK_INT ->
   (forall t, ast_type lhs = Some t -> ast_id t <> TK_TUPLETYPE) ->
   type_expr E c a st =
     Some (AST_FATAL,
           PassState (slot st)
             (errors st ++
                [Diag (ast_line rhs) (ast_pos rhs)
                   "member by position can only be used on a tuple"]))) /\
  (ast_id rhs <> TK_ID -> ast_id rhs <> TK_INT ->
   type_expr E c a st = None).
Proof.
  intros Ha Hk. unfold type_expr. rewrite Ha.
  unfold fatal_unless, expr_dot, bind, deref, ret, assert, ast_error,
    ast_settype.
  unfold ast_child, ast_childidx. rewrite Hk. cbn.
  repeat split.
  - intros -> Hty. destruct (ast_type lhs); [reflexivity | congruence].
  - intros -> Hty. destruct (ast_type lhs) as [t|]; [|reflexivity].
    rewrite (is_tk_false _ (Hty t eq_refl)). reflexivity.
  - intros H1 H2. destruct (ast_id rhs); try reflexivity; congruence.
Qed.

(** X15.  [TK_VAR], [TK_LET], [TK_FOR], [TK_TRY], [TK_ARRAY], [TK_OBJECT],
    [TK_CONSUME] and [TK_QUALIFY] are rejected whatever their children,
    context and collaborators, with exactly one diagnostic at the node,
    "not implemented (...)", and the type slot left alone.  A node of a
    kind outside the [switch] of [type_expr] (identifiers, type nodes,
    declarations of types, ...) is accepted with the state as it was. *)
Theorem kinds_without_component
    (c : context) (a : ast) (st : pass_state) :
  (In (ast_id a)
      [TK_VAR; TK_LET; TK_FOR; TK_TRY; TK_ARRAY; TK_OBJECT; TK_CONSUME;
       TK_QUALIFY] ->
   type_expr E c a st =
     Some (AST_FATAL,
           PassState (slot st)
             (errors st ++
                [Diag (ast_line a) (ast_pos a)
                   ("not implemented ("
                      ++ match ast_id a with
                         | TK_VAR | TK_LET => "local"
                         | TK_FOR => "for"
                         | TK_TRY => "try"
                         | TK_ARRAY => "array"
                         | TK_OBJECT => "object"
                         | TK_CONSUME => "consume"
                         | _ => "qualify"
                         end ++ ")")]))) /\
  (dispatched (ast_id a) = false ->
   type_expr E c a st = Some (AST_OK, st)).
Proof.
  split.
  - intros Hid. unfold type_expr. cbn in Hid.
    repeat (destruct Hid as [H | Hid]; [rewrite <- H; reflexivity|]).
    destruct Hid.
  - unfold type_expr, dispatched.
    destruct (ast_id a); intros H; try discriminate H; reflexivity.
Qed.

(** X16.  The arithmetic, shift and logical operators and [not] never build a
    type: when one of them is accepted, no diagnostic was emitted and the
    attached type is the type of one of the first two children. *)
Theorem operator_type_is_operand_type
    (c : context) (a : ast) (st st' : pass_state) :
  In (ast_id a)
     [TK_MULTIPLY; TK_DIVIDE; TK_MOD; TK_PLUS; TK_MINUS; TK_LSHIFT;
      TK_RSHIFT; TK_AND; TK_XOR; TK_OR; TK_NOT] ->
  type_expr E c a st = Some (AST_OK, st') ->
  errors st' = errors st /\
  exists operand t,
    In operand (firstn 2 (ast_kids a)) /\
    ast_type operand = Some t /\
    slot st' = Some t.
Proof.
  intros Hid H. unfold type_expr in H. cbn in Hid.
  repeat (destruct Hid as [Hk | Hid]; [rewrite <- Hk in H|]);
    try destruct Hid;
    apply fatal_unless_ok in H;
    unfold expr_arithmetic, expr_minus, expr_shift, expr_logical, expr_not
      in H;
    unfold ast_child, ast_childidx in H;
    destruct (ast_kids a) as [|lhs [|rhs rest]]; cbn [hd_error nth_error] in H;
    open_pass H; crunch H; try discriminate H; injection H as <-; cbn;
    (split; [reflexivity|]);
    repeat match goal with
           | Hx : (if ?b then _ else _) = Some _ |- _ =>
               destruct b; [|discriminate Hx]
           | Hx : Some _ = Some _ |- _ => injection Hx as Hx
           end;
    subst;
    first [ exists lhs; eexists; split; [left; reflexivity|];
            split; [eassumption | reflexivity]
          | exists rhs; eexists; split; [right; left; reflexivity|];
            split; [eassumption | reflexivity] ].
Qed.

(** X17.  [expr_minus] with a second child is [expr_arithmetic].  With a single
    typed child it is accepted, with the child's type, exactly when that
    type passes arithmetic-membership, and rejected with "must have an
    arithmetic type" at the node otherwise. *)
Theorem minus_binary_and_unary
    (c : context) (a : ast) (st : pass_state) :
  (ast_childidx a 1 <> None ->
   expr_minus E c a st = expr_arithmetic E c a st) /\
  (forall operand t,
      ast_id a = TK_MINUS ->
      ast_kids a = [operand] ->
      ast_type operand = Some t ->
      type_expr E c a st =
        if is_subtype E (Scope c a operand) (Some t)
             (nominal_builtin E (Scope c a operand) "Arithmetic")
        then Some (AST_OK, PassState (Some t) (errors st))
        else Some (AST_FATAL,
                   PassState (slot st)
                     (errors st ++
                        [Diag (ast_line a) (ast_pos a)
                           "must have an arithmetic type"]))).
Proof.
  split.
  - intros Hr. unfold expr_minus, expr_arithmetic, bind.
    destruct (deref (ast_child a) st) as [[lhs s]|]; [|reflexivity].
    destruct (type_arithmetic E c a (Some lhs) s) as [[l s']|]; [|reflexivity].
    destruct (ast_childidx a 1) as [rhs|]; [|congruence].
    destruct (type_arithmetic E c a (Some rhs) s') as [[r s'']|];
      [|reflexivity].
    destruct (type_super E (here c a) l r); reflexivity.
  - intros operand t Ha Hk Ht. unfold type_expr. rewrite Ha.
    unfold fatal_unless, expr_minus, ast_child, ast_childidx. rewrite Hk.
    cbn [hd_error nth_error]. unfold bind at 1 2. cbn [deref ret].
    unfold bind at 1 2. unfold type_arithmetic. rewrite type_builtin_run.
    rewrite Ht. unfold bind, ret, ast_error, ast_settype.
    destruct (is_subtype E _ _ _); reflexivity.
Qed.

(** X18.  A shift with two children always returns.  It is accepted exactly when
    both children are typed and both types pass integer-membership; the
    attached type is then the left child's type, whatever the right
    child's.  Otherwise there is one diagnostic, at the node. *)
Theorem shift_type_is_left_operand
    (c : context) (a lhs rhs : ast) (rest : list ast) (st : pass_state) :
  In (ast_id a) [TK_LSHIFT; TK_RSHIFT] ->
  ast_kids a = lhs :: rhs :: rest ->
  exists r st',
    type_expr E c a st = Some (r, st') /\
    (r = AST_OK <->
     ast_type lhs <> None /\ ast_type rhs <> None /\
     is_subtype E (Scope c a lhs) (ast_type lhs)
       (nominal_builtin E (Scope c a lhs) "Integer") = true /\
     is_subtype E (Scope c a rhs) (ast_type rhs)
       (nominal_builtin E (Scope c a rhs) "Integer") = true) /\
    (r = AST_OK -> st' = PassState (ast_type lhs) (errors st)) /\
    (r = AST_FATAL ->
     st' = PassState (slot st)
             (errors st ++
                [Diag (ast_line a) (ast_pos a)
                   "left and right side must have integer types"])).
Proof.
  intros Hid Hk.
  assert (Hrun : type_expr E c a st = fatal_unless (expr_shift E c a) st).
  { unfold type_expr. cbn in Hid.
    destruct Hid as [Hi | [Hi | []]]; rewrite <- Hi; reflexivity. }
  rewrite Hrun. clear Hrun.
  unfold fatal_unless, expr_shift, ast_child, ast_childidx.
  rewrite Hk. cbn [hd_error nth_error].
  unfold bind at 1 2. cbn [deref ret].
  unfold bind at 1 2 3. unfold type_int.
  rewrite !type_builtin_run.
  unfold bind, ret, ast_error, ast_settype.
  destruct (is_subtype E (Scope c a lhs) _ _);
    destruct (is_subtype E (Scope c a rhs) _ _);
    destruct (ast_type lhs); destruct (ast_type rhs);
    eexists _, _; (split; [reflexivity|]);
    (repeat split; try congruence; try discriminate;
     try (intros (? & ? & ? & ?); congruence)).
Qed.

(** X19.  [is] and [isnt] on two typed children, one of whose types is a subtype
    of the other's, get the [Bool] builtin (and fail without a diagnostic
    when there is none).  When a child is untyped or the types are
    unrelated the node is rejected with one diagnostic at the node. *)
Theorem identity_needs_related_types
    (c : context) (a lhs rhs : ast) (rest : list ast) (st : pass_state) :
  In (ast_id a) [TK_IS; TK_ISNT] ->
  ast_kids a = lhs :: rhs :: rest ->
  (forall L R,
      ast_type lhs = Some L -> ast_type rhs = Some R ->
      is_subtype E (here c a) (Some L) (Some R)
      || is_subtype E (here c a) (Some R) (Some L) = true ->
      type_expr E c a st =
        match nominal_builtin E (here c a) "Bool" with
        | Some bool => Some (AST_OK, PassState (Some bool) (errors st))
        | None => Some (AST_FATAL, st)
        end) /\
  (ast_type lhs = None \/ ast_type rhs = None \/
   is_subtype E (here c a) (ast_type lhs) (ast_type rhs)
   || is_subtype E (here c a) (ast_type rhs) (ast_type lhs) = false ->
   type_expr E c a st =
     Some (AST_FATAL,
           PassState (slot st)
             (errors st ++
                [Diag (ast_line a) (ast_pos a)
                   "left and right side must have related types"]))).
Proof.
  intros Hid Hk.
  assert (Hrun : type_expr E c a st = fatal_unless (expr_identity E c a) st).
  { unfold type_expr. cbn in Hid.
    destruct Hid as [Hi | [Hi | []]]; rewrite <- Hi; reflexivity. }
  rewrite Hrun. unfold fatal_unless, expr_identity, ast_child, ast_childidx.
  rewrite Hk. cbn [hd_error nth_error].
  unfold bind, deref, ret, type_super, expr_literal, ast_error, ast_settype.
  split.
  - intros L R -> -> Hrel.
    destruct (is_subtype E (here c a) (Some L) (Some R));
      [|cbn in Hrel; rewrite Hrel];
      destruct (nominal_builtin E _ _); reflexivity.
  - intros Hno.
    destruct (ast_type lhs) as [L|]; [|reflexivity].
    destruct (ast_type rhs) as [R|]; [|reflexivity].
    destruct Hno as [Hno | [Hno | Hno]]; try discriminate.
    apply orb_false_iff in Hno. destruct Hno as [-> ->]. reflexivity.
Qed.

(** X20.  [not] on a typed child is accepted, with the child's type, exactly when
    that type passes bool-membership or integer-membership; the diagnostic
    of the rejection is at the child. *)
Theorem not_accepts_bool_or_integer
    (c : context) (a operand t : ast) (rest : list ast) (st : pass_state) :
  ast_id a = TK_NOT ->
  ast_kids a = operand :: rest ->
  ast_type operand = Some t ->
  type_expr E c a st =
    if is_subtype E (Scope c a operand) (Some t)
         (nominal_builtin E (Scope c a operand) "Bool")
       || is_subtype E (Scope c a operand) (Some t)
            (nominal_builtin E (Scope c a operand) "Integer")
    then Some (AST_OK, PassState (Some t) (errors st))
    else Some (AST_FATAL,
               PassState (slot st)
                 (errors st ++
                    [Diag (ast_line operand) (ast_pos operand)
                       "expected Bool or an integer type"])).
Proof.
  intros Ha Hk Ht. unfold type_expr. rewrite Ha.
  unfold fatal_unless, expr_not, ast_child. rewrite Hk. cbn [hd_error].
  unfold type_int_or_bool, type_bool, type_int.
  unfold bind at 1 2 3. rewrite type_builtin_run. rewrite Ht.
  destruct (is_subtype E _ _ (nominal_builtin E _ "Bool")); cbn.
  - reflexivity.
  - unfold bind at 1 2. rewrite type_builtin_run. rewrite Ht.
    destruct (is_subtype E _ _ _); reflexivity.
Qed.

(** X21.  The condition of an [if] and of a [while] is the first child, that of a
    [repeat] the second.  When it is untyped or its type fails
    bool-membership the node is rejected with "condition must be a Bool" at
    the condition, whatever the other children are.  A loop whose
    condition passes gets the [None] builtin, whatever its body is. *)
Theorem condition_must_be_bool
    (c : context) (a cond : ast) (st : pass_state) :
  (ast_id a = TK_IF /\ ast_child a = Some cond /\ ast_childidx a 1 <> None) \/
  (ast_id a = TK_WHILE /\ ast_child a = Some cond) \/
  (ast_id a = TK_REPEAT /\ ast_childidx a 1 = Some cond) ->
  (ast_type cond = None \/
   is_subtype E (Scope c a cond) (ast_type cond)
     (nominal_builtin E (Scope c a cond) "Bool") = false ->
   type_expr E c a st =
     Some (AST_FATAL,
           PassState (slot st)
             (errors st ++
                [Diag (ast_line cond) (ast_pos cond)
                   "condition must be a Bool"]))) /\
  (ast_id a <> TK_IF ->
   ast_type cond <> None ->
   is_subtype E (Scope c a cond) (ast_type cond)
     (nominal_builtin E (Scope c a cond) "Bool") = true ->
   type_expr E c a st =
     Some (AST_OK,
           PassState (nominal_builtin E (here c a) "None") (errors st))).
Proof.
  intros Hkind.
  assert (Hbody : ast_id a = TK_REPEAT -> ast_childidx a 1 = Some cond ->
                  exists body, ast_child a = Some body).
  { intros _ Hc. unfold ast_childidx in Hc. unfold ast_child.
    destruct (ast_kids a) as [|body kids]; [discriminate|]. now exists body. }
  split.
  - intros Hno.
    assert (Hb : type_bool E c a (Some cond) st = Some (None, st)).
    { unfold type_bool. rewrite type_builtin_run.
      destruct Hno as [Hno | Hno]; rewrite Hno;
        [destruct (is_subtype E _ _ _) |]; reflexivity. }
    unfold type_expr.
    destruct Hkind as [(Ha & Hc & Hl) | [(Ha & Hc) | (Ha & Hc)]]; rewrite Ha;
      unfold fatal_unless, expr_if, expr_while, expr_repeat.
    + rewrite Hc. destruct (ast_childidx a 1) as [lhs|]; [|congruence].
      unfold bind, deref, ret. rewrite Hb. reflexivity.
    + rewrite Hc. unfold bind, deref, ret. rewrite Hb. reflexivity.
    + destruct (Hbody Ha Hc) as (body & ->). rewrite Hc.
      unfold bind, deref, ret. rewrite Hb. reflexivity.
  - intros Hif Hty Hsub.
    destruct (ast_type cond) as [t|] eqn:Ht; [clear Hty | congruence].
    assert (Hb : type_bool E c a (Some cond) st = Some (Some t, st)).
    { unfold type_bool. rewrite type_builtin_run, Ht, Hsub. reflexivity. }
    unfold type_expr.
    destruct Hkind as [(Ha & Hc & Hl) | [(Ha & Hc) | (Ha & Hc)]];
      [congruence | |]; rewrite Ha;
      unfold fatal_unless, expr_while, expr_repeat.
    + rewrite Hc. unfold bind, deref, ret. rewrite Hb. reflexivity.
    + destruct (Hbody Ha Hc) as (body & ->). rewrite Hc.
      unfold bind, deref, ret. rewrite Hb. reflexivity.
Qed.

(** X22.  [continue] and [break]: outside a loop, one diagnostic "must be in a
    loop" (and only that one, even when an expression follows); in a loop
    and followed by a sibling, two diagnostics, at the node and at the
    sibling; in a loop and last, accepted with the [None] builtin. *)
Theorem continue_only_last_in_loop
    (c : context) (a : ast) (st : pass_state) :
  In (ast_id a) [TK_CONTINUE; TK_BREAK] ->
  type_expr E c a st =
    match ctx_enclosing_loop c, ctx_sibling c with
    | None, _ =>
        Some (AST_FATAL,
              PassState (slot st)
                (errors st ++
                   [Diag (ast_line a) (ast_pos a) "must be in a loop"]))
    | Some _, Some next =>
        Some (AST_FATAL,
              PassState (slot st)
                (errors st ++
                   [Diag (ast_line a) (ast_pos a)
                      "must be the last expression in a sequence";
                    Diag (ast_line next) (ast_pos next)
                      "is followed with this expression"]))
    | Some _, None =>
        Some (AST_OK,
              PassState (nominal_builtin E (here c a) "None") (errors st))
    end.
Proof.
  intros Hid.
  assert (Hrun : type_expr E c a st = fatal_unless (expr_continue E c a) st).
  { unfold type_expr. cbn in Hid.
    destruct Hid as [Hi | [Hi | []]]; rewrite <- Hi; reflexivity. }
  rewrite Hrun.
  unfold fatal_unless, expr_continue, bind, ret, ast_error, ast_settype.
  destruct (ctx_enclosing_loop c); [|reflexivity].
  destruct (ctx_sibling c); cbn; rewrite <- ?app_assoc; reflexivity.
Qed.

(** X23.  [error], [continue], [break] and [return] are never accepted when an
    expression follows them in their sequence: the pass returns
    [AST_FATAL], emits at least one diagnostic and leaves the type slot
    alone.  For [error] the diagnostics are exactly two, at the node and at
    the sibling. *)
Theorem followed_by_sibling_never_accepted
    (c : context) (a next : ast) (st st' : pass_state) (r : ast_result_t) :
  In (ast_id a) [TK_ERROR; TK_CONTINUE; TK_BREAK; TK_RETURN] ->
  ctx_sibling c = Some next ->
  type_expr E c a st = Some (r, st') ->
  r = AST_FATAL /\
  slot st' = slot st /\
  exists new, errors st' = (errors st ++ new)%list /\ new <> [] /\
    (ast_id a = TK_ERROR ->
     new = [Diag (ast_line a) (ast_pos a)
              "error must be the last expression in a sequence";
            Diag (ast_line next) (ast_pos next)
              "error is followed with this expression"]).
Proof.
  intros Hid Hsib H. unfold type_expr in H. cbn in Hid.
  repeat (destruct Hid as [Hk | Hid]; [rewrite <- Hk in H|]);
    try destruct Hid;
    unfold fatal_unless, expr_error, expr_continue, expr_return in H;
    rewrite ?Hsib in H; open_pass H; crunch H;
    injection H as <- <-; cbn; rewrite <- ?app_assoc; cbn [app];
    (split; [reflexivity|]); (split; [reflexivity|]);
    eexists; (split; [reflexivity|]); split; try discriminate;
    try (intros _; reflexivity); try congruence.
Qed.

(** X24.  [TK_SEQ], [TK_TUPLE] and [TK_THIS] are never rejected: whenever the
    pass returns on one of them it returns [AST_OK] and has emitted no
    diagnostic. *)
Theorem seq_tuple_this_never_reject
    (c : context) (a : ast) (st st' : pass_state) (r : ast_result_t) :
  In (ast_id a) [TK_SEQ; TK_TUPLE; TK_THIS] ->
  type_expr E c a st = Some (r, st') ->
  r = AST_OK /\ errors st' = errors st.
Proof.
  intros Hid H. unfold type_expr in H. cbn in Hid.
  repeat (destruct Hid as [Hk | Hid]; [rewrite <- Hk in H|]);
    try destruct Hid;
    unfold fatal_unless, expr_seq, expr_tuple, expr_this in H;
    open_pass H; crunch H; purify; injection H as <- <-; cbn;
    split; reflexivity.
Qed.

(** X25.  A [TK_CALL] whose left child has a union, intersection, nominal,
    structural or arrow type is rejected with "not implemented (apply
    sugar)"; with a tuple type, with "can't call a tuple type".  A left
    child's type of any kind other than these and the three method kinds
    reaches [assert(0)]. *)
Theorem call_of_non_method_rejected
    (c : context) (a lhs t : ast) (st : pass_state) :
  ast_id a = TK_CALL ->
  ast_child a = Some lhs ->
  ast_type lhs = Some t ->
  (In (ast_id t)
      [TK_UNIONTYPE; TK_ISECTTYPE; TK_NOMINAL; TK_STRUCTURAL; TK_ARROW] ->
   type_expr E c a st =
     Some (AST_FATAL,
           PassState (slot st)
             (errors st ++
                [Diag (ast_line a) (ast_pos a)
                   "not implemented (apply sugar)"]))) /\
  (ast_id t = TK_TUPLETYPE ->
   type_expr E c a st =
     Some (AST_FATAL,
           PassState (slot st)
             (errors st ++
                [Diag (ast_line a) (ast_pos a) "can't call a tuple type"])))
  /\
  (~ In (ast_id t)
       [TK_NEW; TK_BE; TK_FUN; TK_UNIONTYPE; TK_ISECTTYPE; TK_NOMINAL;
        TK_STRUCTURAL; TK_ARROW; TK_TUPLETYPE] ->
   type_expr E c a st = None).
Proof.
  intros Ha Hl Ht. unfold type_expr. rewrite Ha.
  unfold fatal_unless, expr_call, bind, deref, ret, ast_error.
  rewrite Hl, Ht. repeat split.
  - intros Hid. cbn in Hid.
    repeat (destruct Hid as [Hk | Hid]; [rewrite <- Hk; reflexivity|]).
    destruct Hid.
  - intros ->. reflexivity.
  - intros Hid. cbn in Hid.
    destruct (ast_id t); try reflexivity; exfalso; apply Hid; tauto.
Qed.

(** X26.  A [return] with a body, inside a constructor, behaviour or function
    (with its result child), always returns.  It is accepted exactly when
    nothing follows it in its sequence and the body's type is a subtype of
    what the method returns: [None] in a behaviour and in a function
    without a declared result, the declared result otherwise.  In a
    constructor it is never accepted.  When accepted the state is as it
    was; when rejected the type slot is as it was and there is at least one
    more diagnostic. *)
Theorem return_accepts_iff
    (c : context) (a body fn : ast) (st : pass_state) :
  ast_id a = TK_RETURN ->
  ast_child a = Some body ->
  ctx_enclosing_method_body c = Some fn ->
  In (ast_id fn) [TK_NEW; TK_BE; TK_FUN] ->
  (ast_id fn = TK_FUN -> ast_childidx fn 4 <> None) ->
  exists r st',
    type_expr E c a st = Some (r, st') /\
    (r = AST_OK <->
     ctx_sibling c = None /\
     ((ast_id fn = TK_BE /\
       is_subtype E (here c a) (ast_type body)
         (nominal_builtin E (here c a) "None") = true) \/
      (ast_id fn = TK_FUN /\
       exists result,
         ast_childidx fn 4 = Some result /\
         is_subtype E (here c a) (ast_type body)
           (if is_tk result TK_NONE
            then nominal_builtin E (here c a) "None"
            else Some result) = true))) /\
    (r = AST_OK -> st' = st) /\
    (r = AST_FATAL ->
     slot st' = slot st /\
     List.length (errors st) < List.length (errors st')).
Proof.
  intros Ha Hb Hfn Hkind Hres.
  destruct (type_expr E c a st) as [[r st']|] eqn:H.
  - exists r, st'. split; [reflexivity|].
    unfold type_expr in H. rewrite Ha in H.
    unfold fatal_unless, expr_return in H. rewrite Hb, Hfn in H.
    open_pass H. clear Hkind Hres.
    destruct (ctx_sibling c) as [next|] eqn:Hsib; cbn beta iota in H;
      destruct (ast_id fn) eqn:Hid; try discriminate H;
      crunch H; injection H as <- <-;
      (split; [split; [intros ?; try discriminate
                      | intros (Hs & [[Hk Hsub] | (Hk & res & Hres & Hsub)]);
                        try discriminate; try congruence]
              | split; [intros ?; try discriminate; try reflexivity
                       | intros ?; try discriminate;
                         try (cbn; rewrite ?length_app; cbn;
                              split; [reflexivity | lia])]]).
    all: try (split; [reflexivity|]).
    all: try (left; split; [reflexivity|]; apply negb_false_iff; assumption).
    all: try (right; split; [reflexivity|]; eexists; split; [reflexivity|];
              rewrite ?Heqb; apply negb_false_iff; assumption).
    all: try (rewrite Hsub in *; discriminate).
    all: try (injection Hres as <-; rewrite ?Heqb in Hsub;
              rewrite Hsub in *; discriminate).
  - exfalso. unfold type_expr in H. rewrite Ha in H.
    unfold fatal_unless, expr_return in H. rewrite Hb, Hfn in H.
    open_pass H. cbn in Hkind.
    destruct Hkind as [Hk | [Hk | [Hk | []]]]; rewrite <- Hk in *;
      crunch H; try discriminate H.
    all: now apply Hres.
Qed.

(** X27.  A method without a body is accepted with the state as it was.  For
    a method with a body typed [B], [B] not the bare marker: when it has
    [?] and a declared result [R] that is a subtype of the [TK_ERROR]
    marker, [type_union] returns the marker itself, which the two releases
    that end [expr_fun] then release twice: the pass aborts.  In every
    other case the pass returns, and the method is accepted exactly when
    (1) partiality agrees: with [?], in a trait or [TK_ERROR <: B]; without
    [?], not [TK_ERROR <: B]; and (2) when a result [R] is declared,
    [B <: T] and, outside a trait, [B] equals [T] under [is_eqtype], where
    [T] is [R] without [?] and [type_union(R, TK_ERROR)] with it.  When
    accepted the state is as it was; when rejected the type slot is as it
    was and there is at least one more diagnostic. *)
Theorem method_accepts_iff
    (c : context) (a R can_error body : ast) (st : pass_state) :
  In (ast_id a) [TK_NEW; TK_BE; TK_FUN] ->
  ast_childidx a 4 = Some R ->
  ast_childidx a 5 = Some can_error ->
  ast_childidx a 6 = Some body ->
  (ast_id body = TK_NONE -> type_expr E c a st = Some (AST_OK, st)) /\
  (forall B def,
      ast_id body <> TK_NONE ->
      ast_kids body <> [] ->
      ast_type body = Some B ->
      ast_id B <> TK_ERROR ->
      ctx_enclosing_type c = Some def ->
      let error := ast_from a TK_ERROR in
      let trait := is_tk def TK_TRAIT in
      let partial := is_tk can_error TK_QUESTION in
      let may_error := is_subtype E (here c a) (Some error) (Some B) in
      let below_marker :=
        negb (is_tk R TK_NONE) && partial
        && is_subtype E (here c a) (Some R) (Some error) in
      let T :=
        if partial
        then if is_subtype E (here c a) (Some error) (Some R) then R
             else Node TK_UNIONTYPE (ast_line a) (ast_pos a) "" 0 None
                    [R; error]
        else R in
      (below_marker = true -> type_expr E c a st = None) /\
      (below_marker = false ->
       exists r st',
         type_expr E c a st = Some (r, st') /\
         (r = AST_OK <->
          (if partial then trait || may_error else negb may_error) = true /\
          (ast_id R <> TK_NONE ->
           is_subtype E (here c a) (Some B) (Some T) = true /\
           (trait || is_eqtype E (here c a) (Some B) (Some T)) = true)) /\
         (r = AST_OK -> st' = st) /\
         (r = AST_FATAL ->
          slot st' = slot st /\
          List.length (errors st) < List.length (errors st')))).
Proof.
  intros Hid H4 H5 H6.
  assert (Hrun : type_expr E c a st = fatal_unless (expr_fun E c a) st).
  { unfold type_expr. cbn in Hid.
    destruct Hid as [Hi | [Hi | [Hi | []]]]; rewrite <- Hi; reflexivity. }
  rewrite Hrun. clear Hrun Hid. split.
  { intros Hb. unfold fatal_unless, expr_fun, bind, deref, ret.
    rewrite H4, H5, H6, (is_tk_true _ Hb). reflexivity. }
  intros B def Hb Hkids HB HBe Hdef error trait partial may_error
    below_marker T.
  subst error trait partial may_error below_marker T.
  destruct (ast_childlast_some body Hkids) as (last & Hlast).
  pose proof (is_tk_false _ Hb) as Hb'. pose proof (is_tk_false _ HBe) as HBe'.
  destruct (is_tk R TK_NONE) eqn:HRn;
    destruct (is_tk can_error TK_QUESTION) eqn:Hq;
    destruct (is_subtype E (here c a) (Some R) (Some (ast_from a TK_ERROR)))
      eqn:HsubR;
    cbn [negb andb];
    (split; [first [discriminate | intros _]
            | first [discriminate | intros _]]);
    unfold fatal_unless, expr_fun, bind, deref, ret, ast_error,
      released_twice, crash;
    rewrite H4, H5, H6, Hb', Hdef, HB, HBe', Hq, HRn, Hlast;
    cbn [negb andb]; rewrite ?type_union_run, ?HsubR; cbn [negb andb];
    try reflexivity;
    destruct (is_tk def TK_TRAIT);
    destruct (is_subtype E (here c a) (Some (ast_from a TK_ERROR)) (Some B));
    cbn; rewrite ?type_union_run, ?HsubR; cbn;
    try reflexivity;
    try destruct (is_subtype E _ (Some B) (Some _)); cbn;
    try destruct (is_eqtype E _ (Some B) (Some _)); cbn;
    try reflexivity;
    eexists _, _; (split; [reflexivity|]);
    (split; [split; [first [discriminate
                           | intros _; split;
                             [reflexivity
                             | intros HR; first [split; reflexivity
                                                | apply is_tk_iff in HRn;
                                                  congruence]]]
                    | intros [H1 H2];
                      first [discriminate
                            | reflexivity
                            | assert (HR : ast_id R <> TK_NONE)
                                by (intros HR; apply is_tk_iff in HR;
                                    congruence);
                              destruct (H2 HR); discriminate]]
            | split; [first [discriminate
                            | intros _; destruct st; reflexivity]
                     | first [discriminate
                             | intros _; cbn; rewrite ?length_app; cbn;
                               split; [reflexivity | lia]]]]).
Qed.

(** X28.  [type_super] finds a supertype for [l] and [r] exactly when it finds
    one for [r] and [l]; it finds none when either is [NULL]; and what it
    returns is one of the two, with the other a subtype of it: the right
    one whenever [l <: r], the left one only when [r <: l] and not
    [l <: r]. *)
Theorem type_super_is_an_operand (sc : scope) (l r : option ast) :
  (type_super E sc l r = None <-> type_super E sc r l = None) /\
  (l = None \/ r = None -> type_super E sc l r = None) /\
  (forall t,
      type_super E sc l r = Some t ->
      (r = Some t /\ is_subtype E sc l r = true) \/
      (l = Some t /\ is_subtype E sc r l = true /\
       is_subtype E sc l r = false)).
Proof.
  unfold type_super.
  destruct l as [L|], r as [R|];
    try (repeat split; intros; try reflexivity; try discriminate;
         try (destruct H; discriminate); fail).
  destruct (is_subtype E sc (Some L) (Some R)) eqn:H1;
    destruct (is_subtype E sc (Some R) (Some L)) eqn:H2;
    (repeat split; try discriminate; try (intros [|]; discriminate));
    intros t Ht; injection Ht as <-; auto.
Qed.

Ltac tally H :=
  injection H as <- <-; purify; cbn [slot errors];
  rewrite <- ?app_assoc; cbn [app];
  first [ exists []; rewrite app_nil_r;
          split; [reflexivity|]; split; [cbn; lia|];
          split; intros ?; first [discriminate | reflexivity]
        | eexists; split; [reflexivity|]; split; [cbn; lia|];
          split; intros ?; first [discriminate | reflexivity] ].

(** X29.  Whatever the node, the context and the collaborators, [type_expr]
    keeps the diagnostics it finds and appends at most five.  When it
    returns [AST_OK] it has appended none; when it returns [AST_FATAL] the
    type slot is as it was. *)
Theorem diagnostics_appended_and_bounded
    (c : context) (a : ast) (st st' : pass_state) (r : ast_result_t) :
  type_expr E c a st = Some (r, st') ->
  exists new,
    errors st' = (errors st ++ new)%list /\
    List.length new <= 5 /\
    (r = AST_OK -> new = []) /\
    (r = AST_FATAL -> slot st' = slot st).
Proof.
  intros H. unfold type_expr in H.
  destruct (ast_id a);
    unfold fatal_unless, not_implemented in H;
    unfold expr_field, expr_fun, expr_seq, expr_continue, expr_return,
      expr_arithmetic, expr_minus, expr_shift, expr_order, expr_compare,
      expr_identity, expr_logical, expr_not, expr_assign, expr_consume,
      expr_dot, expr_qualify, expr_call, expr_if, expr_while, expr_repeat,
      expr_tuple, expr_reference, expr_this, expr_literal, expr_error in H;
    unfold def_before_use in H;
    open_pass H; crunch H; tally H.
Qed.


Lemma type_int_or_bool_run (c : context) (a n t : ast) (st : pass_state) :
  ast_type n = Some t ->
  type_int_or_bool E c a (Some n) st =
    if is_subtype E (Scope c a n) (Some t)
         (nominal_builtin E (Scope c a n) "Bool")
       || is_subtype E (Scope c a n) (Some t)
            (nominal_builtin E (Scope c a n) "Integer")
    then Some (Some t, st)
    else Some (None,
               PassState (slot st)
                 (errors st ++
                    [Diag (ast_line n) (ast_pos n)
                       "expected Bool or an integer type"])).
Proof.
  intros Ht. unfold type_int_or_bool, type_bool, type_int.
  unfold bind at 1 2. rewrite type_builtin_run, Ht.
  destruct (is_subtype E _ _ (nominal_builtin E _ "Bool")); cbn.
  - reflexivity.
  - rewrite Ht. destruct (is_subtype E _ _ _); reflexivity.
Qed.

(** X30.  A logical operator ([and], [xor], [or]) on two typed children is
    accepted exactly when each child's type passes bool-membership or
    integer-membership and one of the two types is a subtype of the other;
    the attached type is then the right child's type when the left type is
    a subtype of it, and the left child's type otherwise.  When it is
    rejected, each child that fails membership gets its own diagnostic at
    that child, left before right, and a last diagnostic is at the
    operator. *)
Theorem logical_operands_and_diagnostics
    (c : context) (a lhs rhs L R : ast) (rest : list ast) (st : pass_state) :
  In (ast_id a) [TK_AND; TK_XOR; TK_OR] ->
  ast_kids a = lhs :: rhs :: rest ->
  ast_type lhs = Some L ->
  ast_type rhs = Some R ->
  let member n t :=
    is_subtype E (Scope c a n) (Some t)
      (nominal_builtin E (Scope c a n) "Bool")
    || is_subtype E (Scope c a n) (Some t)
         (nominal_builtin E (Scope c a n) "Integer") in
  let expected n :=
    Diag (ast_line n) (ast_pos n) "expected Bool or an integer type" in
  type_expr E c a st =
    if member lhs L && member rhs R
       && (is_subtype E (here c a) (Some L) (Some R)
           || is_subtype E (here c a) (Some R) (Some L))
    then Some (AST_OK,
               PassState
                 (Some (if is_subtype E (here c a) (Some L) (Some R)
                        then R else L))
                 (errors st))
    else Some (AST_FATAL,
               PassState (slot st)
                 (errors st
                    ++ (if member lhs L then [] else [expected lhs])
                    ++ (if member rhs R then [] else [expected rhs])
                    ++ [Diag (ast_line a) (ast_pos a)
                          "left and right side must have related integer or boolean types"])).
Proof.
  intros Hid Hk HL HR member expected. subst member expected.
  assert (Hrun : type_expr E c a st = fatal_unless (expr_logical E c a) st).
  { unfold type_expr. cbn in Hid.
    destruct Hid as [Hi | [Hi | [Hi | []]]]; rewrite <- Hi; reflexivity. }
  rewrite Hrun. clear Hrun Hid.
  unfold fatal_unless, expr_logical, ast_child, ast_childidx.
  rewrite Hk. cbn [hd_error nth_error].
  unfold bind at 1 2. cbn [deref ret].
  unfold bind at 1 2. rewrite (@type_int_or_bool_run c a lhs L st HL).
  destruct (_ || _); cbn beta iota;
    unfold bind at 1; rewrite (@type_int_or_bool_run c a rhs R _ HR);
    destruct (_ || _); cbn beta iota;
    unfold type_super, bind, ret, ast_error, ast_settype; cbn;
    try destruct (is_subtype E _ (Some L) (Some R)); cbn;
    try destruct (is_subtype E _ (Some R) (Some L)); cbn;
    rewrite <- ?app_assoc; reflexivity.
Qed.

End Components.


(** * A second run over the tree *)

Import Walk.

(** ** Emptying the type slots *)

Lemma strip_idem a : strip (strip a) = strip a.
Proof.
  revert a. fix IH 1. intros [id l p n i ty kids]. cbn. f_equal.
  rewrite map_map. induction kids as [|k kids IHk]; [reflexivity|].
  cbn. rewrite IH, IHk. reflexivity.
Qed.

Lemma map_strip_idem l : map strip (map strip l) = map strip l.
Proof. rewrite map_map. apply map_ext. intros x. apply strip_idem. Qed.

Lemma strip_opt_idem o : option_map strip (option_map strip o) = option_map strip o.
Proof. destruct o; cbn; [now rewrite strip_idem|reflexivity]. Qed.

Lemma strip_ctx_idem c : strip_ctx (strip_ctx c) = strip_ctx c.
Proof. destruct c. unfold strip_ctx. cbn. now rewrite !strip_opt_idem. Qed.

Lemma strip_canon_child k : strip (canon_child k) = strip k.
Proof. destruct k. cbn. now rewrite map_strip_idem. Qed.

Lemma map_strip_canon_child l : map strip (map canon_child l) = map strip l.
Proof. rewrite map_map. apply map_ext. intros x. apply strip_canon_child. Qed.

Lemma strip_canon a : strip (canon a) = strip a.
Proof. destruct a. cbn. now rewrite map_strip_canon_child. Qed.

Lemma strip_field_view d : strip (field_view d) = strip d.
Proof. destruct d. cbn. now rewrite map_strip_idem. Qed.

Lemma childlast_map (f : ast -> ast) l :
  last (map Some (map f l)) None = option_map f (last (map Some l) None).
Proof.
  induction l as [|x l IH]; [reflexivity|].
  cbn [map]. destruct l as [|y l]; [reflexivity|].
  cbn [map last] in *. exact IH.
Qed.

Lemma childlast_strip a : ast_childlast (strip a) = option_map strip (ast_childlast a).
Proof. destruct a. unfold ast_childlast. cbn. apply childlast_map. Qed.

Lemma childlast_canon_child a :
  ast_childlast (canon_child a) = option_map strip (ast_childlast a).
Proof. destruct a. unfold ast_childlast. cbn. apply childlast_map. Qed.

Lemma is_lvalue_strip a : is_lvalue (strip a) = is_lvalue a.
Proof.
  revert a. fix IH 1. intros [id l p n i ty kids].
  destruct id; try reflexivity.
  cbn. induction kids as [|k kids IHk]; [reflexivity|].
  cbn. rewrite IH. destruct (is_lvalue k); cbn; [exact IHk | reflexivity].
Qed.

Lemma is_lvalue_canon_child a : is_lvalue (canon_child a) = is_lvalue a.
Proof.
  rewrite <- (is_lvalue_strip a). destruct a as [id l p n i ty kids].
  destruct id; reflexivity.
Qed.

Lemma is_tk_strip a id : is_tk (strip a) id = is_tk a id.
Proof. destruct a; reflexivity. Qed.

Lemma child_strip a : ast_child (strip a) = option_map strip (ast_child a).
Proof. destruct a as [? ? ? ? ? ? [|? ?]]; reflexivity. Qed.

Lemma childidx_strip a i :
  ast_childidx (strip a) i = option_map strip (ast_childidx a i).
Proof. destruct a. unfold ast_childidx. cbn. apply nth_error_map. Qed.

Lemma tuple_index_walk_strip n :
  forall a index, (Z.to_nat index < n)%nat ->
    tuple_index_walk (strip a) index =
    option_map (option_map strip) (tuple_index_walk a index).
Proof.
  induction n as [|n IH]; intros a index Hn; [lia|].
  rewrite (tuple_index_walk_equation_1 (strip a)).
  rewrite (tuple_index_walk_equation_1 a).
  destruct (Z_lt_dec 1 index) as [Hlt | Hge];
    cbn -[ast_childidx ast_child is_tk strip tuple_index_walk].
  - rewrite childidx_strip. destruct (ast_childidx a 1) as [rhs|];
      cbn -[ast_childidx ast_child is_tk strip tuple_index_walk];
      [|reflexivity].
    rewrite is_tk_strip. destruct (is_tk rhs TK_TUPLETYPE); [|reflexivity].
    apply IH. lia.
  - destruct (index =? 0)%Z.
    + cbn. now rewrite child_strip.
    + rewrite childidx_strip. destruct (ast_childidx a 1) as [rhs|];
        cbn -[ast_childidx ast_child is_tk strip tuple_index_walk];
        [|reflexivity].
      rewrite is_tk_strip. destruct (is_tk rhs TK_TUPLETYPE);
        cbn -[ast_childidx ast_child is_tk strip tuple_index_walk];
        [now rewrite child_strip | reflexivity].
Qed.

Lemma tuple_index_strip a index :
  tuple_index (strip a) index =
  option_map (option_map strip) (tuple_index a index).
Proof.
  unfold tuple_index. rewrite is_tk_strip.
  destruct (is_tk a TK_TUPLETYPE); [|reflexivity].
  apply tuple_index_walk_strip with (n := S (Z.to_nat index)). lia.
Qed.

Lemma param_types_strip ps : forall types st,
  param_types (strip types) (map strip ps) st =
  option_map (fun r => (strip (fst r), snd r)) (param_types types ps st).
Proof.
  induction ps as [|p ps IH]; intros types st; cbn [param_types map].
  - reflexivity.
  - unfold bind, deref, ret, crash. rewrite childidx_strip.
    destruct (ast_childidx p 1) as [t|]; cbn; [|reflexivity].
    rewrite <- IH. f_equal.
    destruct types; cbn. unfold ast_append. cbn. rewrite map_app. reflexivity.
Qed.

Lemma type_for_fun_strip def st :
  type_for_fun (strip def) st =
  option_map (fun r => (strip (fst r), snd r)) (type_for_fun def st).
Proof.
  unfold type_for_fun, bind, assert. rewrite !is_tk_strip.
  destruct (is_tk def TK_NEW || is_tk def TK_BE || is_tk def TK_FUN);
    [|reflexivity].
  unfold ret, crash.
  destruct def as [id l p n i ty kids]. cbn [strip ast_kids ast_id].
  destruct kids as [|cap [|nid [|tps [|params [|result [|throws rest]]]]]];
    try reflexivity.
  cbn [map].
  destruct params as [pid pl pp pn pi pty pk]. cbn [strip ast_id ast_kids].
  destruct pid; try reflexivity.
  unfold bind, ret.
  pose proof (param_types_strip pk (ast_from (Node id l p n i ty (cap :: nid :: tps :: Node TK_PARAMS pl pp pn pi pty pk :: result :: throws :: rest)) TK_TYPES) st) as H.
  unfold ast_from, ast_add in *. cbn in H. cbn. rewrite H.
  destruct (param_types _ pk st) as [[types st']|]; reflexivity.
Qed.

Lemma type_for_fun_field_view def st :
  type_for_fun (field_view def) st =
  option_map (fun r => (strip (fst r), snd r)) (type_for_fun def st).
Proof.
  rewrite <- type_for_fun_strip. destruct def. reflexivity.
Qed.

Lemma tuple_rest_canon a sibs : forall k st,
  tuple_rest (canon a) (canon_child k) (map canon_child sibs) st =
  option_map (fun r => (strip (fst r), snd r)) (tuple_rest a k sibs st).
Proof.
  induction sibs as [|s sibs IH]; intros k st; cbn [tuple_rest map].
  - destruct k as [? ? ? ? ? [t|] ?]; reflexivity.
  - unfold bind, deref, ret, crash.
    destruct k as [? ? ? ? ? [t|] ?]; cbn; [|reflexivity].
    rewrite (IH s st). unfold bind, ret.
    destruct (tuple_rest a s sibs st) as [[r st']|]; cbn; [|reflexivity].
    destruct a. reflexivity.
Qed.


Lemma strip_id k : ast_id (strip k) = ast_id k.
Proof. destruct k; reflexivity. Qed.
Lemma strip_line k : ast_line (strip k) = ast_line k.
Proof. destruct k; reflexivity. Qed.
Lemma strip_pos k : ast_pos (strip k) = ast_pos k.
Proof. destruct k; reflexivity. Qed.
Lemma strip_name k : ast_name (strip k) = ast_name k.
Proof. destruct k; reflexivity. Qed.
Lemma strip_int k : ast_int (strip k) = ast_int k.
Proof. destruct k; reflexivity. Qed.
Lemma strip_type k : ast_type (strip k) = None.
Proof. destruct k; reflexivity. Qed.
Lemma strip_kids k : ast_kids (strip k) = map strip (ast_kids k).
Proof. destruct k; reflexivity. Qed.

Lemma canon_child_id k : ast_id (canon_child k) = ast_id k.
Proof. destruct k; reflexivity. Qed.
Lemma canon_child_line k : ast_line (canon_child k) = ast_line k.
Proof. destruct k; reflexivity. Qed.
Lemma canon_child_pos k : ast_pos (canon_child k) = ast_pos k.
Proof. destruct k; reflexivity. Qed.
Lemma canon_child_name k : ast_name (canon_child k) = ast_name k.
Proof. destruct k; reflexivity. Qed.
Lemma canon_child_int k : ast_int (canon_child k) = ast_int k.
Proof. destruct k; reflexivity. Qed.
Lemma canon_child_type k :
  ast_type (canon_child k) = option_map strip (ast_type k).
Proof. destruct k; reflexivity. Qed.
Lemma canon_child_kids k : ast_kids (canon_child k) = map strip (ast_kids k).
Proof. destruct k; reflexivity. Qed.

Lemma field_view_id k : ast_id (field_view k) = ast_id k.
Proof. destruct k; reflexivity. Qed.
Lemma field_view_line k : ast_line (field_view k) = ast_line k.
Proof. destruct k; reflexivity. Qed.
Lemma field_view_pos k : ast_pos (field_view k) = ast_pos k.
Proof. destruct k; reflexivity. Qed.
Lemma field_view_kids k : ast_kids (field_view k) = map strip (ast_kids k).
Proof. destruct k; reflexivity. Qed.
Lemma field_view_type k :
  ast_type (field_view k) =
  if is_field k then option_map strip (ast_type k) else None.
Proof. destruct k; reflexivity. Qed.

Lemma strip_ctx_parent c :
  ctx_parent (strip_ctx c) = option_map strip (ctx_parent c).
Proof. destruct c; reflexivity. Qed.
Lemma strip_ctx_sibling c :
  ctx_sibling (strip_ctx c) = option_map strip (ctx_sibling c).
Proof. destruct c; reflexivity. Qed.
Lemma strip_ctx_enclosing_type c :
  ctx_enclosing_type (strip_ctx c) = option_map strip (ctx_enclosing_type c).
Proof. destruct c; reflexivity. Qed.
Lemma strip_ctx_enclosing_loop c :
  ctx_enclosing_loop (strip_ctx c) = option_map strip (ctx_enclosing_loop c).
Proof. destruct c; reflexivity. Qed.
Lemma strip_ctx_enclosing_method_body c :
  ctx_enclosing_method_body (strip_ctx c) =
  option_map strip (ctx_enclosing_method_body c).
Proof. destruct c; reflexivity. Qed.

Lemma hd_error_map {A B} (f : A -> B) l :
  hd_error (map f l) = option_map f (hd_error l).
Proof. destruct l; reflexivity. Qed.

(** Reading a node after its type slots were emptied: the rewriting rules
    that bring the two sides of a comparison to the same form. *)
Create Rewrite HintDb canon.

#[local] Hint Rewrite strip_id strip_line strip_pos strip_name strip_int
  strip_type strip_kids canon_child_id canon_child_line canon_child_pos
  canon_child_name canon_child_int canon_child_type canon_child_kids
  field_view_id field_view_line field_view_pos field_view_kids field_view_type
  strip_ctx_parent strip_ctx_sibling strip_ctx_enclosing_type
  strip_ctx_enclosing_loop strip_ctx_enclosing_method_body
  map_strip_idem strip_idem strip_opt_idem strip_ctx_idem
  strip_canon_child map_strip_canon_child strip_canon strip_field_view
  String.eqb_refl childlast_strip childlast_canon_child
  is_lvalue_strip is_lvalue_canon_child tuple_index_strip
  type_for_fun_strip type_for_fun_field_view
  @hd_error_map @nth_error_map : canon.

(** The comparison of two runs of one component goes by cases on what the
    component reads, in the order in which it reads it: the innermost
    scrutinee, and in it the variable or call that blocks the reduction. *)
Ltac innermost x :=
  lazymatch x with
  | context [match ?y with _ => _ end] => innermost y
  | _ => x
  end.

Ltac blocker x :=
  lazymatch x with
  | strip ?k => blocker k
  | canon_child ?k => blocker k
  | canon ?k => blocker k
  | field_view ?k => blocker k
  | strip_ctx ?c => blocker c
  | map _ ?l => blocker l
  | hd_error ?l => blocker l
  | nth_error ?l _ => blocker l
  | option_map _ ?o => blocker o
  | ast_id ?k => blocker k
  | ast_line ?k => blocker k
  | ast_pos ?k => blocker k
  | ast_name ?k => blocker k
  | ast_int ?k => blocker k
  | ast_type ?k => blocker k
  | ast_kids ?k => blocker k
  | ast_child ?k => blocker k
  | ast_childidx ?k _ => blocker k
  | ctx_parent ?c => blocker c
  | ctx_sibling ?c => blocker c
  | ctx_enclosing_type ?c => blocker c
  | ctx_enclosing_loop ?c => blocker c
  | ctx_enclosing_method_body ?c => blocker c
  | slot ?s => blocker s
  | errors ?s => blocker s
  | token_eq_dec ?a ?b =>
      let y := blocker a in
      lazymatch y with
      | a => x
      | _ => y
      end
  | _ => x
  end.

Ltac split_node k :=
  let id := fresh "id" in
  let l := fresh "l" in
  let p := fresh "p" in
  let n := fresh "n" in
  let i := fresh "i" in
  let ty := fresh "ty" in
  let kids := fresh "kids" in
  destruct k as [id l p n i ty kids].

Ltac split_on y :=
  lazymatch type of y with
  | ast => split_node y
  | _ => destruct y
  end.

Ltac reduce :=
  cbn [ast_id ast_line ast_pos ast_name ast_int ast_type ast_kids
       ctx_parent ctx_sibling ctx_enclosing_type ctx_enclosing_loop
       ctx_enclosing_method_body slot errors scope_ctx scope_visited scope_at
       is_subtype is_eqtype nominal_builtin nominal_type cap_for_receiver
       cap_for_fun is_cap_sub_cap ast_get with_lookup on_shapes
       option_map map hd_error nth_error strip canon canon_child field_view
       with_type strip_ctx strip_scope strip_slot fst snd negb andb orb app
       canon_lookup is_field].

Ltac norm :=
  unfold here, ast_child, ast_childidx, ast_from, ast_add,
    ast_append, ast_from_string, is_tk;
  reduce;
  autorewrite with canon; reduce.

Ltac step_with special :=
  norm; try special;
  lazymatch goal with
  | |- ?L = ?L => reflexivity
  | |- context [match ?x with _ => _ end] =>
      let y := innermost x in
      let z := blocker y in
      split_on z
  end.

Ltac step := step_with fail.

Ltac expose :=
  unfold fatal_unless, not_implemented,
      expr_field, expr_fun, expr_seq, expr_continue, expr_return,
      expr_arithmetic, expr_minus, expr_shift, expr_order, expr_compare,
      expr_identity, expr_logical, expr_not, expr_assign, expr_consume,
      expr_dot, expr_qualify, expr_call, expr_if, expr_while, expr_repeat,
      expr_tuple, expr_reference, expr_this, expr_literal, expr_error,
      type_int_or_bool, type_arithmetic, type_bool, type_int, type_union,
      released_twice, def_before_use;
  unfold type_builtin, type_super, deref, assert, ast_error, ast_settype;
  unfold bind, ret, crash.

(** ** A visit reads the parsed shape, the slots of the children and the
    slot of a field it refers to *)

Section Canon.

Variable E : collaborators.
Variable g : string -> option ast.

#[local] Arguments canon_child !k /.
#[local] Arguments canon !a /.
#[local] Arguments field_view !def /.
#[local] Arguments with_type !a t /.
#[local] Arguments strip_ctx !c /.
#[local] Arguments strip_scope !sc /.

Lemma tuple_rest_at a a' sibs : forall k st,
  ast_line a' = ast_line a -> ast_pos a' = ast_pos a ->
  tuple_rest a' (canon_child k) (map canon_child sibs) st =
  option_map (fun r => (strip (fst r), snd r)) (tuple_rest a k sibs st).
Proof.
  intros k st Hl Hp. rewrite <- tuple_rest_canon.
  revert k st. induction sibs as [|s sibs IH]; intros k st;
    cbn [tuple_rest map]; [reflexivity|].
  unfold bind. destruct (deref (ast_type (canon_child k)) st) as [[t st']|];
    [|reflexivity].
  rewrite IH. unfold ast_from. cbn [canon ast_line ast_pos].
  rewrite Hl, Hp. reflexivity.
Qed.

Lemma this_typeargs_at g' c a c' a' tps : forall typeargs st,
  strip_scope (here c' a') = strip_scope (here c a) ->
  this_typeargs (with_lookup (on_shapes E) g') c' a' typeargs (map strip tps) st =
  this_typeargs (with_lookup (on_shapes E) g) c a typeargs tps st.
Proof.
  intros typeargs st H. revert typeargs st.
  induction tps as [|p tps IH]; intros typeargs st; cbn [this_typeargs map].
  - reflexivity.
  - unfold bind, deref, ret, crash. rewrite child_strip.
    destruct (ast_child p) as [id|]; cbn [option_map]; [|reflexivity].
    cbn [with_lookup on_shapes nominal_type]. rewrite H, strip_name.
    destruct (nominal_type E _ None (ast_name id)); [|reflexivity].
    apply IH.
Qed.

Lemma seq_scan_at g' sc sc' err kids :
  strip_scope sc' = strip_scope sc ->
  seq_scan (with_lookup (on_shapes E) g') sc' err (map canon_child kids) =
  (fst (seq_scan (with_lookup (on_shapes E) g) sc err kids),
   option_map strip
     (snd (seq_scan (with_lookup (on_shapes E) g) sc err kids))).
Proof.
  intros Hsc. unfold seq_scan.
  assert (H : forall acc,
    fold_left (fun acc child =>
                 (fst acc || is_subtype (with_lookup (on_shapes E) g')
                               sc' (Some err)
                               (ast_type child), ast_type child))
      (map canon_child kids) (fst acc, option_map strip (snd acc)) =
    (fst (fold_left (fun acc child =>
                 (fst acc || is_subtype (with_lookup (on_shapes E) g)
                               sc (Some err)
                               (ast_type child), ast_type child)) kids acc),
     option_map strip
       (snd (fold_left (fun acc child =>
                 (fst acc || is_subtype (with_lookup (on_shapes E) g)
                               sc (Some err)
                               (ast_type child), ast_type child)) kids acc)))).
  { induction kids as [|k kids IH]; intros acc; cbn [fold_left map].
    - reflexivity.
    - rewrite <- IH. f_equal. cbn [fst snd]. f_equal.
      f_equal.
      cbn [with_lookup on_shapes is_subtype]. rewrite Hsc.
      rewrite canon_child_type, strip_opt_idem. reflexivity. }
  apply (H (false, None)).
Qed.

Lemma canon_expr_seq g' c a st :
  strip_slot (fatal_unless (expr_seq (with_lookup (on_shapes E) g) c a) st) =
  strip_slot
    (fatal_unless (expr_seq (with_lookup (on_shapes E) g')
                     (strip_ctx c) (canon a)) st).
Proof.
  destruct a as [aid al ap an ai aty akids].
  unfold expr_seq. cbn [canon ast_kids].
  rewrite (@seq_scan_at g' (here c (Node aid al ap an ai aty akids))).
  2: { unfold here. cbn. autorewrite with canon. reflexivity. }
  unfold ast_from; cbn [ast_line ast_pos].
  destruct (seq_scan _ _ _ akids) as [ce ty].
  (expose; repeat step).
Qed.

Lemma canon_expr_tuple c a st :
  strip_slot (fatal_unless (expr_tuple c a) st) =
  strip_slot (fatal_unless (expr_tuple (strip_ctx c) (canon a)) st).
Proof.
  destruct a as [aid al ap an ai aty akids].
  unfold expr_tuple. cbn [canon ast_kids].
  destruct akids as [|child [|second siblings]]; cbn [map].
  1, 2: expose; repeat step.
  unfold fatal_unless, bind.
  destruct (deref (ast_type (canon_child child)) st) as [[t st1]|] eqn:H1;
    destruct (deref (ast_type child) st) as [[t' st1']|] eqn:H2;
    rewrite canon_child_type in H1; unfold deref, ret, crash in H1, H2;
    destruct (ast_type child); try discriminate; cbn in H1;
    try reflexivity.
  injection H1 as <- <-. injection H2 as <- <-.
  rewrite (@tuple_rest_at (Node aid al ap an ai aty (child :: second :: siblings)))
    by reflexivity.
  destruct (tuple_rest _ second siblings st) as [[r st']|]; [|reflexivity].
  cbn. unfold ast_append, ast_from. cbn. rewrite !strip_idem. reflexivity.
Qed.


Ltac fold_for_fun :=
  match goal with
  | |- context [type_for_fun (Node ?id ?l ?p ?n ?i ?ty ?kids) ?st] =>
      match goal with
      | |- context [type_for_fun (Node id l p n i None (map strip kids)) st] =>
          change (type_for_fun (Node id l p n i None (map strip kids)) st)
            with (type_for_fun (strip (Node id l p n i ty kids)) st);
          rewrite type_for_fun_strip
      end
  end.

Lemma canon_expr_reference c a st :
  ast_id a = TK_REFERENCE ->
  strip_slot (fatal_unless (expr_reference (with_lookup (on_shapes E) g) c a) st) =
  strip_slot
    (fatal_unless (expr_reference (with_lookup (on_shapes E) (canon_lookup a g))
                     (strip_ctx c) (canon a)) st).
Proof.
  destruct a as [aid al ap an ai aty akids]. cbn [ast_id]. intros ->.
  (expose; repeat (step_with ltac:(idtac; fold_for_fun))).
Qed.

Ltac fold_typeargs :=
  match goal with
  | |- context [this_typeargs (with_lookup (on_shapes E) ?g') ?c' ?a' ?targs (map strip ?tps) ?st] =>
      match goal with
      | |- context [this_typeargs (with_lookup (on_shapes E) g) ?c ?a targs tps st] =>
          rewrite (@this_typeargs_at g' c a c' a' tps targs st)
            by (unfold here; cbn; autorewrite with canon; reflexivity)
      end
  end.

Lemma canon_expr_this g' c a st :
  strip_slot (fatal_unless (expr_this (with_lookup (on_shapes E) g) c a) st) =
  strip_slot
    (fatal_unless (expr_this (with_lookup (on_shapes E) g')
                     (strip_ctx c) (canon a)) st).
Proof.
  destruct a as [aid al ap an ai aty akids].
  (expose; repeat (step_with ltac:(idtac; fold_typeargs))).
Qed.

Lemma canon_expr_dot c a st :
  ast_id a = TK_DOT ->
  strip_slot (fatal_unless (expr_dot (with_lookup (on_shapes E) g) c a) st) =
  strip_slot
    (fatal_unless (expr_dot (with_lookup (on_shapes E) (canon_lookup a g))
                     (strip_ctx c) (canon a)) st).
Proof.
  destruct a as [aid al ap an ai aty akids]. cbn [ast_id]. intros ->.
  (expose; repeat step).
Qed.

Lemma canon_expr_field g' c a st :
  strip_slot (fatal_unless (expr_field (with_lookup (on_shapes E) g) c a) st) =
  strip_slot
    (fatal_unless (expr_field (with_lookup (on_shapes E) g')
                     (strip_ctx c) (canon a)) st).
Proof.
  destruct a as [aid al ap an ai aty akids].
  (expose; repeat step).
Qed.

Lemma canon_expr_fun g' c a st :
  strip_slot (fatal_unless (expr_fun (with_lookup (on_shapes E) g) c a) st) =
  strip_slot
    (fatal_unless (expr_fun (with_lookup (on_shapes E) g')
                     (strip_ctx c) (canon a)) st).
Proof.
  destruct a as [aid al ap an ai aty akids].
  (expose; repeat step).
Qed.

Lemma canon_expr_continue g' c a st :
  strip_slot (fatal_unless (expr_continue (with_lookup (on_shapes E) g) c a) st) =
  strip_slot
    (fatal_unless (expr_continue (with_lookup (on_shapes E) g')
                     (strip_ctx c) (canon a)) st).
Proof.
  destruct a as [aid al ap an ai aty akids].
  (expose; repeat step).
Qed.

Lemma canon_expr_return g' c a st :
  strip_slot (fatal_unless (expr_return (with_lookup (on_shapes E) g) c a) st) =
  strip_slot
    (fatal_unless (expr_return (with_lookup (on_shapes E) g')
                     (strip_ctx c) (canon a)) st).
Proof.
  destruct a as [aid al ap an ai aty akids].
  (expose; repeat step).
Qed.

Lemma canon_expr_arithmetic g' c a st :
  strip_slot (fatal_unless (expr_arithmetic (with_lookup (on_shapes E) g) c a) st) =
  strip_slot
    (fatal_unless (expr_arithmetic (with_lookup (on_shapes E) g')
                     (strip_ctx c) (canon a)) st).
Proof.
  destruct a as [aid al ap an ai aty akids].
  (expose; repeat step).
Qed.

Lemma canon_expr_minus g' c a st :
  strip_slot (fatal_unless (expr_minus (with_lookup (on_shapes E) g) c a) st) =
  strip_slot
    (fatal_unless (expr_minus (with_lookup (on_shapes E) g')
                     (strip_ctx c) (canon a)) st).
Proof.
  destruct a as [aid al ap an ai aty akids].
  (expose; repeat step).
Qed.

Lemma canon_expr_shift g' c a st :
  strip_slot (fatal_unless (expr_shift (with_lookup (on_shapes E) g) c a) st) =
  strip_slot
    (fatal_unless (expr_shift (with_lookup (on_shapes E) g')
                     (strip_ctx c) (canon a)) st).
Proof.
  destruct a as [aid al ap an ai aty akids].
  (expose; repeat step).
Qed.

Lemma canon_expr_order g' c a st :
  strip_slot (fatal_unless (expr_order (with_lookup (on_shapes E) g) c a) st) =
  strip_slot
    (fatal_unless (expr_order (with_lookup (on_shapes E) g')
                     (strip_ctx c) (canon a)) st).
Proof.
  destruct a as [aid al ap an ai aty akids].
  (expose; repeat step).
Qed.

Lemma canon_expr_compare g' c a st :
  strip_slot (fatal_unless (expr_compare (with_lookup (on_shapes E) g) c a) st) =
  strip_slot
    (fatal_unless (expr_compare (with_lookup (on_shapes E) g')
                     (strip_ctx c) (canon a)) st).
Proof.
  destruct a as [aid al ap an ai aty akids].
  (expose; repeat step).
Qed.

Lemma canon_expr_identity g' c a st :
  strip_slot (fatal_unless (expr_identity (with_lookup (on_shapes E) g) c a) st) =
  strip_slot
    (fatal_unless (expr_identity (with_lookup (on_shapes E) g')
                     (strip_ctx c) (canon a)) st).
Proof.
  destruct a as [aid al ap an ai aty akids].
  (expose; repeat step).
Qed.

Lemma canon_expr_logical g' c a st :
  strip_slot (fatal_unless (expr_logical (with_lookup (on_shapes E) g) c a) st) =
  strip_slot
    (fatal_unless (expr_logical (with_lookup (on_shapes E) g')
                     (strip_ctx c) (canon a)) st).
Proof.
  destruct a as [aid al ap an ai aty akids].
  (expose; repeat step).
Qed.

Lemma canon_expr_not g' c a st :
  strip_slot (fatal_unless (expr_not (with_lookup (on_shapes E) g) c a) st) =
  strip_slot
    (fatal_unless (expr_not (with_lookup (on_shapes E) g')
                     (strip_ctx c) (canon a)) st).
Proof.
  destruct a as [aid al ap an ai aty akids].
  (expose; repeat step).
Qed.

Lemma canon_expr_assign g' c a st :
  strip_slot (fatal_unless (expr_assign (with_lookup (on_shapes E) g) c a) st) =
  strip_slot
    (fatal_unless (expr_assign (with_lookup (on_shapes E) g')
                     (strip_ctx c) (canon a)) st).
Proof.
  destruct a as [aid al ap an ai aty akids].
  (expose; repeat step).
Qed.

Lemma canon_expr_call g' c a st :
  strip_slot (fatal_unless (expr_call (with_lookup (on_shapes E) g) c a) st) =
  strip_slot
    (fatal_unless (expr_call (with_lookup (on_shapes E) g')
                     (strip_ctx c) (canon a)) st).
Proof.
  destruct a as [aid al ap an ai aty akids].
  (expose; repeat step).
Qed.

Lemma canon_expr_if g' c a st :
  strip_slot (fatal_unless (expr_if (with_lookup (on_shapes E) g) c a) st) =
  strip_slot
    (fatal_unless (expr_if (with_lookup (on_shapes E) g')
                     (strip_ctx c) (canon a)) st).
Proof.
  destruct a as [aid al ap an ai aty akids].
  (expose; repeat step).
Qed.

Lemma canon_expr_while g' c a st :
  strip_slot (fatal_unless (expr_while (with_lookup (on_shapes E) g) c a) st) =
  strip_slot
    (fatal_unless (expr_while (with_lookup (on_shapes E) g')
                     (strip_ctx c) (canon a)) st).
Proof.
  destruct a as [aid al ap an ai aty akids].
  (expose; repeat step).
Qed.

Lemma canon_expr_repeat g' c a st :
  strip_slot (fatal_unless (expr_repeat (with_lookup (on_shapes E) g) c a) st) =
  strip_slot
    (fatal_unless (expr_repeat (with_lookup (on_shapes E) g')
                     (strip_ctx c) (canon a)) st).
Proof.
  destruct a as [aid al ap an ai aty akids].
  (expose; repeat step).
Qed.

Lemma canon_expr_literal g' c a name st :
  strip_slot (fatal_unless (expr_literal (with_lookup (on_shapes E) g) c a name) st) =
  strip_slot
    (fatal_unless (expr_literal (with_lookup (on_shapes E) g')
                     (strip_ctx c) (canon a) name) st).
Proof.
  destruct a as [aid al ap an ai aty akids].
  (expose; repeat step).
Qed.

Lemma canon_expr_error c a st :
  strip_slot (fatal_unless (expr_error c a) st) =
  strip_slot (fatal_unless (expr_error (strip_ctx c) (canon a)) st).
Proof.
  destruct a as [aid al ap an ai aty akids].
  (expose; repeat step).
Qed.

Lemma canon_id a : ast_id (canon a) = ast_id a.
Proof. destruct a; reflexivity. Qed.

(** A visit with collaborators that are shown shapes only has the outcome
    of the visit of the node reduced to what a visit can depend on, in the
    context reduced to its shape. *)
Lemma canon_run c a st :
  strip_slot (type_expr (with_lookup (on_shapes E) g) c a st) =
  strip_slot
    (type_expr (with_lookup (on_shapes E) (canon_lookup a g))
       (strip_ctx c) (canon a) st).
Proof.
  unfold type_expr. rewrite canon_id.
  destruct (ast_id a) eqn:Hid.
  all: try reflexivity.
  all: try apply canon_expr_field; try apply canon_expr_fun;
    try apply canon_expr_seq; try apply canon_expr_continue;
    try apply canon_expr_return; try apply canon_expr_arithmetic;
    try apply canon_expr_minus; try apply canon_expr_shift;
    try apply canon_expr_order; try apply canon_expr_compare;
    try apply canon_expr_identity; try apply canon_expr_logical;
    try apply canon_expr_not; try apply canon_expr_assign;
    try apply canon_expr_call; try apply canon_expr_if;
    try apply canon_expr_while; try apply canon_expr_repeat;
    try apply canon_expr_tuple; try apply canon_expr_this;
    try apply canon_expr_literal; try apply canon_expr_error;
    try (apply canon_expr_reference; exact Hid);
    try (apply canon_expr_dot; exact Hid).
  all: destruct a; reflexivity.
Qed.

End Canon.

(** ** Induction on trees *)

Lemma ast_induction (P : ast -> Prop) :
  (forall id l p n i ty kids, Forall P kids -> P (Node id l p n i ty kids)) ->
  forall a, P a.
Proof.
  intros H. fix IH 1. intros [id l p n i ty kids]. apply H.
  induction kids as [|k kids IHk]; constructor; [apply IH | exact IHk].
Qed.

Lemma postorder_each id l p n i ty kids :
  postorder (Node id l p n i ty kids) = (each 0 kids ++ [[]])%list.
Proof. reflexivity. Qed.

Lemma path_eqb_true p q : path_eqb p q = true <-> p = q.
Proof. unfold path_eqb. destruct (list_eq_dec Nat.eq_dec p q); split; congruence. Qed.

Lemma path_eqb_refl p : path_eqb p p = true.
Proof. now apply path_eqb_true. Qed.

Lemma path_eqb_false p q : p <> q -> path_eqb p q = false.
Proof. unfold path_eqb. destruct (list_eq_dec Nat.eq_dec p q); congruence. Qed.

(** ** The order of the visits *)

Lemma before_app l l' q p :
  before (l ++ l') q p =
  if existsb (fun x => path_eqb x p) l then before l q p
  else existsb (fun x => path_eqb x q) l || before l' q p.
Proof.
  induction l as [|x l IH]; cbn; [reflexivity|].
  destruct (path_eqb x p); cbn; [reflexivity|].
  rewrite IH. destruct (existsb _ l); [reflexivity|].
  now rewrite orb_assoc.
Qed.

Lemma before_in l q p : before l q p = true -> In q l.
Proof.
  induction l as [|x l IH]; cbn; [discriminate|].
  destruct (path_eqb x p); [discriminate|].
  destruct (path_eqb x q) eqn:Hq; cbn.
  - apply path_eqb_true in Hq. now left.
  - intros H. right. now apply IH.
Qed.

Lemma before_prefix d p l q :
  before (d ++ p :: l) q p = true -> In q d.
Proof.
  rewrite before_app. destruct (existsb _ d).
  - apply before_in.
  - cbn. rewrite path_eqb_refl, orb_false_r.
    intros H. apply existsb_exists in H as (x & Hx & Hq).
    apply path_eqb_true in Hq. now subst.
Qed.

Lemma existsb_cons_other i j l p :
  i <> j -> existsb (fun x => path_eqb x (j :: p)) (map (cons i) l) = false.
Proof.
  intros H. induction l as [|x l IH]; cbn; [reflexivity|].
  rewrite IH, orb_false_r. apply path_eqb_false. congruence.
Qed.

Lemma existsb_cons_same i l p :
  existsb (fun x => path_eqb x (i :: p)) (map (cons i) l) =
  existsb (fun x => path_eqb x p) l.
Proof.
  induction l as [|x l IH]; cbn; [reflexivity|].
  rewrite IH. f_equal. unfold path_eqb.
  destruct (list_eq_dec Nat.eq_dec (i :: x) (i :: p));
    destruct (list_eq_dec Nat.eq_dec x p); congruence.
Qed.

Lemma before_cons i l q p :
  before (map (cons i) l) (i :: q) (i :: p) = before l q p.
Proof.
  induction l as [|x l IH]; cbn; [reflexivity|].
  rewrite IH. unfold path_eqb.
  destruct (list_eq_dec Nat.eq_dec (i :: x) (i :: p));
    destruct (list_eq_dec Nat.eq_dec x p); try congruence.
  destruct (list_eq_dec Nat.eq_dec (i :: x) (i :: q));
    destruct (list_eq_dec Nat.eq_dec x q); congruence.
Qed.

Lemma in_postorder : forall p a, subtree a p <> None -> In p (postorder a).
Proof.
  induction p as [|j p IH]; intros [id l q n i ty kids] H.
  - rewrite postorder_each. apply in_or_app. right. now left.
  - rewrite postorder_each. apply in_or_app. left.
    cbn in H.
    assert (G : forall s, In ((s + j) :: p) (each s kids)).
    { revert j H.
      induction kids as [|k kids IHk]; intros j H s.
      - destruct j; cbn in H; congruence.
      - cbn [each]. apply in_or_app. destruct j as [|j]; cbn in H.
        + left. rewrite Nat.add_0_r. apply in_map. now apply IH.
        + right. replace (s + S j) with (S s + j) by lia. now apply IHk. }
    apply (G 0).
Qed.

Lemma existsb_in l p : In p l -> existsb (fun x => path_eqb x p) l = true.
Proof.
  intros H. apply existsb_exists. exists p. split; [exact H | apply path_eqb_refl].
Qed.

Lemma before_each ks : forall s m k q p,
  nth_error ks m = Some k -> In p (postorder k) ->
  before (each s ks ++ [[]])%list ((s + m) :: q) ((s + m) :: p) =
  before (postorder k) q p.
Proof.
  induction ks as [|k0 ks IH]; intros s m k q p Hk Hp.
  - destruct m; discriminate.
  - cbn [each]. rewrite <- app_assoc, before_app. destruct m as [|m]; cbn in Hk.
    + injection Hk as ->. rewrite Nat.add_0_r.
      rewrite existsb_cons_same, (existsb_in _ _ Hp). apply before_cons.
    + rewrite !existsb_cons_other by lia. cbn [orb].
      replace (s + S m) with (S s + m) by lia. now apply IH.
Qed.

(** The children of a node are visited before the node. *)
Lemma children_first : forall p a i,
  subtree a (p ++ [i])%list <> None ->
  before (postorder a) (p ++ [i])%list p = true.
Proof.
  induction p as [|j p IH]; intros [id l q n x ty kids] i H.
  - rewrite postorder_each, before_app.
    assert (He : existsb (fun x => path_eqb x []) (each 0 kids) = false).
    { clear. generalize 0. induction kids as [|k kids IHk]; intros s; cbn [each];
        [reflexivity|].
      rewrite existsb_app, IHk, orb_false_r.
      induction (postorder k) as [|y ys IHy]; cbn [map existsb];
        [reflexivity|].
      rewrite IHy, orb_false_r. apply path_eqb_false. discriminate. }
    rewrite He. apply orb_true_iff. left. apply existsb_in.
    apply in_postorder with (a := Node id l q n x ty kids) in H.
    rewrite postorder_each in H. apply in_app_or in H as [H | [H | []]];
      [exact H | discriminate].
  - rewrite postorder_each. cbn in H.
    destruct (nth_error kids j) as [k|] eqn:Hk; [|congruence].
    assert (Hp : In p (postorder k)).
    { apply in_postorder. intros Hn.
      clear - H Hn. revert k H Hn. induction p as [|y p IHp]; intros k H Hn.
      - discriminate.
      - cbn in *. destruct (nth_error (ast_kids k) y); [|congruence].
        eapply IHp; eauto. }
    pose proof (@before_each kids 0 j k (p ++ [i])%list p Hk Hp) as Hb.
    cbn [Nat.add] in Hb. cbn [app]. rewrite Hb.
    now apply IH.
Qed.

Lemma postorder_strip a : postorder (strip a) = postorder a.
Proof.
  induction a as [id l p n i ty kids IH] using ast_induction.
  cbn [strip]. rewrite !postorder_each. f_equal.
  generalize 0. induction IH as [|k kids Hk _ IHk]; intros s; cbn [map each];
    [reflexivity|].
  now rewrite Hk, IHk.
Qed.

(** No node is visited twice. *)
Lemma nodup_postorder a : NoDup (postorder a).
Proof.
  induction a as [id l p n i ty kids IH] using ast_induction.
  rewrite postorder_each.
  assert (H : forall s, NoDup (each s kids) /\
                        forall x, In x (each s kids) ->
                                  exists j y, x = j :: y /\ s <= j).
  { induction IH as [|k kids Hk _ IHk]; intros s; cbn [each].
    - split; [constructor | intros x []].
    - destruct (IHk (S s)) as [Hn Hx]. split.
      + apply NoDup_app.
        * apply NoDup_map_NoDup_ForallPairs; [|exact Hk].
          intros x y _ _ Hxy. congruence.
        * exact Hn.
        * intros x Hin1 Hin2. apply in_map_iff in Hin1 as (y & <- & _).
          apply Hx in Hin2 as (j & z & Hjz & Hle). injection Hjz as -> _. lia.
      + intros x Hin. apply in_app_or in Hin as [Hin | Hin].
        * apply in_map_iff in Hin as (y & <- & _). exists s, y. split; [reflexivity | lia].
        * apply Hx in Hin as (j & y & -> & Hle). exists j, y. split; [reflexivity | lia]. }
  destruct (H 0) as [Hn Hx].
  apply NoDup_app; [exact Hn | repeat constructor; intros [] |].
  intros x Hin [<- | []]. apply Hx in Hin as (j & y & Hjy & _). discriminate.
Qed.

(** ** Trees that differ in their type slots *)

Lemma subtree_strip : forall p a,
  subtree (strip a) p = option_map strip (subtree a p).
Proof.
  induction p as [|i p IH]; intros [id l q n x ty kids]; cbn [subtree strip ast_kids].
  - reflexivity.
  - rewrite nth_error_map. destruct (nth_error kids i) as [k|]; cbn;
      [apply IH | reflexivity].
Qed.

Lemma nth_error_update_same {A} (f : A -> A) : forall l i,
  nth_error (update_nth i f l) i = option_map f (nth_error l i).
Proof.
  induction l as [|x l IH]; intros [|i]; cbn; try reflexivity. apply IH.
Qed.

Lemma nth_error_update_other {A} (f : A -> A) : forall l i j,
  i <> j -> nth_error (update_nth i f l) j = nth_error l j.
Proof.
  induction l as [|x l IH]; intros [|i] [|j] H; cbn; try reflexivity;
    try congruence.
  apply IH. congruence.
Qed.

Lemma map_update_nth {A B} (f : A -> A) (h : A -> B) :
  (forall x, h (f x) = h x) ->
  forall l i, map h (update_nth i f l) = map h l.
Proof.
  intros H. induction l as [|x l IH]; intros [|i]; cbn; try reflexivity.
  - now rewrite H.
  - now rewrite IH.
Qed.

Lemma set_slot_strip : forall p s a, strip (set_slot_at p s a) = strip a.
Proof.
  induction p as [|i p IH]; intros s [id l q n x ty kids]; cbn.
  - reflexivity.
  - f_equal. apply map_update_nth. intros k. apply IH.
Qed.

Lemma type_at_set_same : forall p s a,
  subtree a p <> None -> type_at (set_slot_at p s a) p = Some s.
Proof.
  unfold type_at.
  induction p as [|i p IH]; intros s [id l q n x ty kids] H; cbn in *.
  - reflexivity.
  - rewrite nth_error_update_same.
    destruct (nth_error kids i) as [k|]; cbn; [now apply IH | congruence].
Qed.

Lemma type_at_set_other : forall p q s a,
  p <> q -> type_at (set_slot_at p s a) q = type_at a q.
Proof.
  unfold type_at.
  induction p as [|i p IH]; intros [|j q] s [id l c n x ty kids] H;
    cbn [set_slot_at subtree with_type ast_kids ast_id ast_line ast_pos
         ast_name ast_int ast_type option_map]; try congruence; try reflexivity.
  destruct (Nat.eq_dec i j) as [-> | Hij].
  - rewrite nth_error_update_same.
    destruct (nth_error kids j) as [k|]; cbn [option_map]; [|reflexivity].
    apply IH. congruence.
  - now rewrite nth_error_update_other.
Qed.

Lemma subtree_app : forall p a i,
  subtree a (p ++ [i])%list =
  match subtree a p with
  | Some n => nth_error (ast_kids n) i
  | None => None
  end.
Proof.
  induction p as [|j p IH]; intros a i; cbn.
  - destruct (nth_error (ast_kids a) i); reflexivity.
  - destruct (nth_error (ast_kids a) j); [apply IH | reflexivity].
Qed.

Lemma strip_decl a :
  is_type_decl (strip a) = is_type_decl a /\
  is_loop (strip a) = is_loop a /\ is_method (strip a) = is_method a.
Proof. destruct a; repeat split; reflexivity. Qed.

(** The context of a node depends on the shape of the tree only, up to the
    type slots in it. *)
Lemma context_strip : forall p c a,
  strip_ctx (context_from c a p) = context_from (strip_ctx c) (strip a) p.
Proof.
  induction p as [|i p IH]; intros c a; cbn [context_from]; [reflexivity|].
  rewrite strip_kids, !nth_error_map.
  destruct (nth_error (ast_kids a) i) as [k|]; cbn [option_map];
    [|reflexivity].
  rewrite IH. f_equal.
  destruct (strip_decl a) as (-> & -> & ->).
  destruct c as [par sib et el em]. unfold strip_ctx at 1.
  cbn [ctx_parent ctx_sibling ctx_enclosing_type ctx_enclosing_loop
       ctx_enclosing_method_body option_map strip_ctx].
  destruct (is_type_decl a), (is_loop a), (is_method a); reflexivity.
Qed.

Lemma canon_child_eq k k' :
  strip k = strip k' ->
  option_map strip (ast_type k) = option_map strip (ast_type k') ->
  canon_child k = canon_child k'.
Proof. intros H1 H2. unfold canon_child. now rewrite H1, H2. Qed.

(** Two nodes of the same shape whose children hold the same types are the
    same to a visit. *)
Lemma canon_eq a a' :
  strip a = strip a' ->
  (forall i, option_map (fun k => option_map strip (ast_type k))
               (nth_error (ast_kids a) i) =
             option_map (fun k => option_map strip (ast_type k))
               (nth_error (ast_kids a') i)) ->
  canon a = canon a'.
Proof.
  destruct a as [id l p n x ty kids], a' as [id' l' p' n' x' ty' kids'].
  cbn [strip ast_kids]. intros H Hk. injection H as -> -> -> -> -> Hs.
  unfold canon. cbn [ast_id ast_line ast_pos ast_name ast_int ast_kids].
  f_equal. apply nth_error_ext. intros i. rewrite !nth_error_map.
  specialize (Hk i).
  assert (Hi : option_map strip (nth_error kids i) =
               option_map strip (nth_error kids' i)).
  { rewrite <- !nth_error_map. now rewrite Hs. }
  destruct (nth_error kids i) as [k|], (nth_error kids' i) as [k'|];
    cbn in *; try congruence.
  f_equal. apply canon_child_eq; congruence.
Qed.

(** ** The second run, visit by visit *)

(** Collaborators that do not depend on type slots are the collaborators
    shown shapes only. *)
Lemma blind_on_shapes E g :
  shape_blind E -> with_lookup E g = with_lookup (on_shapes E) g.
Proof.
  intros (H1 & H2 & H3 & H4 & H5 & H6). unfold with_lookup. f_equal.
  - extensionality sc. extensionality l. extensionality r. apply H1.
  - extensionality sc. extensionality l. extensionality r. apply H2.
  - extensionality sc. extensionality name. apply H3.
  - extensionality sc. extensionality pkg. extensionality name. apply H4.
  - extensionality sc. apply H5.
  - extensionality t. apply H6.
Qed.

(** Two visits that can see the same have the same outcome, from whatever
    state they start. *)
Lemma visit_again E g1 g2 c1 c2 a1 a2 :
  shape_blind E ->
  strip_ctx c1 = strip_ctx c2 ->
  canon a1 = canon a2 ->
  (forall name, canon_lookup a1 g1 name = canon_lookup a2 g2 name) ->
  forall st,
    strip_slot (type_expr (with_lookup E g1) c1 a1 st) =
    strip_slot (type_expr (with_lookup E g2) c2 a2 st).
Proof.
  intros HE Hc Ha Hg st.
  rewrite !(blind_on_shapes _ HE).
  rewrite (canon_run E g1), (canon_run E g2), Hc, Ha.
  replace (canon_lookup a1 g1) with (canon_lookup a2 g2);
    [reflexivity | extensionality name; symmetry; apply Hg].
Qed.

Lemma subtree_same_shape t u p :
  strip t = strip u ->
  option_map strip (subtree t p) = option_map strip (subtree u p).
Proof. intros H. now rewrite <- !subtree_strip, H. Qed.

Lemma same_slot_absent t u p :
  strip t = strip u -> subtree t p = None -> same_slot t u p.
Proof.
  intros H Hn. pose proof (@subtree_same_shape _ _ p H) as Hs.
  unfold same_slot, type_at. rewrite Hn in *.
  destruct (subtree u p); [discriminate | reflexivity].
Qed.

Lemma is_field_strip d : is_field (strip d) = is_field d.
Proof. destruct d; reflexivity. Qed.

(** A walk changes type slots only, and only at the nodes it visits. *)
Lemma walk_frame E b top : forall ps t f log,
  walk E b top ps t = Some (f, log) ->
  strip f = strip t /\ forall q, ~ In q ps -> type_at f q = type_at t q.
Proof.
  induction ps as [|p ps IH]; intros t f log H; cbn [walk] in H.
  - injection H as <- _. split; [reflexivity | reflexivity].
  - destruct (visit E b top t p) as [[t1 entry]|] eqn:Hv; [|discriminate].
    destruct (walk E b top ps t1) as [[f' log']|] eqn:Hw; [|discriminate].
    injection H as <- _.
    destruct (IH _ _ _ Hw) as [Hs Hq].
    unfold visit in Hv.
    destruct (subtree t p) as [a|]; [|discriminate].
    destruct (type_expr _ _ a _) as [[r st]|]; [|discriminate].
    injection Hv as <- _.
    split.
    + rewrite Hs. apply set_slot_strip.
    + intros q Hn. rewrite Hq by (intros Hi; apply Hn; now right).
      apply type_at_set_other. intros ->. apply Hn. now left.
Qed.

Section Again.
Variable E : collaborators.
Hypothesis blind : shape_blind E.
Variable b : string -> option path.
Variable top : context.
Variable root : ast.
Hypothesis fields : fields_first b root = true.
Variable final : ast.

(** One step of the two runs side by side.  [t] is the tree of the first
    run and [u] the tree of the second run when they reach [p]; the nodes
    [d] have been visited by both, and hold the same types in both. *)
Lemma visit_twice d p ps t u t1 entry :
  postorder root = (d ++ p :: ps)%list ->
  strip t = strip root ->
  strip u = strip root ->
  (forall q, In q d -> same_slot t u q) ->
  type_at u p = type_at t1 p ->
  visit E b top t p = Some (t1, entry) ->
  exists u1,
    visit E b top u p = Some (u1, entry) /\
    strip u1 = strip root /\
    same_slot t1 u1 p /\
    forall q, q <> p -> type_at u1 q = type_at u q.
Proof.
  intros Hpo Ht Hu Hd Hp Hv. unfold visit in Hv.
  destruct (subtree t p) as [at_|] eqn:Hat; [|discriminate].
  destruct (type_expr _ _ at_ _) as [[r st1]|] eqn:Hrun; [|discriminate].
  injection Hv as <- <-.
  assert (Htu : strip t = strip u) by congruence.
  pose proof (@subtree_same_shape _ _ p Htu) as Hsp. rewrite Hat in Hsp.
  destruct (subtree u p) as [au|] eqn:Hau; [|discriminate].
  cbn in Hsp. injection Hsp as Hsa.
  (* the children have been visited *)
  assert (Hkids : forall i, same_slot t u (p ++ [i])%list).
  { intros i. destruct (subtree t (p ++ [i])%list) eqn:Hk;
      [|now apply same_slot_absent].
    apply Hd. apply before_prefix with (p := p) (l := ps). rewrite <- Hpo.
    apply children_first.
    pose proof (@subtree_same_shape _ _ (p ++ [i])%list Ht) as Hr.
    rewrite Hk in Hr. destruct (subtree root (p ++ [i])%list); discriminate. }
  assert (Hcanon : canon at_ = canon au).
  { apply canon_eq; [exact Hsa|]. intros i. specialize (Hkids i).
    unfold same_slot, type_at in Hkids.
    rewrite !subtree_app, Hat, Hau in Hkids.
    destruct (nth_error (ast_kids at_) i), (nth_error (ast_kids au) i);
      cbn in *; congruence. }
  assert (Hctx : strip_ctx (context_from top t p) =
                 strip_ctx (context_from top u p)).
  { now rewrite !context_strip, Htu. }
  assert (Hlook : forall name,
             canon_lookup at_ (lookup_in b t) name =
             canon_lookup au (lookup_in b u) name).
  { intros name. unfold canon_lookup.
    assert (Hid : ast_id at_ = ast_id au)
      by (rewrite <- (strip_id at_), Hsa; apply strip_id).
    rewrite Hid.
    assert (Hshape : option_map strip (lookup_in b t name) =
                     option_map strip (lookup_in b u name)).
    { unfold lookup_in. destruct (b name); [|reflexivity].
      now apply subtree_same_shape. }
    destruct (ast_id au) eqn:Hidu; try exact Hshape.
    assert (Hch : option_map strip (ast_child at_) =
                  option_map strip (ast_child au))
      by (rewrite <- !child_strip; now rewrite Hsa).
    destruct (ast_child at_) as [idt|] eqn:Hct,
             (ast_child au) as [idu|] eqn:Hcu; try discriminate;
      [|reflexivity].
    cbn in Hch. injection Hch as Hch.
    assert (Hname : ast_name idt = ast_name idu)
      by (rewrite <- (strip_name idt), Hch; apply strip_name).
    rewrite Hname.
    destruct (String.eqb name (ast_name idu)) eqn:Hn; [|reflexivity].
    apply String.eqb_eq in Hn. subst name.
    unfold lookup_in in *. destruct (b (ast_name idu)) as [q|] eqn:Hb;
      [|reflexivity].
    destruct (subtree t q) as [dt|] eqn:Hdt, (subtree u q) as [du|] eqn:Hdu;
      try discriminate; [|reflexivity].
    cbn in Hshape. injection Hshape as Hsd. cbn [option_map]. f_equal.
    unfold field_view. rewrite Hsd.
    assert (Hf : is_field dt = is_field du)
      by (rewrite <- (is_field_strip dt), Hsd; apply is_field_strip).
    rewrite Hf. destruct (is_field du) eqn:Hfu; [|reflexivity].
    f_equal.
    (* the field has been visited *)
    assert (Hq : In q d).
    { apply before_prefix with (p := p) (l := ps). rewrite <- Hpo.
      unfold fields_first in fields.
      rewrite forallb_forall in fields.
      assert (Hin : In p (postorder root))
        by (rewrite Hpo; apply in_or_app; right; now left).
      specialize (fields p Hin).
      pose proof (@subtree_same_shape _ _ p Ht) as Hr. rewrite Hat in Hr.
      destruct (subtree root p) as [ar|] eqn:Har; [|discriminate].
      cbn in Hr. injection Hr as Hr.
      assert (Hidr : ast_id ar = TK_REFERENCE)
        by (rewrite <- (strip_id ar), <- Hr, Hsa, strip_id; exact Hidu).
      rewrite Hidr in fields.
      assert (Hcr : option_map strip (ast_child ar) = Some (strip idu))
        by (rewrite <- child_strip, <- Hr, Hsa, child_strip, Hcu; reflexivity).
      destruct (ast_child ar) as [idr|]; [|discriminate].
      cbn in Hcr. injection Hcr as Hcr.
      assert (Hnr : ast_name idr = ast_name idu)
        by (rewrite <- (strip_name idr), Hcr; apply strip_name).
      rewrite Hnr, Hb in fields.
      pose proof (@subtree_same_shape _ _ q Hu) as Hrq. rewrite Hdu in Hrq.
      destruct (subtree root q) as [dr|]; [|discriminate].
      cbn in Hrq. injection Hrq as Hrq.
      assert (Hfr : is_field dr = true)
        by (rewrite <- (is_field_strip dr), <- Hrq, is_field_strip; exact Hfu).
      rewrite Hfr in fields. exact fields. }
    specialize (Hd q Hq). unfold same_slot, type_at in Hd.
    rewrite Hdt, Hdu in Hd. cbn in Hd. congruence. }
  pose proof (visit_again (lookup_in b t) (lookup_in b u) blind Hctx Hcanon Hlook)
    as Hsim.
  change (engine_at E b t) with (with_lookup E (lookup_in b t)) in Hrun.
  (* the second visit starts from the slot the first visit left *)
  assert (Hstart : ast_type au = slot st1).
  { unfold type_at in Hp. rewrite Hau in Hp.
    pose proof (@type_at_set_same p (slot st1) t) as Hs.
    unfold type_at in Hs. rewrite Hs in Hp by congruence.
    cbn in Hp. congruence. }
  destruct (uniform_type_expr (with_lookup E (lookup_in b u))
              (context_from top u p) au) as [Hab | (x & e & new & Hun)].
  - specialize (Hsim (PassState (ast_type at_) [])).
    rewrite Hrun, Hab in Hsim. discriminate.
  - pose proof (Hsim (PassState (ast_type at_) [])) as H1.
    rewrite Hrun, Hun in H1. cbn in H1. injection H1 as Hr Hs He.
    exists (set_slot_at p (apply_effect e (ast_type au)) u).
    unfold visit. rewrite Hau.
    change (engine_at E b u) with (with_lookup E (lookup_in b u)).
    rewrite Hun. cbn [slot errors app]. subst x. rewrite <- He.
    split; [reflexivity|]. split; [now rewrite set_slot_strip|]. split.
    + unfold same_slot.
      rewrite !type_at_set_same by congruence. cbn. f_equal.
      destruct e as [|t']; cbn in *; [now rewrite Hstart | exact Hs].
    + intros q Hq. apply type_at_set_other. congruence.
Qed.

(** The rest of the two runs side by side: at the nodes not visited yet
    the second run still has the slots the first run ended with. *)
Lemma walk_twice : forall ps d t u log,
  postorder root = (d ++ ps)%list ->
  strip t = strip root ->
  strip u = strip root ->
  (forall q, In q d -> same_slot t u q) ->
  (forall q, ~ In q d -> type_at u q = type_at final q) ->
  walk E b top ps t = Some (final, log) ->
  exists u',
    walk E b top ps u = Some (u', log) /\
    strip u' = strip root /\
    forall q, In q (d ++ ps)%list -> same_slot final u' q.
Proof.
  induction ps as [|p ps IH]; intros d t u log Hpo Ht Hu Hd Hrest Hw;
    cbn [walk] in Hw.
  - injection Hw as <- <-. exists u. cbn [walk].
    split; [reflexivity|]. split; [exact Hu|].
    intros q Hq. rewrite app_nil_r in Hq. now apply Hd.
  - destruct (visit E b top t p) as [[t1 entry]|] eqn:Hv; [|discriminate].
    destruct (walk E b top ps t1) as [[f log']|] eqn:Hw1; [|discriminate].
    injection Hw as -> <-.
    pose proof (nodup_postorder root) as Hnd. rewrite Hpo in Hnd.
    apply NoDup_remove_2 in Hnd.
    assert (Hpd : ~ In p d) by (intros H; apply Hnd, in_or_app; now left).
    assert (Hpp : ~ In p ps) by (intros H; apply Hnd, in_or_app; now right).
    destruct (walk_frame _ _ _ _ _ Hw1) as [Hs1 Hf1].
    assert (Hstart : type_at u p = type_at t1 p)
      by (rewrite (Hrest p Hpd); now apply Hf1).
    destruct (visit_twice _ _ _ Hpo Ht Hu Hd Hstart Hv)
      as (u1 & Hv2 & Hu1 & Hsame & Hother).
    assert (Ht1 : strip t1 = strip root).
    { unfold visit in Hv. destruct (subtree t p); [|discriminate].
      destruct (type_expr _ _ _ _) as [[r st]|]; [|discriminate].
      injection Hv as <- _. now rewrite set_slot_strip. }
    destruct (IH (d ++ [p])%list t1 u1 log') as (u' & Hw2 & Hu' & Hall).
    + now rewrite <- app_assoc.
    + exact Ht1.
    + exact Hu1.
    + intros q Hq. apply in_app_or in Hq as [Hq | [<- | []]]; [|exact Hsame].
      assert (Hne : q <> p) by congruence.
      unfold same_slot. rewrite (Hother q Hne).
      unfold visit in Hv. destruct (subtree t p); [|discriminate].
      destruct (type_expr _ _ _ _) as [[r st]|]; [|discriminate].
      injection Hv as <- _.
      rewrite type_at_set_other by congruence. now apply Hd.
    + intros q Hq.
      assert (Hne : q <> p)
        by (intros ->; apply Hq, in_or_app; right; now left).
      rewrite (Hother q Hne). apply Hrest.
      intros Hi. apply Hq, in_or_app. now left.
    + exact Hw1.
    + exists u'. cbn [walk]. rewrite Hv2, Hw2.
      split; [reflexivity|]. split; [exact Hu'|].
      intros q Hq. apply Hall. now rewrite <- app_assoc.
Qed.

End Again.




(** ** The theorems at concrete trees *)

Import Simple Examples.

Lemma tuple_index_in_dot_witness :
  type_expr engine top (dot_at 0) start =
    Some (AST_OK, PassState (Some (type_named "IntLiteral")) []) /\
  type_expr engine top (dot_at 1) start =
    Some (AST_OK, PassState (Some (type_named "String")) []) /\
  type_expr engine top (dot_at 2) start =
    Some (AST_FATAL,
          PassState None [Diag 1 3 "tuple index is out of bounds"]).
Proof.
  split; [|split].
  - refine (proj1 (@tuple_index_in_dot engine top (dot_at 0) pair_ref
                     (int_lit 3 0) pair_type (type_named "IntLiteral")
                     (type_named "String") [] start
                     eq_refl eq_refl eq_refl eq_refl eq_refl eq_refl _)
                  eq_refl).
    discriminate.
  - refine (proj1 (proj2 (@tuple_index_in_dot engine top (dot_at 1) pair_ref
                     (int_lit 3 1) pair_type (type_named "IntLiteral")
                     (type_named "String") [] start
                     eq_refl eq_refl eq_refl eq_refl eq_refl eq_refl _))
                  eq_refl).
    discriminate.
  - refine (proj1 (proj2 (proj2
              (@tuple_index_in_dot engine top (dot_at 2) pair_ref
                 (int_lit 3 2) pair_type (type_named "IntLiteral")
                 (type_named "String") [] start
                 eq_refl eq_refl eq_refl eq_refl eq_refl eq_refl _)))
              eq_refl).
    discriminate.
Defined.

Lemma tuple_type_witness :
  exists ty,
    type_expr engine top triple start =
      Some (AST_OK, PassState (Some ty) []) /\
    spine_of ty
      [nominal (int_lit 2 1) "IntLiteral"; nominal (str_lit 5) "String";
       nominal (int_lit 10 2) "IntLiteral"].
Proof.
  refine (proj2 (@tuple_type_is_spine engine top triple
                   [nominal (int_lit 2 1) "IntLiteral";
                    nominal (str_lit 5) "String";
                    nominal (int_lit 10 2) "IntLiteral"] start
                   eq_refl eq_refl) _).
  cbn. lia.
Defined.

Lemma compare_order_witness :
  type_expr engine top string_eq start =
    Some (AST_OK, PassState (Some (nominal string_eq "Bool")) []).
Proof.
  refine (proj1 (proj2 (@compare_order_bool engine top string_eq
                          (str_lit 1) (str_lit 8) [] start _ eq_refl)
                   eq_refl eq_refl) eq_refl).
  cbn. tauto.
Defined.

Lemma if_type_witness :
  type_expr engine top if_int_string start =
    Some (AST_OK,
          PassState
            (Some (Node TK_UNIONTYPE 1 1 "" 0 None
                     [nominal (int_lit 11 1) "IntLiteral";
                      nominal (str_lit 18) "String"])) []).
Proof.
  destruct (proj1 (@if_type_is_union engine top if_int_string bool_cond
                     (int_lit 11 1) (str_lit 18) (type_named "Bool")
                     (nominal (int_lit 11 1) "IntLiteral")
                     (nominal (str_lit 18) "String") [] start
                     eq_refl eq_refl eq_refl eq_refl eq_refl))
    as (ty & Hu & Hrun).
  injection Hu as <-. exact Hrun.
Defined.

Lemma assign_witness :
  type_expr engine top assign_string start =
    Some (AST_OK, PassState (Some (type_named "String")) []).
Proof.
  exact (proj2 (proj2 (proj2 (proj2
           (@assign_lvalue_then_subtype engine top assign_string string_ref
              (str_lit 5) (type_named "String")
              (nominal (str_lit 5) "String") [] start
              eq_refl eq_refl eq_refl eq_refl)))) eq_refl eq_refl).
Defined.

Lemma fun_accepts_witness :
  type_expr engine in_class fun_decl start = Some (AST_OK, start).
Proof.
  assert (HR : ast_id (type_named "IntLiteral") <> TK_NONE) by discriminate.
  assert (Hq : ast_id (node TK_NONE 25 []) <> TK_QUESTION) by discriminate.
  assert (Hb : ast_id fun_body <> TK_NONE) by discriminate.
  assert (Hk : ast_kids fun_body <> []) by discriminate.
  assert (Ht : ast_id class_decl <> TK_TRAIT) by discriminate.
  assert (He : ast_id (nominal (int_lit 30 1) "IntLiteral") = TK_ERROR ->
               is_subtype engine (here in_class fun_decl)
                 (Some (ast_from fun_decl TK_ERROR))
                 (Some (nominal (int_lit 30 1) "IntLiteral")) = true \/
               is_eqtype engine (here in_class fun_decl)
                 (Some (nominal (int_lit 30 1) "IntLiteral"))
                 (Some (type_named "IntLiteral")) = false)
    by (intros H; discriminate H).
  destruct (@fun_accepts_iff_eqtype_and_total engine in_class fun_decl
              (type_named "IntLiteral") (node TK_NONE 25 []) fun_body
              (nominal (int_lit 30 1) "IntLiteral") class_decl start
              eq_refl eq_refl eq_refl eq_refl HR Hq Hb Hk eq_refl eq_refl Ht
              (fun _ => eq_refl) He)
    as (r & st' & Hrun & Hiff & Hst).
  assert (Hr : r = AST_OK) by (apply Hiff; split; reflexivity).
  rewrite Hrun, (Hst Hr), Hr. reflexivity.
Defined.

Lemma seq_type_witness :
  type_expr engine top seq_may_error_then_int start =
    Some (AST_OK,
          PassState
            (Some (Node TK_UNIONTYPE 1 1 "" 0 None
                     [nominal (int_lit 20 1) "IntLiteral"; error_marker]))
            []).
Proof.
  exact (proj2 (proj2 (proj2
           (@seq_type_is_last_or_union engine top seq_may_error_then_int
              (nominal (int_lit 20 1) "IntLiteral") [may_error_type] start
              eq_refl eq_refl))) eq_refl eq_refl eq_refl).
Defined.

(** C3, refuted as stated: the only child of this sequence may error, and
    the sequence gets the child's type itself, not the union of that type
    with the marker. *)
Lemma seq_keeps_last_type :
  ast_id seq_may_error_last = TK_SEQ /\
  map ast_type (ast_kids seq_may_error_last) = [Some may_error_type] /\
  is_subtype engine (here top seq_may_error_last)
    (Some (ast_from seq_may_error_last TK_ERROR)) (Some may_error_type)
    = true /\
  type_expr engine top seq_may_error_last start =
    Some (AST_OK, PassState (Some may_error_type) []) /\
  ast_kids may_error_type <>
    [may_error_type; ast_from seq_may_error_last TK_ERROR].
Proof.
  repeat split; try reflexivity. discriminate.
Qed.

Lemma bare_error_marker_witness :
  type_expr engine top (Node TK_ERROR 1 4 "" 0 None []) start =
    Some (AST_OK, PassState (Some (Node TK_ERROR 1 4 "" 0 None [])) []).
Proof.
  exact (proj1 (@bare_error_marker_sources engine top start)
           (Node TK_ERROR 1 4 "" 0 None []) eq_refl eq_refl).
Defined.

(** C4, refuted as stated: the sequence [1; error] is not an [error]
    expression, and the type attached to it is the bare marker. *)
Lemma seq_gets_bare_marker :
  ast_id seq_int_then_error = TK_SEQ /\
  type_expr engine top seq_int_then_error start =
    Some (AST_OK, PassState (Some error_marker) []) /\
  ast_id error_marker = TK_ERROR /\
  ast_kids error_marker = [].
Proof. repeat split. Qed.


(** The types on the example trees are the ones the pass attaches. *)
Lemma if_int_error_type :
  type_expr engine top if_int_error start =
    Some (AST_OK, PassState (Some may_error_type) []).
Proof. reflexivity. Qed.


(** The small engine compares types by kind, name and children: it does not
    depend on type slots. *)
Lemma same_type_strip : forall a b,
  same_type (strip a) (strip b) = same_type a b.
Proof.
  fix IH 1. intros [ia la pa na xa ta ka] [ib lb pb nb xb tb kb].
  cbn [strip same_type]. f_equal.
  revert kb. induction ka as [|x ka IHk]; intros [|y kb]; cbn [map];
    try reflexivity.
  rewrite IH, IHk. reflexivity.
Qed.

Lemma below_strip a b :
  below (option_map strip a) (option_map strip b) = below a b.
Proof.
  destruct a as [s|], b as [t|]; try reflexivity. cbn [option_map below].
  rewrite same_type_strip, !strip_id, !strip_name, strip_kids.
  f_equal. f_equal.
  induction (ast_kids t) as [|k ks IH]; cbn [map existsb]; [reflexivity|].
  now rewrite same_type_strip, IH.
Qed.

Lemma engine_shape_blind : shape_blind engine.
Proof.
  repeat split; intros; cbn [engine on_shapes is_subtype is_eqtype
    nominal_builtin nominal_type cap_for_receiver cap_for_fun].
  - now rewrite below_strip.
  - now rewrite !below_strip.
  - unfold nominal. destruct sc as [c v n]. cbn. now rewrite strip_line, strip_pos.
  - unfold nominal. destruct sc as [c v n]. cbn. now rewrite strip_line, strip_pos.
Qed.


(** In [var x = while 1 == 1 do x end] the field is the root of the tree:
    the reference to it is visited first. *)
Remark self_reference_before_field :
  fields_first bindings self_reference = false.
Proof. reflexivity. Qed.


(** ** The further properties at concrete trees *)

Lemma tuple_index_negative_witness :
  tuple_index pair_type (-1) = tuple_index pair_type 1.
Proof. exact (@tuple_index_negative pair_type (-1)%Z eq_refl). Defined.

Lemma tuple_index_after_expr_tuple_witness :
  exists ty,
    type_expr engine top triple start =
      Some (AST_OK, PassState (Some ty) []) /\
    tuple_index ty 0 = Some (Some (nominal (int_lit 2 1) "IntLiteral")) /\
    tuple_index ty 1 = Some (Some (nominal (str_lit 5) "String")) /\
    tuple_index ty 2 = Some (Some (nominal (int_lit 10 2) "IntLiteral")) /\
    tuple_index ty 3 = Some None.
Proof.
  assert (Hlen : 2 <= List.length
                        [nominal (int_lit 2 1) "IntLiteral";
                         nominal (str_lit 5) "String";
                         nominal (int_lit 10 2) "IntLiteral"])
    by (cbn; lia).
  assert (Hlast : forall d,
             ast_id (last [nominal (int_lit 2 1) "IntLiteral";
                           nominal (str_lit 5) "String";
                           nominal (int_lit 10 2) "IntLiteral"] d)
             <> TK_TUPLETYPE)
    by (intros d; discriminate).
  destruct (@tuple_index_after_expr_tuple engine top triple
              [nominal (int_lit 2 1) "IntLiteral";
               nominal (str_lit 5) "String";
               nominal (int_lit 10 2) "IntLiteral"] start
              eq_refl eq_refl Hlen Hlast) as (ty & Hrun & Hidx).
  exists ty. split; [exact Hrun|].
  repeat split; [apply (Hidx 0%Z) | apply (Hidx 1%Z) | apply (Hidx 2%Z)
                | apply (Hidx 3%Z)]; lia.
Defined.

Lemma tuple_index_flattens_witness :
  exists ty,
    type_expr engine top nested_tuple start =
      Some (AST_OK, PassState (Some ty) []) /\
    tuple_index ty 1 = Some (Some (type_named "IntLiteral")).
Proof.
  assert (Hlen : 1 <= List.length [nominal (int_lit 2 1) "IntLiteral"])
    by (cbn; lia).
  exact (@tuple_index_flattens_last_tuple engine top nested_tuple
           [nominal (int_lit 2 1) "IntLiteral"] pair_type start
           eq_refl eq_refl Hlen eq_refl).
Defined.

Lemma type_for_fun_shape_witness :
  exists fn,
    type_for_fun method_decl start = Some (fn, start) /\
    ast_id fn = TK_FUN /\
    ast_kids fn =
      [node TK_NONE 3 []; Node TK_ID 1 7 "g" 0 None []; node TK_NONE 8 [];
       Node TK_TYPES 1 3 "" 0 None [type_named "String"];
       type_named "IntLiteral"; node TK_NONE 33 []; node TK_NONE 3 []].
Proof.
  assert (Hid : In (ast_id method_decl) [TK_NEW; TK_BE; TK_FUN])
    by (cbn; tauto).
  destruct (@type_for_fun_shape method_decl _ _ _ _ _ _ [node TK_NONE 34 []]
              [type_named "String"] start Hid eq_refl (fun _ => eq_refl))
    as (fn & third & Hrun & Hkind & _ & Hkids & _ & Htypes).
  exists fn. rewrite (Htypes eq_refl) in Hkids.
  split; [exact Hrun|]. split; [exact Hkind | exact Hkids].
Defined.

Lemma call_of_method_reference_witness :
  exists fn,
    type_for_fun method_decl start = Some (fn, start) /\
    type_expr (engine_with "g" method_decl) top method_ref start =
      Some (AST_OK, PassState (Some fn) []) /\
    type_expr (engine_with "g" method_decl) top (call_of fn) start =
      Some (AST_OK, PassState (Some (type_named "IntLiteral")) []).
Proof.
  assert (Hid : In (ast_id method_decl) [TK_NEW; TK_BE; TK_FUN])
    by (cbn; tauto).
  destruct (@call_of_method_reference (engine_with "g" method_decl) top
              method_ref (Node TK_ID 1 1 "g" 0 None []) method_decl
              _ _ _ _ _ _ [node TK_NONE 34 []] [type_named "String"] start
              eq_refl eq_refl eq_refl Hid eq_refl (fun _ => eq_refl))
    as (Hfn & Hrun & Hcall).
  eexists. split; [exact Hfn|]. split; [exact Hrun|].
  exact (Hcall top (call_of _) (typed method_ref _) start
           eq_refl eq_refl eq_refl).
Defined.

Lemma field_type_witness :
  type_expr engine top field_decl start =
    Some (AST_OK, PassState (Some (type_named "String")) []).
Proof.
  assert (Hid : In (ast_id field_decl) [TK_FVAR; TK_FLET; TK_PARAM])
    by (cbn; tauto).
  assert (Hty : ast_id (type_named "String") <> TK_NONE) by discriminate.
  exact (proj2 (proj2 (@field_type_declared_or_inferred engine top
                         field_decl (type_named "String") (str_lit 20) start
                         Hid eq_refl eq_refl)) Hty).
Defined.

Lemma literal_type_witness :
  type_expr engine top (Node TK_FLOAT 1 1 "" 0 None []) start =
    Some (AST_OK,
          PassState (Some (Node TK_NOMINAL 1 1 "FloatLiteral" 0 None [])) [])
  /\
  type_expr engine_without_builtins top (Node TK_INT 1 1 "" 7 None []) start =
    Some (AST_FATAL, start).
Proof.
  split.
  - assert (Hid : In (ast_id (Node TK_FLOAT 1 1 "" 0 None []))
                    [TK_INT; TK_FLOAT; TK_STRING]) by (cbn; tauto).
    exact (@literal_type_or_silent_failure engine top _ start Hid).
  - assert (Hid : In (ast_id (Node TK_INT 1 1 "" 7 None []))
                    [TK_INT; TK_FLOAT; TK_STRING]) by (cbn; tauto).
    exact (@literal_type_or_silent_failure engine_without_builtins top _
             start Hid).
Defined.

Lemma this_type_witness :
  type_expr engine in_generic_class this_expr start =
    Some (AST_OK,
          PassState
            (Some (Node TK_NOMINAL 1 20 "" 0 None
                     [node TK_NONE 20 [];
                      Node TK_ID 1 20 "G" 0 None [];
                      Node TK_TYPEARGS 1 20 "" 0 None
                        [Node TK_NOMINAL 1 20 "A" 0 None []];
                      node (TK_OTHER 0) 20 [];
                      node TK_NONE 20 []]))
            []).
Proof.
  assert (Hkind : ast_id generic_class <> TK_TYPE) by discriminate.
  exact (@this_type_names_enclosing_type engine in_generic_class this_expr
           generic_class _ _ [] [Node TK_NOMINAL 1 20 "A" 0 None []] start
           eq_refl eq_refl Hkind eq_refl (fun _ => eq_refl)).
Defined.

Lemma reference_rejections_witness :
  type_expr engine top unbound_ref start =
    Some (AST_FATAL,
          PassState None [Diag 1 1 "can't find declaration of 'y'"]).
Proof.
  exact (proj1 (@reference_rejections engine top unbound_ref
                  (Node TK_ID 1 1 "y" 0 None []) start eq_refl eq_refl)
           eq_refl).
Defined.

Lemma reference_to_field_witness :
  type_expr (engine_with "x" field_decl) top field_ref start =
    Some (AST_OK, PassState (Some (type_named "String")) []).
Proof.
  assert (Hid : In (ast_id field_decl) [TK_FVAR; TK_FLET; TK_PARAM])
    by (cbn; tauto).
  assert (Hpos : ast_line field_decl < ast_line field_ref \/
                 (ast_line field_decl = ast_line field_ref /\
                  ast_pos field_decl <= ast_pos field_ref))
    by (right; split; [reflexivity | cbn; lia]).
  exact (proj1 (@reference_to_field_or_parameter (engine_with "x" field_decl)
                  top field_ref (Node TK_ID 1 30 "x" 0 None []) field_decl
                  start eq_refl eq_refl eq_refl Hid) Hpos).
Defined.

Lemma reference_to_trait_aborts :
  type_expr (engine_with "T" trait_decl) top trait_ref start = None.
Proof.
  assert (Hid : ~ In (ast_id trait_decl)
                    [TK_PACKAGE; TK_TYPE; TK_CLASS; TK_ACTOR; TK_FVAR;
                     TK_FLET; TK_PARAM; TK_NEW; TK_BE; TK_FUN; TK_IDSEQ])
    by (cbn; intuition discriminate).
  exact (@reference_to_other_kind_aborts (engine_with "T" trait_decl) top
           trait_ref (Node TK_ID 1 1 "T" 0 None []) trait_decl start
           eq_refl eq_refl eq_refl Hid).
Defined.

Lemma dot_resolves_type_witness :
  type_expr engine_with_type_in_package top dot_package_type start =
    Some (AST_OK,
          PassState (Some (Node TK_NOMINAL 1 2 "T" 0 None [])) []).
Proof.
  exact (proj1 (proj2
           (@dot_resolves_type_in_package engine_with_type_in_package top
              dot_package_type package_prefix (Node TK_ID 1 3 "T" 0 None [])
              package_decl [] start eq_refl eq_refl eq_refl eq_refl))
           eq_refl eq_refl).
Defined.

Lemma dot_member_access_witness :
  type_expr engine top dot_member start =
    Some (AST_FATAL, PassState None [Diag 1 2 "not implemented (dot)"]).
Proof.
  assert (Hty : ast_type string_ref <> None) by discriminate.
  exact (proj1 (@dot_member_access_rejected engine top dot_member string_ref
                  (Node TK_ID 1 3 "size" 0 None []) [] start
                  eq_refl eq_refl) eq_refl Hty).
Defined.

Lemma kinds_without_component_witness :
  type_expr engine top (node TK_FOR 1 []) start =
    Some (AST_FATAL, PassState None [Diag 1 1 "not implemented (for)"]) /\
  type_expr engine top (type_named "String") start = Some (AST_OK, start).
Proof.
  split.
  - assert (Hid : In (ast_id (node TK_FOR 1 []))
                    [TK_VAR; TK_LET; TK_FOR; TK_TRY; TK_ARRAY; TK_OBJECT;
                     TK_CONSUME; TK_QUALIFY]) by (cbn; tauto).
    exact (proj1 (@kinds_without_component engine top (node TK_FOR 1 [])
                    start) Hid).
  - exact (proj2 (@kinds_without_component engine top (type_named "String")
                    start) eq_refl).
Defined.

Lemma operator_type_witness :
  exists operand t,
    In operand [int_lit 1 1; int_lit 5 2] /\
    ast_type operand = Some t /\
    type_expr engine top plus_ints start =
      Some (AST_OK, PassState (Some t) []).
Proof.
  assert (Hid : In (ast_id plus_ints)
                  [TK_MULTIPLY; TK_DIVIDE; TK_MOD; TK_PLUS; TK_MINUS;
                   TK_LSHIFT; TK_RSHIFT; TK_AND; TK_XOR; TK_OR; TK_NOT])
    by (cbn; tauto).
  destruct (type_expr engine top plus_ints start) as [[[|] st']|] eqn:Hrun;
    try discriminate.
  destruct (@operator_type_is_operand_type engine top plus_ints start st'
              Hid Hrun) as (Herr & operand & t & Hin & Hty & Hslot).
  exists operand, t. split; [exact Hin|]. split; [exact Hty|].
  destruct st' as [s e]. cbn in Herr, Hslot. subst. reflexivity.
Defined.

Lemma minus_unary_witness :
  type_expr engine top minus_int start =
    Some (AST_OK,
          PassState (Some (nominal (int_lit 2 1) "IntLiteral")) []).
Proof.
  exact (proj2 (@minus_binary_and_unary engine top minus_int start)
           (int_lit 2 1) (nominal (int_lit 2 1) "IntLiteral")
           eq_refl eq_refl eq_refl).
Defined.

Lemma shift_type_witness :
  type_expr engine top shift_ints start =
    Some (AST_OK,
          PassState (Some (nominal (int_lit 1 1) "IntLiteral")) []).
Proof.
  assert (Hid : In (ast_id shift_ints) [TK_LSHIFT; TK_RSHIFT])
    by (cbn; tauto).
  destruct (@shift_type_is_left_operand engine top shift_ints (int_lit 1 1)
              (int_lit 6 2) [] start Hid eq_refl)
    as (r & st' & Hrun & Hiff & Hok & _).
  assert (Hr : r = AST_OK).
  { apply Hiff. repeat split; try discriminate; reflexivity. }
  rewrite Hrun, (Hok Hr), Hr. reflexivity.
Defined.

Lemma identity_witness :
  type_expr engine top string_is start =
    Some (AST_OK, PassState (Some (nominal string_is "Bool")) []).
Proof.
  assert (Hid : In (ast_id string_is) [TK_IS; TK_ISNT]) by (cbn; tauto).
  exact (proj1 (@identity_needs_related_types engine top string_is
                  (str_lit 1) (str_lit 8) [] start Hid eq_refl)
           (nominal (str_lit 1) "String") (nominal (str_lit 8) "String")
           eq_refl eq_refl eq_refl).
Defined.

Lemma not_witness :
  type_expr engine top not_bool start =
    Some (AST_OK, PassState (Some (type_named "Bool")) []).
Proof.
  exact (@not_accepts_bool_or_integer engine top not_bool bool_cond
           (type_named "Bool") [] start eq_refl eq_refl eq_refl).
Defined.

Lemma condition_witness :
  type_expr engine top while_loop start =
    Some (AST_OK, PassState (Some (nominal while_loop "None")) []) /\
  type_expr engine top (node TK_WHILE 1 [int_lit 7 1]) start =
    Some (AST_FATAL, PassState None [Diag 1 7 "condition must be a Bool"]).
Proof.
  split.
  - assert (Hif : ast_id while_loop <> TK_IF) by discriminate.
    assert (Hty : ast_type bool_cond <> None) by discriminate.
    exact (proj2 (@condition_must_be_bool engine top while_loop bool_cond
                    start (or_intror (or_introl (conj eq_refl eq_refl))))
             Hif Hty eq_refl).
  - exact (proj1 (@condition_must_be_bool engine top
                    (node TK_WHILE 1 [int_lit 7 1]) (int_lit 7 1) start
                    (or_intror (or_introl (conj eq_refl eq_refl))))
             (or_intror eq_refl)).
Defined.

Lemma continue_witness :
  type_expr engine in_loop continue_expr start =
    Some (AST_OK, PassState (Some (nominal continue_expr "None")) []) /\
  type_expr engine top continue_expr start =
    Some (AST_FATAL, PassState None [Diag 1 12 "must be in a loop"]).
Proof.
  assert (Hid : In (ast_id continue_expr) [TK_CONTINUE; TK_BREAK])
    by (cbn; tauto).
  split.
  - exact (@continue_only_last_in_loop engine in_loop continue_expr start
             Hid).
  - exact (@continue_only_last_in_loop engine top continue_expr start Hid).
Defined.

Lemma followed_by_sibling_witness :
  type_expr engine before_int (Node TK_ERROR 1 4 "" 0 None []) start =
    Some (AST_FATAL,
          PassState None
            [Diag 1 4 "error must be the last expression in a sequence";
             Diag 1 10 "error is followed with this expression"]).
Proof.
  assert (Hid : In (ast_id (Node TK_ERROR 1 4 "" 0 None []))
                  [TK_ERROR; TK_CONTINUE; TK_BREAK; TK_RETURN])
    by (cbn; tauto).
  destruct (type_expr engine before_int (Node TK_ERROR 1 4 "" 0 None [])
              start) as [[r st']|] eqn:Hrun; [|discriminate].
  destruct (@followed_by_sibling_never_accepted engine before_int _
              (int_lit 10 1) start st' r Hid eq_refl Hrun)
    as (Hr & Hslot & new & Herr & _ & Hnew).
  destruct st' as [s e]. cbn in Hslot, Herr. rewrite (Hnew eq_refl) in Herr.
  subst. reflexivity.
Defined.

Lemma never_reject_witness :
  exists st',
    type_expr engine top triple start = Some (AST_OK, st') /\
    errors st' = [].
Proof.
  assert (Hid : In (ast_id triple) [TK_SEQ; TK_TUPLE; TK_THIS])
    by (cbn; tauto).
  destruct (type_expr engine top triple start) as [[r st']|] eqn:Hrun;
    [|discriminate].
  destruct (@seq_tuple_this_never_reject engine top triple start st' r
              Hid Hrun) as [Hr Herr].
  exists st'. subst r. split; [reflexivity | exact Herr].
Defined.

Lemma call_of_tuple_witness :
  type_expr engine top call_tuple start =
    Some (AST_FATAL, PassState None [Diag 1 2 "can't call a tuple type"]).
Proof.
  exact (proj1 (proj2 (@call_of_non_method_rejected engine top call_tuple
                         pair_ref pair_type start eq_refl eq_refl eq_refl))
           eq_refl).
Defined.

Lemma return_accepts_witness :
  type_expr engine in_behaviour return_none start = Some (AST_OK, start).
Proof.
  assert (Hkind : In (ast_id (node TK_BE 1 [])) [TK_NEW; TK_BE; TK_FUN])
    by (cbn; tauto).
  assert (Hres : ast_id (node TK_BE 1 []) = TK_FUN ->
                 ast_childidx (node TK_BE 1 []) 4 <> None)
    by discriminate.
  destruct (@return_accepts_iff engine in_behaviour return_none none_ref
              (node TK_BE 1 []) start eq_refl eq_refl eq_refl Hkind Hres)
    as (r & st' & Hrun & Hiff & Hok & _).
  assert (Hr : r = AST_OK).
  { apply Hiff. split; [reflexivity|]. left. split; reflexivity. }
  rewrite Hrun, (Hok Hr), Hr. reflexivity.
Defined.

Lemma method_accepts_witness :
  type_expr engine in_class fun_decl start = Some (AST_OK, start) /\
  type_expr engine top method_decl start = Some (AST_OK, start) /\
  type_expr engine in_class partial_fun_decl start = None.
Proof.
  assert (Hb : ast_id fun_body <> TK_NONE) by discriminate.
  assert (Hk : ast_kids fun_body <> []) by discriminate.
  assert (HB : ast_id (nominal (int_lit 30 1) "IntLiteral") <> TK_ERROR)
    by discriminate.
  split; [|split].
  - assert (Hid : In (ast_id fun_decl) [TK_NEW; TK_BE; TK_FUN])
      by (cbn; tauto).
    destruct (proj2 (proj2 (@method_accepts_iff engine in_class fun_decl
                              (type_named "IntLiteral") (node TK_NONE 25 [])
                              fun_body start Hid eq_refl eq_refl eq_refl)
                       (nominal (int_lit 30 1) "IntLiteral") class_decl
                       Hb Hk eq_refl HB eq_refl) eq_refl)
      as (r & st' & Hrun & Hiff & Hok & _).
    assert (Hr : r = AST_OK).
    { apply Hiff. split; [reflexivity|]. intros _. split; reflexivity. }
    rewrite Hrun, (Hok Hr), Hr. reflexivity.
  - assert (Hid : In (ast_id method_decl) [TK_NEW; TK_BE; TK_FUN])
      by (cbn; tauto).
    exact (proj1 (@method_accepts_iff engine top method_decl
                    (type_named "IntLiteral") (node TK_NONE 33 [])
                    (node TK_NONE 34 []) start Hid eq_refl eq_refl eq_refl)
             eq_refl).
  - assert (Hid : In (ast_id partial_fun_decl) [TK_NEW; TK_BE; TK_FUN])
      by (cbn; tauto).
    exact (proj1 (proj2 (@method_accepts_iff engine in_class partial_fun_decl
                           error_marker (node TK_QUESTION 25 []) fun_body
                           start Hid eq_refl eq_refl eq_refl)
                    (nominal (int_lit 30 1) "IntLiteral") class_decl
                    Hb Hk eq_refl HB eq_refl) eq_refl).
Defined.

Lemma diagnostics_bounded_witness :
  exists new,
    errors plus_int_string_rejected = (errors start ++ new)%list /\
    List.length new <= 5.
Proof.
  destruct (@diagnostics_appended_and_bounded engine top plus_int_string
              start plus_int_string_rejected AST_FATAL eq_refl)
    as (new & Herr & Hlen & _).
  exists new. split; assumption.
Defined.

Lemma logical_witness :
  type_expr engine top and_int_string start =
    Some (AST_FATAL,
          PassState None
            [Diag 1 7 "expected Bool or an integer type";
             Diag 1 3
               "left and right side must have related integer or boolean types"]).
Proof.
  assert (Hid : In (ast_id and_int_string) [TK_AND; TK_XOR; TK_OR])
    by (cbn; tauto).
  exact (@logical_operands_and_diagnostics engine top and_int_string
           (int_lit 1 1) (str_lit 7) (nominal (int_lit 1 1) "IntLiteral")
           (nominal (str_lit 7) "String") [] start
           Hid eq_refl eq_refl eq_refl).
Defined.
